(** * grpc-etcd: the etcd service registry (registry/registry.go)

    A shallow embedding of the registry: the JSON codec of [ServiceInfo]
    (Go's [encoding/json] as [Register] and [Discover] use it), the etcd
    store seen through the client calls the registry makes, the registry
    operations, and the goroutines the registry starts. *)

From Stdlib Require Import ZArith List String Ascii Bool Lia Permutation.
Import ListNotations.

Local Open Scope Z_scope.

(* ================================================================== *)
(** ** Go strings: byte sequences *)

(** A Go [string] (and a [[]byte]) is a sequence of bytes; [String.string]
    is the same thing, one [ascii] per byte. *)

Definition byteZ (c : ascii) : Z := Z.of_N (N_of_ascii c).

(** Go's [byte(x)] conversion keeps the low eight bits. *)
Definition byte (z : Z) : ascii := ascii_of_N (Z.to_N (z mod 256)).

(** [s[i]], read only where the code has checked [i < len(s)]. *)
Definition idx (s : string) (i : nat) : Z :=
  match String.get i s with
  | Some c => byteZ c
  | None => 0
  end.

(** [s[n:]] and [s[:n]]. *)
Fixpoint skip (n : nat) (s : string) : string :=
  match n, s with
  | S k, String _ t => skip k t
  | _, _ => s
  end.

Fixpoint take (n : nat) (s : string) : string :=
  match n, s with
  | S k, String c t => String c (take k t)
  | _, _ => EmptyString
  end.

Definition of_bytes (l : list Z) : string :=
  fold_right (fun z acc => String (byte z) acc) EmptyString l.

(** The double quote and the backslash, by code. *)
Definition dquote : ascii := "034"%char.
Definition bslash : ascii := "092"%char.

(* ================================================================== *)
(** ** unicode/utf8 *)

Module utf8.

Definition RuneError : Z := 0xFFFD.
Definition RuneSelf : Z := 0x80.
Definition MaxRune : Z := 0x10FFFF.
Definition UTFMax : nat := 4.

Definition surrogateMin : Z := 0xD800.
Definition surrogateMax : Z := 0xDFFF.

Definition t2 : Z := 0xC0.
Definition t3 : Z := 0xE0.
Definition t4 : Z := 0xF0.
Definition tx : Z := 0x80.
Definition maskx : Z := 0x3F.
Definition mask2 : Z := 0x1F.
Definition mask3 : Z := 0x0F.
Definition mask4 : Z := 0x07.
Definition locb : Z := 0x80.
Definition hicb : Z := 0xBF.

Definition rune1Max : Z := 0x7F.
Definition rune2Max : Z := 0x7FF.
Definition rune3Max : Z := 0xFFFF.

(** The [first] table together with [acceptRanges]: what the first byte
    of a sequence announces. [As] is ASCII, [Xx] an invalid first byte,
    [Lead sz lo hi] a sequence of [sz] bytes whose second byte lies in
    [lo..hi]. *)
Inductive first_info : Type :=
| As
| Xx
| Lead (sz : nat) (lo hi : Z).

Definition first (s0 : Z) : first_info :=
  if s0 <? 0x80 then As
  else if s0 <? 0xC2 then Xx
  else if s0 <? 0xE0 then Lead 2 locb hicb
  else if s0 =? 0xE0 then Lead 3 0xA0 hicb
  else if s0 <? 0xED then Lead 3 locb hicb
  else if s0 =? 0xED then Lead 3 locb 0x9F
  else if s0 <? 0xF0 then Lead 3 locb hicb
  else if s0 =? 0xF0 then Lead 4 0x90 hicb
  else if s0 <? 0xF4 then Lead 4 locb hicb
  else if s0 =? 0xF4 then Lead 4 locb 0x8F
  else Xx.

(** [DecodeRuneInString] on the byte values: [n] is [len(s)] and
    [s0..s3] are [s[0]..s[3]]. *)
Definition decode (n : nat) (s0 s1 s2 s3 : Z) : Z * nat :=
  if (n <? 1)%nat then (RuneError, 0%nat)
  else
    match first s0 with
    | As => (s0, 1%nat)
    | Xx => (RuneError, 1%nat)
    | Lead sz lo hi =>
        if (n <? sz)%nat then (RuneError, 1%nat)
        else if (s1 <? lo) || (hi <? s1) then (RuneError, 1%nat)
        else if (sz <=? 2)%nat then
          (Z.lor (Z.shiftl (Z.land s0 mask2) 6) (Z.land s1 maskx), 2%nat)
        else if (s2 <? locb) || (hicb <? s2) then (RuneError, 1%nat)
        else if (sz <=? 3)%nat then
          (Z.lor (Z.lor (Z.shiftl (Z.land s0 mask3) 12)
                        (Z.shiftl (Z.land s1 maskx) 6))
                 (Z.land s2 maskx), 3%nat)
        else if (s3 <? locb) || (hicb <? s3) then (RuneError, 1%nat)
        else
          (Z.lor (Z.lor (Z.lor (Z.shiftl (Z.land s0 mask4) 18)
                               (Z.shiftl (Z.land s1 maskx) 12))
                        (Z.shiftl (Z.land s2 maskx) 6))
                 (Z.land s3 maskx), 4%nat)
    end.

Definition DecodeRuneInString (s : string) : Z * nat :=
  decode (String.length s) (idx s 0) (idx s 1) (idx s 2) (idx s 3).

(** [AppendRune]: the bytes of a rune. Runes out of range and surrogate
    halves are written as [RuneError]. *)
Definition encode3 (r : Z) : list Z :=
  [Z.lor t3 (Z.shiftr r 12 mod 256);
   Z.lor tx (Z.land (Z.shiftr r 6 mod 256) maskx);
   Z.lor tx (Z.land (r mod 256) maskx)].

Definition encode (r : Z) : list Z :=
  if (0 <=? r) && (r <=? rune1Max) then [r]
  else if (0 <=? r) && (r <=? rune2Max) then
    [Z.lor t2 (Z.shiftr r 6 mod 256);
     Z.lor tx (Z.land (r mod 256) maskx)]
  else if (r <? 0) || (MaxRune <? r)
          || ((surrogateMin <=? r) && (r <=? surrogateMax)) then
    encode3 RuneError
  else if r <=? rune3Max then encode3 r
  else
    [Z.lor t4 (Z.shiftr r 18 mod 256);
     Z.lor tx (Z.land (Z.shiftr r 12 mod 256) maskx);
     Z.lor tx (Z.land (Z.shiftr r 6 mod 256) maskx);
     Z.lor tx (Z.land (r mod 256) maskx)].

Definition AppendRune (r : Z) : string := of_bytes (encode r).

(** One step of [ValidString]: is the rune at the head of [s] an
    encoding error? *)
Definition bad (d : Z * nat) : bool :=
  (fst d =? RuneError) && (snd d =? 1)%nat.

Fixpoint valid (fuel : nat) (s : string) : bool :=
  match fuel with
  | O => true
  | S fuel' =>
      match s with
      | EmptyString => true
      | String _ _ =>
          let d := DecodeRuneInString s in
          if bad d then false else valid fuel' (skip (snd d) s)
      end
  end.

Definition ValidString (s : string) : bool := valid (String.length s) s.

End utf8.

(* ================================================================== *)
(** ** unicode/utf16, as [encoding/json] uses it for [\uXXXX] pairs *)

Module utf16.

Definition replacementChar : Z := 0xFFFD.
Definition surr1 : Z := 0xD800.
Definition surr2 : Z := 0xDC00.
Definition surr3 : Z := 0xE000.
Definition surrSelf : Z := 0x10000.

Definition IsSurrogate (r : Z) : bool := (surr1 <=? r) && (r <? surr3).

Definition DecodeRune (r1 r2 : Z) : Z :=
  if (surr1 <=? r1) && (r1 <? surr2) && (surr2 <=? r2) && (r2 <? surr3)
  then Z.lor (Z.shiftl (r1 - surr1) 10) (r2 - surr2) + surrSelf
  else replacementChar.

End utf16.

(* ================================================================== *)
(** ** Results and errors *)

Inductive error : Type :=
| SyntaxError            (* encoding/json: the text is not JSON *)
| UnmarshalTypeError     (* encoding/json: a value of the wrong kind *)
| ContextCanceled        (* the registry's context is done *)
| StoreError (msg : string)  (* a failure of the etcd client; the request
                                took no effect *)
| Unconfirmed (msg : string). (* the client gave up on a request (deadline,
                                connection lost, cancelled in flight) that
                                the store had applied *)

Inductive result (A : Type) : Type :=
| Ok (a : A)
| Err (e : error).
Arguments Ok {A} a.
Arguments Err {A} e.

(* ================================================================== *)
(** ** ServiceInfo *)

Record ServiceInfo : Type := mkServiceInfo {
  Name : string;
  Address : string;
  Version : string
}.

Definition zeroServiceInfo : ServiceInfo :=
  mkServiceInfo EmptyString EmptyString EmptyString.

(* ================================================================== *)
(** ** encoding/json restricted to what [ServiceInfo] needs *)

Module json.

Local Open Scope string_scope.
Local Open Scope Z_scope.

Definition hex : string := "0123456789abcdef".

Definition hexdigit (n : Z) : ascii :=
  match String.get (Z.to_nat n) hex with
  | Some c => c
  | None => "0"%char
  end.

(** [htmlSafeSet]: the ASCII bytes written as they are. *)
Definition htmlSafeSet (b : ascii) : bool :=
  (0x20 <=? byteZ b) && (byteZ b <? 0x80)
  && negb (Ascii.eqb b dquote) && negb (Ascii.eqb b bslash)
  && negb (Ascii.eqb b "&") && negb (Ascii.eqb b "<")
  && negb (Ascii.eqb b ">").

(** The escape of an ASCII byte outside [htmlSafeSet]. *)
Definition escape_byte (b : ascii) : string :=
  if Ascii.eqb b bslash || Ascii.eqb b dquote
  then String bslash (String b EmptyString)
  else if Ascii.eqb b "008" then String bslash "b"
  else if Ascii.eqb b "012" then String bslash "f"
  else if Ascii.eqb b "010" then String bslash "n"
  else if Ascii.eqb b "013" then String bslash "r"
  else if Ascii.eqb b "009" then String bslash "t"
  else String bslash
         (String "u" (String "0" (String "0"
            (String (hexdigit (Z.shiftr (byteZ b) 4))
               (String (hexdigit (Z.land (byteZ b) 0xF)) EmptyString))))).

(** The loop of [appendString] with [escapeHTML] set, as [Marshal] sets
    it. The Go loop copies runs of unescaped bytes lazily; here each
    byte or rune is copied when it is met. [fuel] bounds the number of
    iterations; every iteration consumes at least one byte. *)
Fixpoint escape (fuel : nat) (src : string) : string :=
  match fuel with
  | O => EmptyString
  | S fuel' =>
      match src with
      | EmptyString => EmptyString
      | String b rest =>
          if byteZ b <? utf8.RuneSelf then
            if htmlSafeSet b then String b (escape fuel' rest)
            else escape_byte b ++ escape fuel' rest
          else
            let d := utf8.DecodeRuneInString (take utf8.UTFMax src) in
            if utf8.bad d then
              String bslash "ufffd" ++ escape fuel' (skip (snd d) src)
            else if (fst d =? 0x2028) || (fst d =? 0x2029) then
              String bslash "u202"
              ++ String (hexdigit (Z.land (fst d) 0xF)) EmptyString
              ++ escape fuel' (skip (snd d) src)
            else
              take (snd d) src ++ escape fuel' (skip (snd d) src)
      end
  end.

Definition appendString (src : string) : string :=
  String dquote
         (escape (String.length src) src ++ String dquote EmptyString).

(** [Marshal] of a [*ServiceInfo]: the fields in declaration order under
    their [json] tags. It cannot fail on this type. *)
Definition Marshal (v : ServiceInfo) : result string :=
  Ok (String "{"
        (String dquote "name" ++ String dquote ":" ++ appendString (Name v)
         ++ String "," (String dquote "address") ++ String dquote ":"
         ++ appendString (Address v)
         ++ String "," (String dquote "version") ++ String dquote ":"
         ++ appendString (Version v) ++ "}")).

(** *** Decoding *)

Definition hexval (c : ascii) : option Z :=
  let z := byteZ c in
  if (0x30 <=? z) && (z <=? 0x39) then Some (z - 0x30)
  else if (0x61 <=? z) && (z <=? 0x66) then Some (z - 0x61 + 10)
  else if (0x41 <=? z) && (z <=? 0x46) then Some (z - 0x41 + 10)
  else None.

(** [getu4]: the rune of a leading [\uXXXX], or [-1]. *)
Definition getu4 (s : string) : Z :=
  match s with
  | String b (String u (String c1 (String c2 (String c3 (String c4 _))))) =>
      if Ascii.eqb b bslash && Ascii.eqb u "u" then
        match hexval c1, hexval c2, hexval c3, hexval c4 with
        | Some h1, Some h2, Some h3, Some h4 =>
            ((h1 * 16 + h2) * 16 + h3) * 16 + h4
        | _, _, _, _ => -1
        end
      else -1
  | _ => -1
  end.

Definition cons_out (p : string) (r : option (string * string))
  : option (string * string) :=
  match r with
  | Some (out, rest) => Some (p ++ out, rest)
  | None => None
  end.

(** A string literal after its opening quote: the scanner's string
    states and [unquoteBytes] in one pass. Returns the unquoted string
    and the input after the closing quote. *)
Fixpoint unquote (fuel : nat) (s : string) : option (string * string) :=
  match fuel with
  | O => None
  | S fuel' =>
      match s with
      | EmptyString => None
      | String c r =>
          if Ascii.eqb c dquote then Some (EmptyString, r)
          else if Ascii.eqb c bslash then
            match r with
            | EmptyString => None
            | String e r' =>
                if Ascii.eqb e dquote || Ascii.eqb e bslash || Ascii.eqb e "/"
                then cons_out (String e EmptyString) (unquote fuel' r')
                else if Ascii.eqb e "b" then
                  cons_out (String "008" EmptyString) (unquote fuel' r')
                else if Ascii.eqb e "f" then
                  cons_out (String "012" EmptyString) (unquote fuel' r')
                else if Ascii.eqb e "n" then
                  cons_out (String "010" EmptyString) (unquote fuel' r')
                else if Ascii.eqb e "r" then
                  cons_out (String "013" EmptyString) (unquote fuel' r')
                else if Ascii.eqb e "t" then
                  cons_out (String "009" EmptyString) (unquote fuel' r')
                else if Ascii.eqb e "u" then
                  let rr := getu4 s in
                  if rr <? 0 then None
                  else
                    let s6 := skip 6 s in
                    if utf16.IsSurrogate rr then
                      let dec := utf16.DecodeRune rr (getu4 s6) in
                      if negb (dec =? utf16.replacementChar) then
                        cons_out (utf8.AppendRune dec)
                                 (unquote fuel' (skip 6 s6))
                      else
                        cons_out (utf8.AppendRune utf16.replacementChar)
                                 (unquote fuel' s6)
                    else cons_out (utf8.AppendRune rr) (unquote fuel' s6)
                else None
            end
          else if byteZ c <? 0x20 then None
          else if byteZ c <? utf8.RuneSelf then
            cons_out (String c EmptyString) (unquote fuel' r)
          else
            let d := utf8.DecodeRuneInString s in
            cons_out (utf8.AppendRune (fst d)) (unquote fuel' (skip (snd d) s))
      end
  end.

(** *** The JSON grammar (scanner.go) *)

#[local] Set Warnings "-register-all".

Inductive Value : Type :=
| Null
| Bool (b : bool)
| Number
| Str (s : string)
| Array (vs : list Value)
| Object (ms : list (string * Value)).

Definition maxNestingDepth : Z := 10000.

Definition isSpace (c : ascii) : bool :=
  (byteZ c <=? 0x20)
  && (Ascii.eqb c " " || Ascii.eqb c "009" || Ascii.eqb c "013"
      || Ascii.eqb c "010").

Fixpoint skipws (s : string) : string :=
  match s with
  | String c r => if isSpace c then skipws r else s
  | EmptyString => s
  end.

Definition isDigit (c : ascii) : bool :=
  (0x30 <=? byteZ c) && (byteZ c <=? 0x39).

Fixpoint digits (s : string) : string :=
  match s with
  | String c r => if isDigit c then digits r else s
  | EmptyString => s
  end.

(** At least one digit, then as many as follow. *)
Definition digits1 (s : string) : option string :=
  match s with
  | String c r => if isDigit c then Some (digits r) else None
  | EmptyString => None
  end.

Definition exponent (s : string) : option string :=
  match s with
  | String c r =>
      if Ascii.eqb c "e" || Ascii.eqb c "E" then
        match r with
        | String sg r' =>
            if Ascii.eqb sg "+" || Ascii.eqb sg "-" then digits1 r'
            else digits1 r
        | EmptyString => None
        end
      else Some s
  | EmptyString => Some s
  end.

Definition fraction (s : string) : option string :=
  match s with
  | String c r =>
      if Ascii.eqb c "." then
        match digits1 r with
        | Some r' => exponent r'
        | None => None
        end
      else exponent s
  | EmptyString => Some s
  end.

Definition integer (s : string) : option string :=
  match s with
  | String c r =>
      if Ascii.eqb c "0" then fraction r
      else if isDigit c then fraction (digits r)
      else None
  | EmptyString => None
  end.

(** A number literal; returns the input after it. *)
Definition number (s : string) : option string :=
  match s with
  | String c r => if Ascii.eqb c "-" then integer r else integer s
  | EmptyString => None
  end.

(** [literal w s]: the input after the word [w], when [s] starts with it. *)
Fixpoint literal (w s : string) : option string :=
  match w with
  | EmptyString => Some s
  | String a w' =>
      match s with
      | String c r => if Ascii.eqb a c then literal w' r else None
      | EmptyString => None
      end
  end.

(** One value at the head of [s] (no leading space); [depth] is the
    number of arrays and objects that are open. Every nested call is
    made on a shorter input, so a fuel above the length of the input
    never runs out. *)
Fixpoint value (fuel : nat) (depth : Z) (s : string)
  : option (Value * string) :=
  match fuel with
  | O => None
  | S fuel' =>
      match s with
      | EmptyString => None
      | String c r =>
          if Ascii.eqb c "{" then
            if maxNestingDepth <? depth + 1 then None
            else
              match skipws r with
              | String c' r' =>
                  if Ascii.eqb c' "}" then Some (Object [], r')
                  else
                    match members fuel' (depth + 1) (skipws r) with
                    | Some (ms, r'') => Some (Object ms, r'')
                    | None => None
                    end
              | EmptyString => None
              end
          else if Ascii.eqb c "[" then
            if maxNestingDepth <? depth + 1 then None
            else
              match skipws r with
              | String c' r' =>
                  if Ascii.eqb c' "]" then Some (Array [], r')
                  else
                    match elements fuel' (depth + 1) (skipws r) with
                    | Some (vs, r'') => Some (Array vs, r'')
                    | None => None
                    end
              | EmptyString => None
              end
          else if Ascii.eqb c dquote then
            match unquote (S (String.length r)) r with
            | Some (str, r') => Some (Str str, r')
            | None => None
            end
          else if Ascii.eqb c "t" then
            option_map (pair (Bool true)) (literal "rue" r)
          else if Ascii.eqb c "f" then
            option_map (pair (Bool false)) (literal "alse" r)
          else if Ascii.eqb c "n" then
            option_map (pair Null) (literal "ull" r)
          else option_map (pair Number) (number s)
      end
  end

(** The members of an object from the opening quote of a key up to and
    including the closing brace. *)
with members (fuel : nat) (depth : Z) (s : string)
  : option (list (string * Value) * string) :=
  match fuel with
  | O => None
  | S fuel' =>
      match s with
      | EmptyString => None
      | String c r =>
          if Ascii.eqb c dquote then
            match unquote (S (String.length r)) r with
            | None => None
            | Some (key, r1) =>
                match skipws r1 with
                | EmptyString => None
                | String colon r2 =>
                    if Ascii.eqb colon ":" then
                      match value fuel' depth (skipws r2) with
                      | None => None
                      | Some (v, r3) =>
                          match skipws r3 with
                          | EmptyString => None
                          | String sep r4 =>
                              if Ascii.eqb sep "}" then
                                Some ([(key, v)], r4)
                              else if Ascii.eqb sep "," then
                                match members fuel' depth (skipws r4) with
                                | Some (ms, r5) => Some ((key, v) :: ms, r5)
                                | None => None
                                end
                              else None
                          end
                      end
                    else None
                end
            end
          else None
      end
  end

(** The elements of an array up to and including the closing bracket. *)
with elements (fuel : nat) (depth : Z) (s : string)
  : option (list Value * string) :=
  match fuel with
  | O => None
  | S fuel' =>
      match value fuel' depth s with
      | None => None
      | Some (v, r1) =>
          match skipws r1 with
          | EmptyString => None
          | String sep r2 =>
              if Ascii.eqb sep "]" then Some ([v], r2)
              else if Ascii.eqb sep "," then
                match elements fuel' depth (skipws r2) with
                | Some (vs, r3) => Some (v :: vs, r3)
                | None => None
                end
              else None
          end
      end
  end.

(** [checkValid] and the scan of the whole text: one value between
    optional white space. *)
Definition parse (data : string) : option Value :=
  match value (S (String.length data)) 0 (skipws data) with
  | Some (v, r) =>
      match skipws r with
      | EmptyString => Some v
      | String _ _ => None
      end
  | None => None
  end.

(** *** Storing an object into a [ServiceInfo] (decode.go) *)

(** [foldRune] on the runes that matter for a struct whose field names
    are ASCII: the only runes outside ASCII whose fold orbit contains an
    ASCII letter are U+017F (with S) and U+212A (with K); every other
    rune outside ASCII folds to a rune outside ASCII and is kept. *)
Definition foldRune (r : Z) : Z :=
  if r =? 0x17F then 0x53
  else if r =? 0x212A then 0x4B
  else r.

Definition upper (c : ascii) : ascii :=
  if (0x61 <=? byteZ c) && (byteZ c <=? 0x7A) then byte (byteZ c - 0x20)
  else c.

Fixpoint foldName (fuel : nat) (s : string) : string :=
  match fuel with
  | O => EmptyString
  | S fuel' =>
      match s with
      | EmptyString => EmptyString
      | String c r =>
          if byteZ c <? utf8.RuneSelf then String (upper c) (foldName fuel' r)
          else
            let d := utf8.DecodeRuneInString s in
            utf8.AppendRune (foldRune (fst d))
            ++ foldName fuel' (skip (snd d) s)
      end
  end.

Definition sameField (key tag : string) : bool :=
  String.eqb key tag
  || String.eqb (foldName (String.length key) key)
                (foldName (String.length tag) tag).

(** One member stored into the struct. A string sets the field, [null]
    leaves it, any other kind is an [UnmarshalTypeError] (the decoder
    goes on and reports the first one at the end). Keys that match no
    field are skipped. *)
Definition set_field (key : string) (v : Value) (acc : ServiceInfo * bool)
  : ServiceInfo * bool :=
  let '(info, ok) := acc in
  let put (upd : string -> ServiceInfo) : ServiceInfo * bool :=
    match v with
    | Str s => (upd s, ok)
    | Null => (info, ok)
    | _ => (info, false)
    end in
  if sameField key "name" then
    put (fun s => mkServiceInfo s (Address info) (Version info))
  else if sameField key "address" then
    put (fun s => mkServiceInfo (Name info) s (Version info))
  else if sameField key "version" then
    put (fun s => mkServiceInfo (Name info) (Address info) s)
  else acc.

(** [Unmarshal(data, &service)] into a fresh [ServiceInfo]. *)
Definition Unmarshal (data : string) : result ServiceInfo :=
  match parse data with
  | None => Err SyntaxError
  | Some Null => Ok zeroServiceInfo
  | Some (Object ms) =>
      let '(info, ok) :=
        fold_left (fun acc m => set_field (fst m) (snd m) acc) ms
                  (zeroServiceInfo, true) in
      if ok then Ok info else Err UnmarshalTypeError
  | Some _ => Err UnmarshalTypeError
  end.

End json.

(* ================================================================== *)
(** ** The etcd store, as the registry's client calls see it *)

Local Open Scope string_scope.
Local Open Scope list_scope.
Local Open Scope Z_scope.

Definition LeaseID : Type := Z.

Record KeyValue : Type := mkKeyValue {
  Key : string;
  Value : string;
  Lease : LeaseID
}.

Inductive EventType : Type := PUT | DELETE.

Record Event : Type := mkEvent {
  Type_ : EventType;
  Kv : KeyValue
}.

(** One operation of a store transaction. *)
Inductive Op : Type :=
| OpPut (key value : string) (lease : LeaseID)
| OpDelete (key : string).

(** The callback handed to [Watch]: a function of the application, known
    by an identifier, or the closure [Build] creates over the connection
    [cc]. *)
Inductive Callback : Type :=
| UserCallback (id : nat)
| BuildCallback (cc : nat).

(** The program counter of a [keepAlive] goroutine: before the call of
    [lease.KeepAlive], in the [select] loop with the responses queued on
    [keepAliveChan] ([None] is the nil response of a closed channel), and
    returned. *)
Inductive KeepAlivePc : Type :=
| KaStart
| KaLoop (keepAliveChan : list (option Z))
| KaDone.

(** The program counter of the goroutine of [Watch]: before the call of
    [client.Watch], in the loop with the batches queued on [watchChan] and
    the events of the current batch still to be ranged over (none: the
    goroutine is at the [select]), and returned. *)
Inductive WatchPc : Type :=
| WStart
| WLoop (watchChan : list (list Event)) (events : list Event)
| WDone.

Inductive Goroutine : Type :=
| keepAlive (leaseID : LeaseID) (key value : string) (pc : KeepAlivePc)
| watcher (serviceName : string) (callback : Callback) (pc : WatchPc).

(** Who runs a callback: the caller of [Watch], or a goroutine. *)
Inductive Origin : Type :=
| Sync
| Async (goroutine : nat).

(** What the process does that can be observed from outside it. *)
Inductive Output : Type :=
| Printed (line : string)
| Called (by_ : Origin) (id : nat) (services : list ServiceInfo)
| UpdateState (by_ : Origin) (cc : nat) (addrs : list string).

(** The store, one [EtcdRegistry] and what it has started. [faults] gives
    the outcome of the coming client calls, in order: [None] (and the
    empty list) is a call that succeeds. [leases] holds, for every lease
    of the store, its id and the TTL its [Grant] call asked for; the store
    may give a lease a longer TTL than asked (its minimum), and it refuses
    a TTL above its maximum: such a refusal is one of the failures
    [faults] stands for. *)
Record World : Type := mkWorld {
  kvs : list KeyValue;
  leases : list (LeaseID * Z);
  nextLease : LeaseID;
  faults : list (option error);
  ttl : Z;
  done : bool;
  goroutines : list Goroutine;
  output : list Output
}.

Definition set_kvs (x : list KeyValue) (w : World) : World :=
  mkWorld x (leases w) (nextLease w) (faults w) (ttl w) (done w)
          (goroutines w) (output w).

Definition set_leases (x : list (LeaseID * Z)) (n : LeaseID) (w : World)
  : World :=
  mkWorld (kvs w) x n (faults w) (ttl w) (done w) (goroutines w) (output w).

Definition set_faults (x : list (option error)) (w : World) : World :=
  mkWorld (kvs w) (leases w) (nextLease w) x (ttl w) (done w)
          (goroutines w) (output w).

Definition set_done (x : bool) (w : World) : World :=
  mkWorld (kvs w) (leases w) (nextLease w) (faults w) (ttl w) x
          (goroutines w) (output w).

Definition set_goroutines (x : list Goroutine) (w : World) : World :=
  mkWorld (kvs w) (leases w) (nextLease w) (faults w) (ttl w) (done w)
          x (output w).

Definition emit (o : Output) (w : World) : World :=
  mkWorld (kvs w) (leases w) (nextLease w) (faults w) (ttl w) (done w)
          (goroutines w) (output w ++ [o]).

(** [go f(...)]: the new goroutine gets the next index. *)
Definition go (g : Goroutine) (w : World) : World :=
  set_goroutines (goroutines w ++ [g]) w.

Fixpoint replace_nth {A : Type} (i : nat) (x : A) (l : list A) : list A :=
  match l, i with
  | [], _ => []
  | _ :: r, O => x :: r
  | y :: r, S k => y :: replace_nth k x r
  end.

Definition set_goroutine (i : nat) (g : Goroutine) (w : World) : World :=
  set_goroutines (replace_nth i g (goroutines w)) w.

(** *** Contents and transactions *)

Fixpoint insert_kv (kv : KeyValue) (l : list KeyValue) : list KeyValue :=
  match l with
  | [] => [kv]
  | x :: r =>
      if String.ltb (Key kv) (Key x) then kv :: l else x :: insert_kv kv r
  end.

Definition delete_kv (key : string) (l : list KeyValue) : list KeyValue :=
  filter (fun x => negb (String.eqb (Key x) key)) l.

Definition has_key (key : string) (l : list KeyValue) : bool :=
  existsb (fun x => String.eqb (Key x) key) l.

(** One operation on the contents, with the events of the transaction so
    far. Deleting a key that is absent changes nothing and is no event. *)
Definition apply_op (st : list KeyValue * list Event) (op : Op)
  : list KeyValue * list Event :=
  let '(l, evs) := st in
  match op with
  | OpPut key value lease =>
      let kv := mkKeyValue key value lease in
      (insert_kv kv (delete_kv key l), evs ++ [mkEvent PUT kv])
  | OpDelete key =>
      if has_key key l
      then (delete_kv key l,
            evs ++ [mkEvent DELETE (mkKeyValue key EmptyString 0)])
      else (l, evs)
  end.

Definition services_prefix (serviceName : string) : string :=
  "/services/" ++ serviceName ++ "/".

Definition service_key (serviceName address : string) : string :=
  "/services/" ++ serviceName ++ "/" ++ address.

Definition under (prefix : string) (ev : Event) : bool :=
  String.prefix prefix (Key (Kv ev)).

(** The store sends the events of one revision to every open watch as one
    batch, restricted to the keys under the prefix of that watch. *)
Definition notify (evs : list Event) (g : Goroutine) : Goroutine :=
  match g with
  | watcher serviceName callback (WLoop watchChan events) =>
      match filter (under (services_prefix serviceName)) evs with
      | [] => g
      | batch => watcher serviceName callback
                         (WLoop (watchChan ++ [batch]) events)
      end
  | _ => g
  end.

(** A transaction committed by the store at one revision. *)
Definition commit (ops : list Op) (w : World) : World :=
  let '(l, evs) := fold_left apply_op ops (kvs w, []) in
  set_goroutines (map (notify evs) (goroutines w)) (set_kvs l w).

(* ================================================================== *)
(** ** Calls that change the world and may fail *)

Definition M (A : Type) : Type := World -> result A * World.

Definition ret {A : Type} (a : A) : M A := fun w => (Ok a, w).

Definition bind {A B : Type} (m : M A) (k : A -> M B) : M B :=
  fun w =>
    match m w with
    | (Ok a, w1) => k a w1
    | (Err e, w1) => (Err e, w1)
    end.

Notation "x <- m ;; k" := (bind m (fun x => k))
  (at level 61, m at next level, right associativity).

Definition lift {A : Type} (r : result A) : M A := fun w => (r, w).

Definition gets {A : Type} (f : World -> A) : M A := fun w => (Ok (f w), w).

Definition modify (f : World -> World) : M unit := fun w => (Ok tt, f w).

(** The outcome of a call of the etcd client under [r.ctx]: it fails at
    once when the context is done, and otherwise as [faults] says. *)
Definition call : M unit :=
  fun w =>
    if done w then (Err ContextCanceled, w)
    else
      match faults w with
      | Some e :: rest => (Err e, set_faults rest w)
      | None :: rest => (Ok tt, set_faults rest w)
      | [] => (Ok tt, w)
      end.

(** A request that changes the store. When the call succeeds the store has
    applied it. When the call fails the store has applied nothing, except
    for [Unconfirmed]: the store applied the request and the client
    returned an error all the same. *)
Definition request {A : Type} (effect : M A) : M A :=
  fun w =>
    match call w with
    | (Ok _, w1) => effect w1
    | (Err (Unconfirmed msg), w1) => (Err (Unconfirmed msg), snd (effect w1))
    | (Err e, w1) => (Err e, w1)
    end.

(** [lease.Grant(ctx, ttl)]: a new lease, recorded with the TTL asked
    for. *)
Definition lease_Grant (ttl_ : Z) : M LeaseID :=
  request (id <- gets nextLease ;;
           _ <- modify (fun w =>
                          set_leases (leases w ++ [(id, ttl_)]) (id + 1) w) ;;
           ret id).

Definition kv_Put (key value : string) (lease : LeaseID) : M unit :=
  request (modify (commit [OpPut key value lease])).

Definition kv_Delete (key : string) : M unit :=
  request (modify (commit [OpDelete key])).

(** [kv.Get(ctx, prefix, WithPrefix())]: the entries whose key starts with
    [prefix], in key order. *)
Definition kv_Get_WithPrefix (prefix : string) : M (list KeyValue) :=
  _ <- call ;;
  gets (fun w => filter (fun kv => String.prefix prefix (Key kv)) (kvs w)).

(** [lease.KeepAlive(ctx, id)] sends nothing itself: it returns the channel
    at once, also under a context that is done, and an error only when
    the renewal loop of the lease client has halted, which [faults]
    says. *)
Definition lease_KeepAlive (id : LeaseID) : M unit :=
  fun w =>
    match faults w with
    | Some e :: rest => (Err e, set_faults rest w)
    | None :: rest => (Ok tt, set_faults rest w)
    | [] => (Ok tt, w)
    end.

(** [client.Close()] takes no context. On a client that is closed already
    it returns the error of the cancelled context of the client. *)
Definition client_Close (closed : bool) : M unit :=
  fun w =>
    if closed then (Err ContextCanceled, w)
    else
      match faults w with
      | Some e :: rest => (Err e, set_faults rest w)
      | None :: rest => (Ok tt, set_faults rest w)
      | [] => (Ok tt, w)
      end.

(* ================================================================== *)
(** ** EtcdRegistry *)

Definition nl : string := String "010" EmptyString.

Definition Error (e : error) : string :=
  match e with
  | SyntaxError => "invalid character"
  | UnmarshalTypeError => "json: cannot unmarshal"
  | ContextCanceled => "context canceled"
  | StoreError msg => msg
  | Unconfirmed msg => msg
  end.

Definition EventType_String (t : EventType) : string :=
  match t with
  | PUT => "PUT"
  | DELETE => "DELETE"
  end.

(** What running a callback shows. The closure of [Build] maps the
    services to their addresses and hands them to [cc.UpdateState]. *)
Definition callback_output (by_ : Origin) (callback : Callback)
           (services : list ServiceInfo) : Output :=
  match callback with
  | UserCallback id => Called by_ id services
  | BuildCallback cc => UpdateState by_ cc (map Address services)
  end.

Definition invoke (by_ : Origin) (callback : Callback)
           (services : list ServiceInfo) : M unit :=
  modify (emit (callback_output by_ callback services)).

Definition Register (serviceName address version : string) : M unit :=
  let serviceInfo := mkServiceInfo serviceName address version in
  value <- lift (json.Marshal serviceInfo) ;;
  ttl_ <- gets ttl ;;
  grantResp <- lease_Grant ttl_ ;;
  let key := service_key serviceName address in
  _ <- kv_Put key value grantResp ;;
  modify (go (keepAlive grantResp key value KaStart)).

Definition Unregister (serviceName address : string) : M unit :=
  kv_Delete (service_key serviceName address).

(** The loop of [Discover] over [resp.Kvs]. *)
Fixpoint decode_all (l : list KeyValue) (services : list ServiceInfo)
  : list ServiceInfo :=
  match l with
  | [] => services
  | kv :: rest =>
      match json.Unmarshal (Value kv) with
      | Err _ => decode_all rest services
      | Ok service => decode_all rest (services ++ [service])
      end
  end.

Definition Discover (serviceName : string) : M (list ServiceInfo) :=
  let prefix := services_prefix serviceName in
  resp <- kv_Get_WithPrefix prefix ;;
  ret (decode_all resp []).

(** [Watch] in its two parts: the [go] statement, and the first snapshot
    taken by the caller. Other goroutines may run in between. *)
Definition Watch_go (serviceName : string) (callback : Callback) : M unit :=
  modify (go (watcher serviceName callback WStart)).

Definition Watch_initial (serviceName : string) (callback : Callback)
  : M unit :=
  services <- Discover serviceName ;;
  invoke Sync callback services.

Definition Watch (serviceName : string) (callback : Callback) : M unit :=
  _ <- Watch_go serviceName callback ;;
  Watch_initial serviceName callback.

(** Only [Close] cancels the context and only [Close] closes the client,
    one after the other: the client is closed already exactly when the
    context is done already. *)
Definition Close : M unit :=
  closed <- gets done ;;
  _ <- modify (set_done true) ;;
  client_Close closed.

Record etcdResolver : Type := mk_etcdResolver { cc : nat }.

(** [Build] returns the resolver together with the error of [Watch]. *)
Definition Build (endpoint : string) (cc_ : nat) (w : World)
  : etcdResolver * result unit * World :=
  let serviceName := endpoint in
  let rsv := mk_etcdResolver cc_ in
  let '(err, w') := Watch serviceName (BuildCallback cc_) w in
  (rsv, err, w').

Definition Scheme : string := "etcd".

Definition etcdResolver_ResolveNow (r : etcdResolver) (w : World) : World := w.

Definition etcdResolver_Close (r : etcdResolver) (w : World) : World := w.

(* ================================================================== *)
(** ** The goroutines *)

(** Which case of a [select] is taken; the case must be ready. *)
Inductive Choice : Type :=
| CtxDone
| Recv.

(** The line the watcher prints for an event. *)
Definition changed_line (event : Event) : string :=
  "Service changed: " ++ EventType_String (Type_ event) ++ " "
  ++ Key (Kv event) ++ nl.

(** The body of the loop of the watcher for one event of a batch, run
    without anything else in between. [query_event] and [deliver] below
    are its two halves for the schedules in which something is. *)
Definition on_event (i : nat) (serviceName : string) (callback : Callback)
           (event : Event) (w : World) : World :=
  let w1 := emit (Printed (changed_line event)) w in
  match Discover serviceName w1 with
  | (Ok services, w2) => snd (invoke (Async i) callback services w2)
  | (Err _, w2) => w2
  end.

(** Goroutine [i] runs up to its next blocking point, [None] when it
    cannot: it has returned, or the chosen case is not ready. *)
Definition step (i : nat) (c : Choice) (w : World) : option World :=
  match nth_error (goroutines w) i with
  | None => None
  | Some (keepAlive leaseID key value pc) =>
      match pc with
      | KaStart =>
          match lease_KeepAlive leaseID w with
          | (Err e, w1) =>
              Some (set_goroutine i (keepAlive leaseID key value KaDone)
                      (emit (Printed ("keep alive error: " ++ Error e ++ nl))
                            w1))
          | (Ok _, w1) =>
              Some (set_goroutine i (keepAlive leaseID key value (KaLoop []))
                                  w1)
          end
      | KaLoop keepAliveChan =>
          match c with
          | CtxDone =>
              if done w
              then Some (set_goroutine i (keepAlive leaseID key value KaDone) w)
              else None
          | Recv =>
              match keepAliveChan with
              | [] => None
              | Some _ :: rest =>
                  Some (set_goroutine i
                          (keepAlive leaseID key value (KaLoop rest)) w)
              | None :: _ =>
                  Some (set_goroutine i (keepAlive leaseID key value KaDone)
                          (emit (Printed
                                   ("lease expired, try to re-register service "
                                    ++ key ++ nl)) w))
              end
          end
      | KaDone => None
      end
  | Some (watcher serviceName callback pc) =>
      match pc with
      | WStart =>
          Some (set_goroutine i (watcher serviceName callback (WLoop [] [])) w)
      | WLoop watchChan [] =>
          match c with
          | CtxDone =>
              if done w
              then Some (set_goroutine i (watcher serviceName callback WDone) w)
              else None
          | Recv =>
              match watchChan with
              | batch :: rest =>
                  Some (set_goroutine i
                          (watcher serviceName callback (WLoop rest batch)) w)
              | [] => if done w then Some w else None
              end
          end
      | WLoop watchChan (event :: events) =>
          Some (set_goroutine i
                  (watcher serviceName callback (WLoop watchChan events))
                  (on_event i serviceName callback event w))
      | WDone => None
      end
  end.

(** The lease client puts a response on the channel of goroutine [i]. *)
Definition respond (i : nat) (resp : option Z) (w : World) : option World :=
  match nth_error (goroutines w) i with
  | Some (keepAlive leaseID key value (KaLoop keepAliveChan)) =>
      Some (set_goroutine i
              (keepAlive leaseID key value (KaLoop (keepAliveChan ++ [resp])))
              w)
  | _ => None
  end.

(** What the application may call on the registry and its resolvers. *)
Inductive Api : Type :=
| ApiRegister (serviceName address version : string)
| ApiUnregister (serviceName address : string)
| ApiDiscover (serviceName : string)
| ApiWatchGo (serviceName : string) (callback : Callback)
| ApiWatchInitial (serviceName : string) (callback : Callback)
| ApiClose
| ApiResolveNow (r : etcdResolver)
| ApiResolverClose (r : etcdResolver).

Definition api (a : Api) (w : World) : World :=
  match a with
  | ApiRegister n a v => snd (Register n a v w)
  | ApiUnregister n a => snd (Unregister n a w)
  | ApiDiscover n => snd (Discover n w)
  | ApiWatchGo n cb => snd (Watch_go n cb w)
  | ApiWatchInitial n cb => snd (Watch_initial n cb w)
  | ApiClose => snd (Close w)
  | ApiResolveNow r => etcdResolver_ResolveNow r w
  | ApiResolverClose r => etcdResolver_Close r w
  end.

(** Everything that can happen to a world. *)
Inductive Action : Type :=
| Commit (ops : list Op)                 (* any client of the store *)
| Respond (i : nat) (resp : option Z)    (* the lease client *)
| Step (i : nat) (c : Choice)            (* goroutine [i] *)
| App (a : Api).                         (* the application *)

Definition exec (a : Action) (w : World) : option World :=
  match a with
  | Commit ops => Some (commit ops w)
  | Respond i resp => respond i resp w
  | Step i c => step i c w
  | App a => Some (api a w)
  end.

Fixpoint run (s : list Action) (w : World) : option World :=
  match s with
  | [] => Some w
  | a :: rest =>
      match exec a w with
      | Some w1 => run rest w1
      | None => None
      end
  end.

(** A world with an empty store and nothing started. *)
Definition empty_world : World :=
  mkWorld [] [] 1 [] 10 false [] [].

(* ================================================================== *)
(** ** A query and its callback as two steps *)

(** [Discover] and the callback are two statements, in the goroutine of
    [Watch] (lines 154 and 156) and in [Watch] itself (lines 164 and 168),
    and nothing orders them with what other goroutines do: [Close] may
    cancel the context after a [Discover] has returned its services and
    before the callback is run with them. A callback in that position is
    pending. *)
Record Pending : Type := mkPending {
  runner : Origin;
  pending_callback : Callback;
  snapshot : list ServiceInfo
}.

Definition pending_output (p : Pending) : Output :=
  callback_output (runner p) (pending_callback p) (snapshot p).

(** Lines 152 to 154: the line printed for the event, and the query. *)
Definition query_event (serviceName : string) (event : Event)
  : M (list ServiceInfo) :=
  _ <- modify (emit (Printed (changed_line event))) ;;
  Discover serviceName.

(** Line 156, and line 168. *)
Definition deliver (p : Pending) : M unit :=
  invoke (runner p) (pending_callback p) (snapshot p).

(** A world together with the callbacks that are pending in it. *)
Record Fine : Type := mkFine {
  world : World;
  pending : list Pending
}.

(** Goroutine [i] is between its query and its callback. *)
Definition busy (i : nat) (l : list Pending) : bool :=
  existsb (fun p => match runner p with
                    | Async j => Nat.eqb i j
                    | Sync => false
                    end) l.

Fixpoint remove_nth {A : Type} (k : nat) (l : list A) : list A :=
  match l, k with
  | [], _ => []
  | _ :: r, O => r
  | x :: r, S k' => x :: remove_nth k' r
  end.

(** What can happen to a world, with the query and the callback apart:
    an action as before, run in one piece; goroutine [i] prints the line
    of its next event and queries; a caller of [Watch] queries; the
    [k]-th pending callback is run. *)
Inductive FineAction : Type :=
| Whole (a : Action)
| Query (i : nat)
| WatchQuery (serviceName : string) (callback : Callback)
| Deliver (k : nat).

Definition fine_exec (a : FineAction) (f : Fine) : option Fine :=
  match a with
  | Whole (Step i c) =>
      if busy i (pending f) then None
      else match step i c (world f) with
           | Some w => Some (mkFine w (pending f))
           | None => None
           end
  | Whole a =>
      match exec a (world f) with
      | Some w => Some (mkFine w (pending f))
      | None => None
      end
  | Query i =>
      if busy i (pending f) then None
      else
        match nth_error (goroutines (world f)) i with
        | Some (watcher serviceName callback
                        (WLoop watchChan (event :: events))) =>
            let next := watcher serviceName callback (WLoop watchChan events)
            in
            match query_event serviceName event (world f) with
            | (Ok services, w1) =>
                Some (mkFine (set_goroutine i next w1)
                             (pending f
                              ++ [mkPending (Async i) callback services]))
            | (Err _, w1) =>
                Some (mkFine (set_goroutine i next w1) (pending f))
            end
        | _ => None
        end
  | WatchQuery serviceName callback =>
      match Discover serviceName (world f) with
      | (Ok services, w1) =>
          Some (mkFine w1 (pending f
                           ++ [mkPending Sync callback services]))
      | (Err _, w1) => Some (mkFine w1 (pending f))
      end
  | Deliver k =>
      match nth_error (pending f) k with
      | Some p =>
          Some (mkFine (snd (deliver p (world f)))
                       (remove_nth k (pending f)))
      | None => None
      end
  end.

Fixpoint fine_run (s : list FineAction) (f : Fine) : option Fine :=
  match s with
  | [] => Some f
  | a :: rest =>
      match fine_exec a f with
      | Some f1 => fine_run rest f1
      | None => None
      end
  end.

(* ================================================================== *)
(** ** Notions used to state the properties *)

Definition well_formed (kv : KeyValue) : bool :=
  match json.Unmarshal (Value kv) with
  | Ok _ => true
  | Err _ => false
  end.

Definition decoded (kv : KeyValue) : ServiceInfo :=
  match json.Unmarshal (Value kv) with
  | Ok service => service
  | Err _ => zeroServiceInfo
  end.

(** The entries a prefix read returns for a service. *)
Definition entries (serviceName : string) (w : World) : list KeyValue :=
  filter (fun kv => String.prefix (services_prefix serviceName) (Key kv))
         (kvs w).

(** Who ran the callback an output comes from, if it comes from one. *)
Definition origin (o : Output) : option Origin :=
  match o with
  | Printed _ => None
  | Called by_ _ _ => Some by_
  | UpdateState by_ _ _ => Some by_
  end.

Definition is_delivery (o : Output) : bool :=
  match origin o with
  | Some _ => true
  | None => false
  end.

(** The snapshots delivered to callbacks, oldest first. *)
Definition deliveries (out : list Output) : list Output :=
  filter is_delivery out.

Definition from_goroutine (i : nat) (o : Output) : bool :=
  match origin o with
  | Some (Async j) => Nat.eqb i j
  | _ => false
  end.

(** The snapshots delivered by goroutine [i]. *)
Definition deliveries_of (i : nat) (out : list Output) : list Output :=
  filter (from_goroutine i) out.

(** The next [n] calls of the client succeed. *)
Fixpoint no_fault (n : nat) (l : list (option error)) : Prop :=
  match n with
  | O => True
  | S k => hd None l = None /\ no_fault k (tl l)
  end.

Definition world_after (s : list Action) (w : World) : World :=
  match run s w with
  | Some w' => w'
  | None => w
  end.

(** A watch on [auth] is open and one transaction has put two keys under
    its prefix: the goroutine has one batch of two events waiting. *)
Definition two_event_world : World :=
  world_after
    [App (ApiWatchGo "auth" (UserCallback 0));
     App (ApiWatchInitial "auth" (UserCallback 0));
     Step 0 Recv;
     Commit [OpPut "/services/auth/10.0.0.1:9000" "{}" 0;
             OpPut "/services/auth/10.0.0.2:9000" "{}" 0]]
    empty_world.

(** [Build] has returned a resolver for [auth] on connection 7 and the
    goroutine of its watch has opened its channel. *)
Definition built_world : World :=
  world_after [Step 0 Recv] (snd (Build "auth" 7 empty_world)).

(** A store client registers an instance of [auth]; the goroutine takes
    the batch and handles its event. *)
Definition put_and_handle : list Action :=
  [Commit [OpPut "/services/auth/10.0.0.1:9000" "{}" 0];
   Step 0 Recv; Step 0 Recv].

(** Between the [go] statement of [Watch] and its first [Discover]: the
    new goroutine opens its channel, a store client registers an instance,
    and the goroutine takes the batch and handles its event. *)
Definition early_event : list Action :=
  [Step 0 Recv;
   Commit [OpPut "/services/auth/10.0.0.1:9000" "{}" 0];
   Step 0 Recv; Step 0 Recv].

(** [emits P w w']: [w'] has the output of [w] followed by outputs that
    all satisfy [P]. *)
Definition emits (P : Output -> Prop) (w w' : World) : Prop :=
  exists l, output w' = output w ++ l /\ Forall P l.

(** A call is quiet when it outputs nothing and leaves the context as it
    is. *)
Definition quiet {A : Type} (m : M A) : Prop :=
  forall w, output (snd (m w)) = output w /\ done (snd (m w)) = done w.

(** The outputs of the watcher for the events of one batch when every
    query returns [services]. *)
Definition batch_output (i : nat) (callback : Callback)
           (services : list ServiceInfo) (batch : list Event) : list Output :=
  flat_map (fun event => [Printed (changed_line event);
                          callback_output (Async i) callback services])
           batch.

(** The valid sequences at the head of a string, by their length:
    [head_rune s0 s1 s2 s3 c size] says that the bytes [s0..] start with
    the [size] bytes of the rune [c]. *)
Inductive head_rune (s0 s1 s2 s3 : Z) : Z -> nat -> Prop :=
| head1 : 0 <= s0 < 0x80 -> head_rune s0 s1 s2 s3 s0 1
| head2 :
    0xC2 <= s0 <= 0xDF -> 0x80 <= s1 <= 0xBF ->
    head_rune s0 s1 s2 s3
      (Z.lor (Z.shiftl (Z.land s0 utf8.mask2) 6) (Z.land s1 utf8.maskx)) 2
| head3 :
    0xE0 <= s0 <= 0xEF -> 0x80 <= s1 <= 0xBF -> 0x80 <= s2 <= 0xBF ->
    (s0 = 0xE0 -> 0xA0 <= s1) -> (s0 = 0xED -> s1 <= 0x9F) ->
    head_rune s0 s1 s2 s3
      (Z.lor (Z.lor (Z.shiftl (Z.land s0 utf8.mask3) 12)
                    (Z.shiftl (Z.land s1 utf8.maskx) 6))
             (Z.land s2 utf8.maskx)) 3
| head4 :
    0xF0 <= s0 <= 0xF4 -> 0x80 <= s1 <= 0xBF -> 0x80 <= s2 <= 0xBF ->
    0x80 <= s3 <= 0xBF ->
    (s0 = 0xF0 -> 0x90 <= s1) -> (s0 = 0xF4 -> s1 <= 0x8F) ->
    head_rune s0 s1 s2 s3
      (Z.lor (Z.lor (Z.lor (Z.shiftl (Z.land s0 utf8.mask4) 18)
                           (Z.shiftl (Z.land s1 utf8.maskx) 12))
                    (Z.shiftl (Z.land s2 utf8.maskx) 6))
             (Z.land s3 utf8.maskx)) 4.

(** The rune at the head of a string. *)
Definition rune_at (s : string) (c : Z) (size : nat) : Prop :=
  head_rune (idx s 0) (idx s 1) (idx s 2) (idx s 3) c size
  /\ (size <= String.length s)%nat.

(* ================================================================== *)
(** ** Notions used to state further properties *)

(** What a string becomes when it goes through the codec: a byte that
    starts no valid UTF-8 sequence is replaced by the three bytes of
    U+FFFD, everything else is kept. *)
Fixpoint coerce (fuel : nat) (s : string) : string :=
  match fuel with
  | O => EmptyString
  | S fuel' =>
      match s with
      | EmptyString => EmptyString
      | String _ _ =>
          let d := utf8.DecodeRuneInString s in
          if utf8.bad d then
            (utf8.AppendRune utf8.RuneError ++ coerce fuel' (skip 1 s))%string
          else (take (snd d) s ++ coerce fuel' (skip (snd d) s))%string
      end
  end.

Definition coerced (s : string) : string := coerce (String.length s) s.

(** The payload [Register] stores for a record. *)
Definition payload (serviceName address version : string) : string :=
  match json.Marshal (mkServiceInfo serviceName address version) with
  | Ok data => data
  | Err _ => EmptyString
  end.

(** How many of the next [n] calls of the client succeed. *)
Fixpoint successes (n : nat) (l : list (option error)) : nat :=
  match n with
  | O => O
  | S k =>
      match l with
      | [] => S k
      | None :: rest => S (successes k rest)
      | Some _ :: rest => successes k rest
      end
  end.

(** [NewEtcdRegistry(endpoints, ttl)]: [dial] is the outcome of
    [clientv3.New] and [store] the store the client is connected to, as
    any world shows it. The registry starts with a context that is not
    done and nothing started or printed. *)
Definition NewEtcdRegistry (dial : option error) (ttl_ : Z) (store : World)
  : result World :=
  match dial with
  | Some err => Err err
  | None =>
      Ok (mkWorld (kvs store) (leases store) (nextLease store)
                  (faults store) ttl_ false [] [])
  end.

(** The lines printed, oldest first. *)
Fixpoint printed (out : list Output) : list string :=
  match out with
  | [] => []
  | Printed line :: rest => line :: printed rest
  | _ :: rest => printed rest
  end.

(** A call that leaves the TTL of the registry as it is. *)
Definition keeps_ttl {A : Type} (m : M A) : Prop :=
  forall w, ttl (snd (m w)) = ttl w.

(** A goroutine that has returned. *)
Definition returned (g : Goroutine) : bool :=
  match g with
  | keepAlive _ _ _ KaDone => true
  | watcher _ _ WDone => true
  | _ => false
  end.

(** [g'] is the goroutine [g] at a later point: the same function with
    the same arguments, and [g] itself when [g] has returned. *)
Definition later (g g' : Goroutine) : Prop :=
  match g, g' with
  | keepAlive leaseID key value _, keepAlive leaseID' key' value' _ =>
      leaseID = leaseID' /\ key = key' /\ value = value'
  | watcher serviceName callback _, watcher serviceName' callback' _ =>
      serviceName = serviceName' /\ callback = callback'
  | _, _ => False
  end
  /\ (returned g = true -> g' = g).

(** A call under which every goroutine stays the goroutine it is. *)
Definition keeps_goroutines {A : Type} (m : M A) : Prop :=
  forall w i g,
    nth_error (goroutines w) i = Some g ->
    exists g', nth_error (goroutines (snd (m w))) i = Some g' /\ later g g'.

(* ================================================================== *)
(** * Properties *)

(** ** Tactics and basic facts *)

Arguments json.Unmarshal : simpl never.
Arguments json.Marshal : simpl never.

Lemma call_cases (w : World) :
  (exists e, call w = (Err e, set_faults (tl (faults w)) w)
             /\ (done w = true \/ hd None (faults w) = Some e))
  \/ (call w = (Ok tt, set_faults (tl (faults w)) w)
      /\ done w = false /\ hd None (faults w) = None)
  \/ (call w = (Err ContextCanceled, w) /\ done w = true).
Proof.
  unfold call. destruct (done w) eqn:Hd.
  - right; right; auto.
  - destruct (faults w) as [ | [ e | ] r ] eqn:Hf; simpl.
    + right; left. repeat split.
      destruct w; simpl in *; subst; reflexivity.
    + left. exists e. split; auto.
    + right; left. auto.
Qed.

Lemma call_ok (w : World) :
  done w = false -> hd None (faults w) = None ->
  call w = (Ok tt, set_faults (tl (faults w)) w).
Proof.
  intros Hd Hf. unfold call. rewrite Hd.
  destruct (faults w) as [ | [ e | ] r ] eqn:E; simpl in *;
    try discriminate; try reflexivity.
  destruct w; simpl in *; subst; reflexivity.
Qed.

Lemma call_done (w : World) :
  done w = true -> call w = (Err ContextCanceled, w).
Proof. intros Hd. unfold call. rewrite Hd. reflexivity. Qed.

Lemma append_assoc (a b c : string) : ((a ++ b) ++ c = a ++ b ++ c)%string.
Proof.
  induction a as [ | x a IH ]; cbn [append]; [ reflexivity | now rewrite IH ].
Qed.

Lemma prefix_append (p s : string) : String.prefix p (p ++ s) = true.
Proof.
  induction p as [ | a p IH ]; cbn [String.prefix append].
  - now destruct s.
  - destruct (ascii_dec a a) as [ _ | Hne ]; [ exact IH | now elim Hne ].
Qed.

(** ** The codec: runes *)

Lemma byte_byteZ (c : ascii) : byte (byteZ c) = c.
Proof. destruct c as [ [] [] [] [] [] [] [] [] ]; reflexivity. Qed.

Lemma byteZ_range (c : ascii) : 0 <= byteZ c < 256.
Proof.
  unfold byteZ. pose proof (N_ascii_bounded c) as H. lia.
Qed.

(** Bits that do not overlap add up. *)
Lemma lor_disjoint (k p q : Z) :
  0 <= k -> 0 <= q < 2 ^ k -> Z.lor (p * 2 ^ k) q = p * 2 ^ k + q.
Proof.
  intros Hk Hq.
  assert (H0 : Z.land (p * 2 ^ k) q = 0).
  { apply Z.bits_inj'. intros m Hm. rewrite Z.land_spec, Z.bits_0.
    destruct (Z.lt_ge_cases m k) as [ Hlt | Hge ].
    - now rewrite Z.mul_pow2_bits_low.
    - rewrite <- (Z.mod_small q (2 ^ k)) by exact Hq.
      rewrite Z.mod_pow2_bits_high by lia. apply andb_false_r. }
  rewrite <- Z.lxor_lor by exact H0. symmetry.
  now apply Z.add_nocarry_lxor.
Qed.

Lemma lor_shifted (k p q : Z) (m : Z) :
  0 <= k -> m = 2 ^ k -> 0 <= q < m -> Z.lor (p * m) q = p * m + q.
Proof. intros Hk -> Hq. now apply lor_disjoint. Qed.

Ltac bits_to_arith :=
  cbv [utf8.t2 utf8.t3 utf8.t4 utf8.tx utf8.maskx utf8.mask2 utf8.mask3
       utf8.mask4 utf8.rune1Max utf8.rune2Max utf8.rune3Max utf8.MaxRune
       utf8.surrogateMin utf8.surrogateMax utf8.RuneError utf8.locb
       utf8.hicb] in *;
  change 0x3F with (Z.ones 6) in *;
  change 0x1F with (Z.ones 5) in *;
  change 0x0F with (Z.ones 4) in *;
  change 0x07 with (Z.ones 3) in *;
  rewrite ?Z.land_ones, ?Z.shiftl_mul_pow2, ?Z.shiftr_div_pow2 in * by lia;
  change (2 ^ 3) with 8 in *; change (2 ^ 4) with 16 in *;
  change (2 ^ 5) with 32 in *; change (2 ^ 6) with 64 in *;
  change (2 ^ 12) with 4096 in *; change (2 ^ 18) with 262144 in *.

Ltac arith := Z.div_mod_to_equations; lia.

Lemma lor_t2 (a : Z) : 0 <= a < 32 -> Z.lor 192 a = 192 + a.
Proof. intros H. apply (lor_shifted 5 6 a 32); lia. Qed.

Lemma lor_t3 (a : Z) : 0 <= a < 16 -> Z.lor 224 a = 224 + a.
Proof. intros H. apply (lor_shifted 5 7 a 32); lia. Qed.

Lemma lor_t4 (a : Z) : 0 <= a < 8 -> Z.lor 240 a = 240 + a.
Proof. intros H. apply (lor_shifted 4 15 a 16); lia. Qed.

Lemma lor_tx (a : Z) : 0 <= a < 64 -> Z.lor 128 a = 128 + a.
Proof. intros H. apply (lor_shifted 7 1 a 128); lia. Qed.

Lemma rune2_bytes (s0 s1 : Z) :
  0xC2 <= s0 <= 0xDF -> 0x80 <= s1 <= 0xBF ->
  utf8.encode (Z.lor (Z.shiftl (Z.land s0 utf8.mask2) 6)
                     (Z.land s1 utf8.maskx))
  = [s0; s1].
Proof.
  intros H0 H1. bits_to_arith.
  rewrite (lor_shifted 6 _ _ 64) by (try reflexivity; arith).
  set (r := s0 mod 32 * 64 + s1 mod 64).
  assert (Hr : r = (s0 - 192) * 64 + (s1 - 128)) by (subst r; arith).
  clearbody r. unfold utf8.encode. bits_to_arith. 
  replace (r <=? 127) with false by (symmetry; apply Z.leb_gt; lia).
  replace (0 <=? r) with true by (symmetry; apply Z.leb_le; lia).
  replace (r <=? 2047) with true by (symmetry; apply Z.leb_le; lia).
  cbn [andb].
  rewrite lor_t2, lor_tx by arith. f_equal; [ arith | f_equal; arith ].
Qed.

Lemma rune3_bytes (s0 s1 s2 : Z) :
  0xE0 <= s0 <= 0xEF -> 0x80 <= s1 <= 0xBF -> 0x80 <= s2 <= 0xBF ->
  (s0 = 0xE0 -> 0xA0 <= s1) -> (s0 = 0xED -> s1 <= 0x9F) ->
  utf8.encode (Z.lor (Z.lor (Z.shiftl (Z.land s0 utf8.mask3) 12)
                            (Z.shiftl (Z.land s1 utf8.maskx) 6))
                     (Z.land s2 utf8.maskx))
  = [s0; s1; s2].
Proof.
  intros H0 H1 H2 Hlo Hhi. bits_to_arith.
  rewrite (lor_shifted 12 _ _ 4096) by (try reflexivity; arith).
  replace (s0 mod 16 * 4096 + s1 mod 64 * 64)
    with ((s0 mod 16 * 64 + s1 mod 64) * 64) by lia.
  rewrite (lor_shifted 6 _ _ 64) by (try reflexivity; arith).
  set (r := (s0 mod 16 * 64 + s1 mod 64) * 64 + s2 mod 64).
  assert (Hr : r = ((s0 - 224) * 64 + (s1 - 128)) * 64 + (s2 - 128))
    by (subst r; arith).
  clearbody r. unfold utf8.encode, utf8.encode3. bits_to_arith.
  assert (Hs : ~ (55296 <= r <= 57343)).
  { intros Hs. assert (s0 = 237) by lia. specialize (Hhi H). lia. }
  assert (Hmin : 2048 <= r).
  { destruct (Z.eq_dec s0 224) as [ E | E ]; [ specialize (Hlo E) | ]; lia. }
  replace (r <=? 127) with false by (symmetry; apply Z.leb_gt; lia).
  replace (r <=? 2047) with false by (symmetry; apply Z.leb_gt; lia).
  replace (r <? 0) with false by (symmetry; apply Z.ltb_ge; lia).
  replace (1114111 <? r) with false by (symmetry; apply Z.ltb_ge; lia).
  replace (r <=? 65535) with true by (symmetry; apply Z.leb_le; lia).
  replace ((55296 <=? r) && (r <=? 57343)) with false.
  2:{ symmetry. apply andb_false_iff.
      destruct (Z.leb_spec 55296 r);
        [ right; apply Z.leb_gt; lia | now left ]. }
  rewrite !andb_false_r. cbn [orb].
  rewrite lor_t3, !lor_tx by arith.
  f_equal; [ arith | f_equal; [ arith | f_equal; arith ] ].
Qed.

Lemma rune4_bytes (s0 s1 s2 s3 : Z) :
  0xF0 <= s0 <= 0xF4 -> 0x80 <= s1 <= 0xBF -> 0x80 <= s2 <= 0xBF ->
  0x80 <= s3 <= 0xBF ->
  (s0 = 0xF0 -> 0x90 <= s1) -> (s0 = 0xF4 -> s1 <= 0x8F) ->
  utf8.encode (Z.lor (Z.lor (Z.lor (Z.shiftl (Z.land s0 utf8.mask4) 18)
                                   (Z.shiftl (Z.land s1 utf8.maskx) 12))
                            (Z.shiftl (Z.land s2 utf8.maskx) 6))
                     (Z.land s3 utf8.maskx))
  = [s0; s1; s2; s3].
Proof.
  intros H0 H1 H2 H3 Hlo Hhi. bits_to_arith.
  rewrite (lor_shifted 18 _ _ 262144) by (try reflexivity; arith).
  replace (s0 mod 8 * 262144 + s1 mod 64 * 4096)
    with ((s0 mod 8 * 64 + s1 mod 64) * 4096) by lia.
  rewrite (lor_shifted 12 _ _ 4096) by (try reflexivity; arith).
  replace ((s0 mod 8 * 64 + s1 mod 64) * 4096 + s2 mod 64 * 64)
    with (((s0 mod 8 * 64 + s1 mod 64) * 64 + s2 mod 64) * 64) by lia.
  rewrite (lor_shifted 6 _ _ 64) by (try reflexivity; arith).
  set (r := ((s0 mod 8 * 64 + s1 mod 64) * 64 + s2 mod 64) * 64 + s3 mod 64).
  assert (Hr : r = (((s0 - 240) * 64 + (s1 - 128)) * 64 + (s2 - 128)) * 64
                   + (s3 - 128))
    by (subst r; arith).
  clearbody r. unfold utf8.encode. bits_to_arith.
  assert (Hmin : 65536 <= r).
  { destruct (Z.eq_dec s0 240) as [ E | E ]; [ specialize (Hlo E) | ]; lia. }
  assert (Hmax : r <= 1114111).
  { destruct (Z.eq_dec s0 244) as [ E | E ]; [ specialize (Hhi E) | ]; lia. }
  replace (r <=? 127) with false by (symmetry; apply Z.leb_gt; lia).
  replace (r <=? 2047) with false by (symmetry; apply Z.leb_gt; lia).
  replace (r <? 0) with false by (symmetry; apply Z.ltb_ge; lia).
  replace (1114111 <? r) with false by (symmetry; apply Z.ltb_ge; lia).
  replace (r <=? 57343) with false by (symmetry; apply Z.leb_gt; lia).
  replace (r <=? 65535) with false by (symmetry; apply Z.leb_gt; lia).
  rewrite !andb_false_r. cbn [orb].
  rewrite lor_t4, !lor_tx by arith.
  f_equal; [ arith | f_equal; [ arith | f_equal; [ arith | f_equal; arith ] ] ].
Qed.
Ltac split_ifs H :=
  repeat match type of H with
    | context [ if ?b then _ else _ ] =>
        let E := fresh "E" in
        destruct b eqn:E; cbn beta iota in H
    end.

Ltac bool_to_prop :=
  repeat match goal with
    | H : (_ || _) = false |- _ =>
        apply orb_false_iff in H; destruct H
    | H : (_ <? _) = true |- _ => apply Z.ltb_lt in H
    | H : (_ <? _) = false |- _ => apply Z.ltb_ge in H
    | H : (_ =? _) = true |- _ => apply Z.eqb_eq in H
    | H : (_ =? _) = false |- _ => apply Z.eqb_neq in H
    | H : (_ <? _)%nat = true |- _ => apply Nat.ltb_lt in H
    | H : (_ <? _)%nat = false |- _ => apply Nat.ltb_ge in H
    | H : (_ <=? _)%nat = true |- _ => apply Nat.leb_le in H
    | H : (_ <=? _)%nat = false |- _ => apply Nat.leb_gt in H
    end.

Lemma decode_inv (n : nat) (s0 s1 s2 s3 c : Z) (size : nat) :
  0 <= s0 ->
  utf8.decode n s0 s1 s2 s3 = (c, size) ->
  utf8.bad (c, size) = false ->
  (1 <= n)%nat ->
  head_rune s0 s1 s2 s3 c size /\ (size <= n)%nat.
Proof.
  intros H0 H Hb Hn. unfold utf8.decode, utf8.first in H.
  cbv [utf8.locb utf8.hicb] in H.
  split_ifs H; inversion H; subst c size; clear H;
    try discriminate Hb; bool_to_prop; try lia;
    (split; [ | lia ]);
    first [ apply head1; lia
          | apply head2; lia
          | apply head3; lia
          | apply head4; lia ].
Qed.

Lemma decode_intro (n : nat) (s0 s1 s2 s3 c : Z) (size : nat) :
  head_rune s0 s1 s2 s3 c size ->
  (size <= n)%nat ->
  utf8.decode n s0 s1 s2 s3 = (c, size).
Proof.
  intros H Hn. unfold utf8.decode, utf8.first.
  cbv [utf8.locb utf8.hicb].
  assert (Hn1 : forall k, (k <= size)%nat -> (n <? k)%nat = false)
    by (intros k Hk; apply Nat.ltb_ge; lia).
  destruct H as [ H0 | H0 H1 | H0 H1 H2 Hlo Hhi | H0 H1 H2 H3 Hlo Hhi ].
  - rewrite (Hn1 1%nat) by lia.
    replace (s0 <? 128) with true by (symmetry; apply Z.ltb_lt; lia).
    reflexivity.
  - rewrite (Hn1 1%nat) by lia.
    replace (s0 <? 128) with false by (symmetry; apply Z.ltb_ge; lia).
    replace (s0 <? 194) with false by (symmetry; apply Z.ltb_ge; lia).
    replace (s0 <? 224) with true by (symmetry; apply Z.ltb_lt; lia).
    rewrite (Hn1 2%nat) by lia.
    replace (s1 <? 128) with false by (symmetry; apply Z.ltb_ge; lia).
    replace (191 <? s1) with false by (symmetry; apply Z.ltb_ge; lia).
    reflexivity.
  - rewrite (Hn1 1%nat) by lia.
    replace (s0 <? 128) with false by (symmetry; apply Z.ltb_ge; lia).
    replace (s0 <? 194) with false by (symmetry; apply Z.ltb_ge; lia).
    replace (s0 <? 224) with false by (symmetry; apply Z.ltb_ge; lia).
    replace (s2 <? 128) with false by (symmetry; apply Z.ltb_ge; lia).
    replace (191 <? s2) with false by (symmetry; apply Z.ltb_ge; lia).
    destruct (Z.eqb_spec s0 224) as [ E | E ].
    { rewrite (Hn1 3%nat) by lia. specialize (Hlo E).
      replace (s1 <? 160) with false by (symmetry; apply Z.ltb_ge; lia).
      replace (191 <? s1) with false by (symmetry; apply Z.ltb_ge; lia).
      reflexivity. }
    destruct (Z.ltb_spec s0 237) as [ L | L ].
    { rewrite (Hn1 3%nat) by lia.
      replace (s1 <? 128) with false by (symmetry; apply Z.ltb_ge; lia).
      replace (191 <? s1) with false by (symmetry; apply Z.ltb_ge; lia).
      reflexivity. }
    destruct (Z.eqb_spec s0 237) as [ E' | E' ].
    { rewrite (Hn1 3%nat) by lia. specialize (Hhi E').
      replace (s1 <? 128) with false by (symmetry; apply Z.ltb_ge; lia).
      replace (159 <? s1) with false by (symmetry; apply Z.ltb_ge; lia).
      reflexivity. }
    replace (s0 <? 240) with true by (symmetry; apply Z.ltb_lt; lia).
    rewrite (Hn1 3%nat) by lia.
    replace (s1 <? 128) with false by (symmetry; apply Z.ltb_ge; lia).
    replace (191 <? s1) with false by (symmetry; apply Z.ltb_ge; lia).
    reflexivity.
  - rewrite (Hn1 1%nat) by lia.
    replace (s0 <? 128) with false by (symmetry; apply Z.ltb_ge; lia).
    replace (s0 <? 194) with false by (symmetry; apply Z.ltb_ge; lia).
    replace (s0 <? 224) with false by (symmetry; apply Z.ltb_ge; lia).
    replace (s0 =? 224) with false by (symmetry; apply Z.eqb_neq; lia).
    replace (s0 <? 237) with false by (symmetry; apply Z.ltb_ge; lia).
    replace (s0 =? 237) with false by (symmetry; apply Z.eqb_neq; lia).
    replace (s0 <? 240) with false by (symmetry; apply Z.ltb_ge; lia).
    replace (s2 <? 128) with false by (symmetry; apply Z.ltb_ge; lia).
    replace (191 <? s2) with false by (symmetry; apply Z.ltb_ge; lia).
    replace (s3 <? 128) with false by (symmetry; apply Z.ltb_ge; lia).
    replace (191 <? s3) with false by (symmetry; apply Z.ltb_ge; lia).
    destruct (Z.eqb_spec s0 240) as [ E | E ].
    { rewrite (Hn1 4%nat) by lia. specialize (Hlo E).
      replace (s1 <? 144) with false by (symmetry; apply Z.ltb_ge; lia).
      replace (191 <? s1) with false by (symmetry; apply Z.ltb_ge; lia).
      reflexivity. }
    destruct (Z.ltb_spec s0 244) as [ L | L ].
    { rewrite (Hn1 4%nat) by lia.
      replace (s1 <? 128) with false by (symmetry; apply Z.ltb_ge; lia).
      replace (191 <? s1) with false by (symmetry; apply Z.ltb_ge; lia).
      reflexivity. }
    replace (s0 =? 244) with true by (symmetry; apply Z.eqb_eq; lia).
    rewrite (Hn1 4%nat) by lia. specialize (Hhi ltac:(lia)).
    replace (s1 <? 128) with false by (symmetry; apply Z.ltb_ge; lia).
    replace (143 <? s1) with false by (symmetry; apply Z.ltb_ge; lia).
    reflexivity.
Qed.

Lemma head_rune_encode (s0 s1 s2 s3 c : Z) (size : nat) :
  head_rune s0 s1 s2 s3 c size ->
  utf8.encode c = firstn size [s0; s1; s2; s3].
Proof.
  intros [ H0 | H0 H1 | H0 H1 H2 Hlo Hhi | H0 H1 H2 H3 Hlo Hhi ].
  - unfold utf8.encode, utf8.rune1Max.
    replace (0 <=? s0) with true by (symmetry; apply Z.leb_le; lia).
    replace (s0 <=? 127) with true by (symmetry; apply Z.leb_le; lia).
    reflexivity.
  - now apply rune2_bytes.
  - now apply rune3_bytes.
  - now apply rune4_bytes.
Qed.

(** ** The codec: strings *)

Lemma length_append (a b : string) :
  String.length (a ++ b) = (String.length a + String.length b)%nat.
Proof. induction a as [ | x a IH ]; cbn; [ reflexivity | now rewrite IH ]. Qed.

Lemma take_skip (n : nat) (s : string) : (take n s ++ skip n s)%string = s.
Proof.
  revert s. induction n as [ | n IH ]; intros [ | c t ]; cbn; try reflexivity.
  now rewrite IH.
Qed.

Lemma length_take (n : nat) (s : string) :
  (n <= String.length s)%nat -> String.length (take n s) = n.
Proof.
  revert s. induction n as [ | n IH ]; intros [ | c t ] H; cbn in *;
    try reflexivity; try lia.
  rewrite IH; lia.
Qed.

Lemma length_skip (n : nat) (s : string) :
  String.length (skip n s) = (String.length s - n)%nat.
Proof.
  revert s. induction n as [ | n IH ]; intros [ | c t ]; cbn;
    try reflexivity; try lia.
  apply IH.
Qed.

Lemma skip_take_append (n : nat) (s x : string) :
  (n <= String.length s)%nat -> skip n (take n s ++ x) = x.
Proof.
  revert s. induction n as [ | n IH ]; intros [ | c t ] H; cbn in *;
    try lia.
  - now destruct x.
  - now destruct x.
  - apply IH. lia.
Qed.

Lemma idx_take_append (n k : nat) (s x : string) :
  (k < n)%nat -> (n <= String.length s)%nat ->
  idx (take n s ++ x) k = idx s k.
Proof.
  unfold idx. revert k s.
  induction n as [ | n IH ]; intros k [ | c t ] Hk Hn; cbn in *; try lia.
  destruct k as [ | k ]; [ reflexivity | ]. apply IH; lia.
Qed.

Lemma idx_take (n k : nat) (s : string) :
  (k < n)%nat -> idx (take n s) k = idx s k.
Proof.
  unfold idx. revert k s.
  induction n as [ | n IH ]; intros k [ | c t ] Hk; cbn in *; try lia;
    try reflexivity.
  destruct k as [ | k ]; [ reflexivity | ]. apply IH; lia.
Qed.

Lemma idx_nonneg (s : string) (k : nat) : 0 <= idx s k.
Proof.
  unfold idx. destruct (String.get k s) as [ c | ]; [ | lia ].
  pose proof (byteZ_range c). lia.
Qed.

Lemma head_rune_size (s0 s1 s2 s3 c : Z) (size : nat) :
  head_rune s0 s1 s2 s3 c size -> (1 <= size <= 4)%nat.
Proof. intros []; lia. Qed.

Lemma head_rune_ext (s0 s1 s2 s3 s1' s2' s3' c : Z) (size : nat) :
  head_rune s0 s1 s2 s3 c size ->
  ((2 <= size)%nat -> s1' = s1) ->
  ((3 <= size)%nat -> s2' = s2) ->
  ((4 <= size)%nat -> s3' = s3) ->
  head_rune s0 s1' s2' s3' c size.
Proof.
  intros [ H0 | H0 H1 | H0 H1 H2 Hlo Hhi | H0 H1 H2 H3 Hlo Hhi ] E1 E2 E3.
  - now apply head1.
  - rewrite <- (E1 ltac:(lia)). apply head2; rewrite ?E1 by lia; assumption.
  - rewrite <- (E1 ltac:(lia)), <- (E2 ltac:(lia)).
    apply head3; rewrite ?E1, ?E2 by lia; assumption.
  - rewrite <- (E1 ltac:(lia)), <- (E2 ltac:(lia)), <- (E3 ltac:(lia)).
    apply head4; rewrite ?E1, ?E2, ?E3 by lia; assumption.
Qed.

Lemma DecodeRune_inv (s : string) (c : Z) (size : nat) :
  s <> EmptyString ->
  utf8.DecodeRuneInString s = (c, size) ->
  utf8.bad (c, size) = false ->
  rune_at s c size.
Proof.
  intros Hs H Hb. unfold utf8.DecodeRuneInString in H.
  apply decode_inv in H; [ exact H | apply idx_nonneg | exact Hb | ].
  destruct s; [ now elim Hs | cbn; lia ].
Qed.

Lemma DecodeRune_intro (s : string) (c : Z) (size : nat) :
  rune_at s c size -> utf8.DecodeRuneInString s = (c, size).
Proof. intros (H & Hn). now apply decode_intro. Qed.

Lemma rune_at_prefix (s x : string) (c : Z) (size : nat) :
  rune_at s c size -> rune_at (take size s ++ x) c size.
Proof.
  intros (H & Hn). pose proof (head_rune_size _ _ _ _ _ _ H) as Hsz. split.
  - rewrite (idx_take_append size 0) by lia.
    eapply head_rune_ext; [ exact H | | | ]; intros Hk;
      apply idx_take_append; lia.
  - rewrite length_append, length_take by exact Hn. lia.
Qed.

Lemma rune_at_take4 (s : string) (c : Z) (size : nat) :
  rune_at s c size <-> rune_at (take 4 s) c size.
Proof.
  unfold rune_at. rewrite !idx_take by lia.
  split; intros (H & Hn); (split; [ exact H | ]);
    pose proof (head_rune_size _ _ _ _ _ _ H) as Hsz.
  - destruct s as [ | c0 [ | c1 [ | c2 [ | c3 t ] ] ] ]; cbn in *; lia.
  - destruct s as [ | c0 [ | c1 [ | c2 [ | c3 t ] ] ] ]; cbn in *; lia.
Qed.

Lemma of_bytes_idx (size : nat) (s : string) :
  (size <= 4)%nat -> (size <= String.length s)%nat ->
  of_bytes (firstn size [idx s 0; idx s 1; idx s 2; idx s 3]) = take size s.
Proof.
  intros H4 Hn.
  destruct s as [ | c0 [ | c1 [ | c2 [ | c3 t ] ] ] ];
    destruct size as [ | [ | [ | [ | [ | size ] ] ] ] ];
    cbn [String.length] in Hn; try lia; unfold idx, of_bytes;
    cbn [String.get firstn fold_right take]; rewrite ?byte_byteZ;
    reflexivity.
Qed.

Lemma rune_at_AppendRune (s : string) (c : Z) (size : nat) :
  rune_at s c size -> utf8.AppendRune c = take size s.
Proof.
  intros (H & Hn). unfold utf8.AppendRune.
  rewrite (head_rune_encode _ _ _ _ _ _ H).
  apply of_bytes_idx; [ | exact Hn ].
  pose proof (head_rune_size _ _ _ _ _ _ H). lia.
Qed.

(** The encoder looks at four bytes at most; that is enough. *)
Lemma DecodeRune_take4 (s : string) :
  s <> EmptyString ->
  utf8.bad (utf8.DecodeRuneInString s) = false ->
  utf8.DecodeRuneInString (take utf8.UTFMax s) = utf8.DecodeRuneInString s.
Proof.
  intros Hs Hb. destruct (utf8.DecodeRuneInString s) as [ c size ] eqn:E.
  apply DecodeRune_intro. apply (proj1 (rune_at_take4 s c size)).
  now apply DecodeRune_inv.
Qed.

(** ** The codec: one step of the decoder on what the encoder writes *)

Ltac each_byte b :=
  destruct b as [ [] [] [] [] [] [] [] [] ].

Lemma unquote_safe (b : ascii) (tail : string) (f : nat) :
  (byteZ b <? utf8.RuneSelf) = true ->
  json.htmlSafeSet b = true ->
  json.unquote (S f) (String b tail)
  = json.cons_out (String b EmptyString) (json.unquote f tail).
Proof.
  each_byte b; intros H1 H2; vm_compute in H1, H2;
    try discriminate H1; try discriminate H2; reflexivity.
Qed.

Lemma unquote_escape_byte (b : ascii) (tail : string) (f : nat) :
  (byteZ b <? utf8.RuneSelf) = true ->
  json.htmlSafeSet b = false ->
  json.unquote (S f) (json.escape_byte b ++ tail)
  = json.cons_out (String b EmptyString) (json.unquote f tail).
Proof.
  each_byte b; intros H1 H2; vm_compute in H1, H2;
    try discriminate H1; try discriminate H2; reflexivity.
Qed.

Lemma unquote_multibyte (b : ascii) (t : string) (f : nat) :
  (byteZ b <? utf8.RuneSelf) = false ->
  json.unquote (S f) (String b t)
  = json.cons_out
      (utf8.AppendRune (fst (utf8.DecodeRuneInString (String b t))))
      (json.unquote f (skip (snd (utf8.DecodeRuneInString (String b t)))
                            (String b t))).
Proof.
  each_byte b; intros H1; vm_compute in H1; try discriminate H1;
    reflexivity.
Qed.

Lemma unquote_separator (c : Z) (tail : string) (f : nat) :
  c = 0x2028 \/ c = 0x2029 ->
  json.unquote (S f)
    (String bslash "u202" ++ String (json.hexdigit (Z.land c 0xF)) EmptyString
     ++ tail)
  = json.cons_out (utf8.AppendRune c) (json.unquote f tail).
Proof. intros [ -> | -> ]; reflexivity. Qed.

(** ** The codec: a string literal read back *)

Lemma length_escape_byte (b : ascii) :
  (1 <= String.length (json.escape_byte b))%nat.
Proof.
  unfold json.escape_byte.
  repeat match goal with
    | |- context [ if ?c then _ else _ ] => destruct c
    end; cbn; lia.
Qed.

Lemma DecodeRune_ascii (b : ascii) (t : string) :
  (byteZ b <? utf8.RuneSelf) = true ->
  utf8.DecodeRuneInString (String b t) = (byteZ b, 1%nat).
Proof.
  intros H. apply DecodeRune_intro. split; [ | cbn; lia ].
  apply head1. apply Z.ltb_lt in H. unfold utf8.RuneSelf in H.
  pose proof (byteZ_range b). unfold idx. cbn. lia.
Qed.

Lemma cons_out_some (p out rest : string) :
  json.cons_out p (Some (out, rest)) = Some ((p ++ out)%string, rest).
Proof. reflexivity. Qed.

Lemma unquote_escape (m : nat) :
  forall (s rest : string) (fuel : nat),
    (String.length s <= m)%nat ->
    utf8.valid m s = true ->
    (String.length (json.escape m s) < fuel)%nat ->
    json.unquote fuel (json.escape m s ++ String dquote rest)
    = Some (s, rest).
Proof.
  induction m as [ | m IH ]; intros s rest fuel Hlen Hv Hf.
  - destruct s; [ | cbn in Hlen; lia ].
    destruct fuel; [ lia | reflexivity ].
  - destruct s as [ | b t ].
    { destruct fuel; [ lia | reflexivity ]. }
    cbn [utf8.valid] in Hv. cbn [json.escape] in *.
    destruct (utf8.bad (utf8.DecodeRuneInString (String b t))) eqn:Hbad;
      [ discriminate Hv | ].
    destruct (byteZ b <? utf8.RuneSelf) eqn:Hb.
    + rewrite (DecodeRune_ascii b t Hb) in Hv. cbn [snd skip] in Hv.
      cbn [String.length] in Hlen.
      destruct (json.htmlSafeSet b) eqn:Hs.
      * cbn [String.length] in Hf. destruct fuel as [ | f ]; [ lia | ].
        cbn [append]. rewrite (unquote_safe b _ f Hb Hs).
        rewrite (IH t rest f) by (try assumption; lia). reflexivity.
      * rewrite length_append in Hf.
        pose proof (length_escape_byte b) as Hle.
        destruct fuel as [ | f ]; [ lia | ].
        rewrite append_assoc.
        rewrite (unquote_escape_byte b _ f Hb Hs).
        rewrite (IH t rest f) by (try assumption; lia). reflexivity.
    + assert (Hne : String b t <> EmptyString) by discriminate.
      rewrite (DecodeRune_take4 _ Hne Hbad) in *. rewrite Hbad in *.
      destruct (utf8.DecodeRuneInString (String b t)) as [ c size ] eqn:Hd.
      cbn [fst snd] in *.
      pose proof (DecodeRune_inv _ _ _ Hne Hd Hbad) as Hr.
      pose proof (rune_at_AppendRune _ _ _ Hr) as Happ.
      destruct Hr as (Hh & Hsz).
      pose proof (head_rune_size _ _ _ _ _ _ Hh) as Hsize.
      assert (Hlen' : (String.length (skip size (String b t)) <= m)%nat)
        by (rewrite length_skip; cbn [String.length] in *; lia).
      destruct ((c =? 0x2028) || (c =? 0x2029)) eqn:Hsep.
      * assert (Hc : c = 0x2028 \/ c = 0x2029).
        { apply orb_true_iff in Hsep. destruct Hsep as [ E | E ];
            apply Z.eqb_eq in E; auto. }
        rewrite !length_append in Hf. cbn [String.length] in Hf.
        destruct fuel as [ | f ]; [ lia | ].
        rewrite !append_assoc.
        rewrite (unquote_separator c _ f Hc).
        rewrite (IH _ rest f) by (try assumption; lia).
        rewrite cons_out_some, Happ, take_skip. reflexivity.
      * rewrite length_append, length_take in Hf by exact Hsz.
        destruct fuel as [ | f ]; [ lia | ].
        rewrite append_assoc.
        set (x := (json.escape m (skip size (String b t))
                   ++ String dquote rest)%string).
        assert (Hr' : rune_at (take size (String b t) ++ x) c size)
          by (apply rune_at_prefix; now split).
        apply DecodeRune_intro in Hr'.
        destruct size as [ | k ]; [ lia | ].
        cbn [take append] in *.
        rewrite (unquote_multibyte b _ f Hb). rewrite Hr'.
        cbn [fst snd].
        change (String b (take k t ++ x))
          with (take (S k) (String b t) ++ x)%string.
        rewrite skip_take_append by exact Hsz. subst x.
        rewrite (IH _ rest f) by (try assumption; lia).
        rewrite cons_out_some, Happ.
        change (String b (take k t)) with (take (S k) (String b t)).
        rewrite take_skip. reflexivity.
Qed.

Lemma value_string (f : nat) (depth : Z) (r : string) :
  json.value (S f) depth (String dquote r)
  = match json.unquote (S (String.length r)) r with
    | Some (str, r') => Some (json.Str str, r')
    | None => None
    end.
Proof. reflexivity. Qed.

Lemma appendString_shape (s rest : string) :
  (json.appendString s ++ rest)%string
  = String dquote (json.escape (String.length s) s ++ String dquote rest).
Proof.
  unfold json.appendString. cbn [append]. now rewrite append_assoc.
Qed.

(** A string of valid UTF-8 written by the encoder is read back. *)
Lemma value_appendString (f : nat) (depth : Z) (s rest : string) :
  utf8.ValidString s = true ->
  json.value (S f) depth (json.appendString s ++ rest)
  = Some (json.Str s, rest).
Proof.
  intros Hv. rewrite appendString_shape, value_string.
  rewrite unquote_escape; [ reflexivity | lia | exact Hv | ].
  rewrite length_append. lia.
Qed.

(** ** The codec: a record read back *)

Lemma members_key (f : nat) (depth : Z) (r : string) :
  json.members (S f) depth (String dquote r)
  = match json.unquote (S (String.length r)) r with
    | None => None
    | Some (key, r1) =>
        match json.skipws r1 with
        | EmptyString => None
        | String colon r2 =>
            if Ascii.eqb colon ":" then
              match json.value f depth (json.skipws r2) with
              | None => None
              | Some (v, r3) =>
                  match json.skipws r3 with
                  | EmptyString => None
                  | String sep r4 =>
                      if Ascii.eqb sep "}" then Some ([(key, v)], r4)
                      else if Ascii.eqb sep "," then
                        match json.members f depth (json.skipws r4) with
                        | Some (ms, r5) => Some ((key, v) :: ms, r5)
                        | None => None
                        end
                      else None
                  end
              end
            else None
        end
    end.
Proof. reflexivity. Qed.

(** A member written by the encoder, followed by a comma and more
    members, or by the closing brace. [tag] is a tag of [ServiceInfo]:
    it is written as it is. *)
Lemma members_more (f : nat) (depth : Z) (tag s more : string) :
  utf8.ValidString tag = true ->
  json.escape (String.length tag) tag = tag ->
  utf8.ValidString s = true ->
  json.members (S (S f)) depth
    (String dquote
       (tag ++ String dquote (String ":"
          (json.appendString s ++ String "," (String dquote more)))))
  = match json.members (S f) depth (String dquote more) with
    | Some (ms, r) => Some ((tag, json.Str s) :: ms, r)
    | None => None
    end.
Proof.
  intros Ht He Hs. rewrite members_key.
  rewrite <- He at 1 2.
  rewrite unquote_escape;
    [ | lia | exact Ht | rewrite length_append; lia ].
  change (json.skipws (String ":" ?x)) with (String ":" x).
  cbv beta iota.
  change (Ascii.eqb ":" ":") with true. cbv beta iota.
  rewrite appendString_shape.
  change (json.skipws (String dquote ?x)) with (String dquote x).
  rewrite <- appendString_shape.
  rewrite (value_appendString f depth s (String "," (String dquote more))
             Hs).
  reflexivity.
Qed.

Lemma members_last (f : nat) (depth : Z) (tag s rest : string) :
  utf8.ValidString tag = true ->
  json.escape (String.length tag) tag = tag ->
  utf8.ValidString s = true ->
  json.members (S (S f)) depth
    (String dquote
       (tag ++ String dquote (String ":"
          (json.appendString s ++ String "}" rest))))
  = Some ([(tag, json.Str s)], rest).
Proof.
  intros Ht He Hs. rewrite members_key.
  rewrite <- He at 1 2.
  rewrite unquote_escape;
    [ | lia | exact Ht | rewrite length_append; lia ].
  change (json.skipws (String ":" ?x)) with (String ":" x).
  cbv beta iota.
  change (Ascii.eqb ":" ":") with true. cbv beta iota.
  rewrite appendString_shape.
  change (json.skipws (String dquote ?x)) with (String dquote x).
  rewrite <- appendString_shape.
  rewrite (value_appendString f depth s (String "}" rest) Hs).
  reflexivity.
Qed.

(** The payload [Marshal] writes, member by member. *)
Lemma Marshal_shape (v : ServiceInfo) :
  json.Marshal v
  = Ok (String "{"
          (String dquote
             ("name" ++ String dquote (String ":"
                (json.appendString (Name v) ++ String ","
                   (String dquote
                      ("address" ++ String dquote (String ":"
                         (json.appendString (Address v) ++ String ","
                            (String dquote
                               ("version" ++ String dquote (String ":"
                                  (json.appendString (Version v)
                                   ++ String "}" EmptyString))))))))))))).
Proof. reflexivity. Qed.

Lemma parse_object (x : string) :
  json.parse (String "{" (String dquote x))
  = match json.members (S (S (String.length x))) 1 (String dquote x) with
    | Some (ms, r) =>
        match json.skipws r with
        | EmptyString => Some (json.Object ms)
        | String _ _ => None
        end
    | None => None
    end.
Proof.
  unfold json.parse.
  change (json.value (S (String.length (String "{" (String dquote x)))) 0
            (json.skipws (String "{" (String dquote x))))
    with (match json.members (S (S (String.length x))) 1 (String dquote x) with
          | Some (ms, r) => Some (json.Object ms, r)
          | None => None
          end).
  destruct (json.members (S (S (String.length x))) 1 (String dquote x))
    as [ [ ms r ] | ]; reflexivity.
Qed.

Lemma parse_Marshal (v : ServiceInfo) :
  utf8.ValidString (Name v) = true ->
  utf8.ValidString (Address v) = true ->
  utf8.ValidString (Version v) = true ->
  exists data,
    json.Marshal v = Ok data
    /\ json.parse data
       = Some (json.Object [("name", json.Str (Name v));
                            ("address", json.Str (Address v));
                            ("version", json.Str (Version v))]).
Proof.
  intros Hn Ha Hv. eexists. split; [ apply Marshal_shape | ].
  rewrite parse_object.
  set (fuel := String.length _).
  assert (Hfuel : exists f, fuel = S (S f)).
  { subst fuel. rewrite length_append. cbn [String.length Nat.add].
    eexists. reflexivity. }
  destruct Hfuel as (f & ->).
  rewrite (members_more (S (S f)) 1 "name" (Name v))
    by (try reflexivity; exact Hn).
  rewrite (members_more (S f) 1 "address" (Address v))
    by (try reflexivity; exact Ha).
  rewrite (members_last f 1 "version" (Version v))
    by (try reflexivity; exact Hv).
  reflexivity.
Qed.

(** C6. A [ServiceInfo] whose name, address and version are valid UTF-8
    is encoded without error, and decoding the payload gives the same
    name, address and version back. *)
Theorem Marshal_Unmarshal_roundtrip :
  forall (serviceName address version : string),
    utf8.ValidString serviceName = true ->
    utf8.ValidString address = true ->
    utf8.ValidString version = true ->
    exists data,
      json.Marshal (mkServiceInfo serviceName address version) = Ok data
      /\ json.Unmarshal data
         = Ok (mkServiceInfo serviceName address version).
Proof.
  intros serviceName address version Hn Ha Hv.
  destruct (parse_Marshal (mkServiceInfo serviceName address version)
              Hn Ha Hv) as (data & HM & HP).
  exists data. split; [ exact HM | ].
  unfold json.Unmarshal. rewrite HP. reflexivity.
Qed.

Lemma Marshal_Unmarshal_roundtrip_witness :
  exists data,
    json.Marshal (mkServiceInfo "auth" "10.0.0.1:9000" "v1") = Ok data
    /\ json.Unmarshal data = Ok (mkServiceInfo "auth" "10.0.0.1:9000" "v1").
Proof.
  apply (Marshal_Unmarshal_roundtrip "auth" "10.0.0.1:9000" "v1");
    reflexivity.
Defined.

(** Outside valid UTF-8 the encoder writes U+FFFD for a byte it cannot
    decode, and the record read back differs. *)
Example Marshal_Unmarshal_invalid_utf8 :
  utf8.ValidString (of_bytes [0xFF]) = false
  /\ (exists data,
         json.Marshal (mkServiceInfo (of_bytes [0xFF]) "a" "v") = Ok data
         /\ json.Unmarshal data
            = Ok (mkServiceInfo (of_bytes [0xEF; 0xBF; 0xBD]) "a" "v")).
Proof. split; [ reflexivity | eexists; split; reflexivity ]. Qed.

(** ** Discover *)

Lemma decode_all_spec (l : list KeyValue) (acc : list ServiceInfo) :
  decode_all l acc = acc ++ map decoded (filter well_formed l).
Proof.
  revert acc. induction l as [ | kv l IH ]; intros acc;
    cbn [decode_all filter map].
  - now rewrite app_nil_r.
  - unfold well_formed at 1.
    destruct (json.Unmarshal (Value kv)) as [ service | e ] eqn:E;
      cbn [map].
    + rewrite IH, <- app_assoc. cbn [app].
      assert (Hkv : decoded kv = service) by (unfold decoded; now rewrite E).
      now rewrite Hkv.
    + apply IH.
Qed.

Lemma Discover_ok (serviceName : string) (w : World) :
  done w = false -> hd None (faults w) = None ->
  Discover serviceName w
  = (Ok (decode_all (entries serviceName w) []),
     set_faults (tl (faults w)) w).
Proof.
  intros Hd Hf. unfold Discover, kv_Get_WithPrefix, bind, gets, ret.
  rewrite (call_ok w Hd Hf). reflexivity.
Qed.

Lemma Discover_done (serviceName : string) (w : World) :
  done w = true -> Discover serviceName w = (Err ContextCanceled, w).
Proof.
  intros Hd. unfold Discover, kv_Get_WithPrefix, bind.
  rewrite (call_done w Hd). reflexivity.
Qed.

(** C7. Whatever the store holds under [/services/{name}/], a prefix read
    that succeeds makes [Discover] succeed: the entries whose payload does
    not decode are dropped, and the result is the decoding of the entries
    that are well formed, in the order of the read. *)
Theorem Discover_drops_malformed :
  forall (serviceName : string) (w : World),
    done w = false ->
    hd None (faults w) = None ->
    fst (Discover serviceName w)
    = Ok (map decoded (filter well_formed (entries serviceName w))).
Proof.
  intros serviceName w Hd Hf.
  rewrite (Discover_ok serviceName w Hd Hf). simpl.
  now rewrite decode_all_spec.
Qed.

Lemma Discover_drops_malformed_witness :
  let w :=
    set_kvs [mkKeyValue "/services/auth/10.0.0.1:9000" "{}" 1;
             mkKeyValue "/services/auth/10.0.0.2:9000" "not json" 2;
             mkKeyValue "/services/auth/10.0.0.3:9000" "[1, 2]" 3]
            empty_world in
  fst (Discover "auth" w) = Ok [zeroServiceInfo].
Proof.
  intros w.
  rewrite (Discover_drops_malformed "auth" w eq_refl eq_refl).
  vm_compute. reflexivity.
Defined.

(** ** Frame properties of the calls *)

Lemma call_frame (w : World) :
  let w' := snd (call w) in
  kvs w' = kvs w /\ leases w' = leases w /\ nextLease w' = nextLease w
  /\ done w' = done w /\ goroutines w' = goroutines w
  /\ output w' = output w /\ ttl w' = ttl w.
Proof.
  unfold call. destruct (done w) eqn:Hd; simpl; [ now repeat split | ].
  destruct (faults w) as [ | [ e | ] r ]; simpl; rewrite ?Hd;
    now repeat split.
Qed.

Lemma Discover_frame (serviceName : string) (w : World) :
  let w' := snd (Discover serviceName w) in
  kvs w' = kvs w /\ leases w' = leases w /\ nextLease w' = nextLease w
  /\ done w' = done w /\ goroutines w' = goroutines w
  /\ output w' = output w /\ ttl w' = ttl w.
Proof.
  unfold Discover, kv_Get_WithPrefix, bind, gets, ret.
  pose proof (call_frame w) as H. 
  destruct (call w) as [ [ [] | e ] w1 ]; simpl in *; exact H.
Qed.

Lemma notify_nil (g : Goroutine) : notify [] g = g.
Proof. destruct g as [ ? ? ? ? | ? ? [ | ? ? | ] ]; reflexivity. Qed.

Lemma map_notify_nil (gs : list Goroutine) : map (notify []) gs = gs.
Proof.
  induction gs as [ | g gs IH ]; cbn [map]; [ reflexivity | ].
  now rewrite notify_nil, IH.
Qed.

(** ** Register *)




(** ** Watch: the first snapshot *)

Lemma Watch_initial_ok (serviceName : string) (callback : Callback)
      (w w' : World) :
  Watch_initial serviceName callback w = (Ok tt, w') ->
  exists services w1,
    Discover serviceName w = (Ok services, w1)
    /\ w' = emit (callback_output Sync callback services) w1
    /\ output w' = output w ++ [callback_output Sync callback services].
Proof.
  unfold Watch_initial, bind, invoke, modify. intros H.
  pose proof (Discover_frame serviceName w) as F.
  destruct (Discover serviceName w) as [ [ services | e ] w1 ];
    [ | discriminate H ].
  inversion H; subst. exists services, w1. repeat split.
  simpl in *. destruct F as (_ & _ & _ & _ & _ & Ho & _). now rewrite Ho.
Qed.

(** C4. When [Watch] returns without error, the callback has been run by
    the caller, after whatever was output before, with the services
    [Discover] returned for the name at that moment. *)
Theorem Watch_delivers_initial_snapshot :
  forall (serviceName : string) (callback : Callback) (w w' : World),
    Watch serviceName callback w = (Ok tt, w') ->
    exists services w1,
      Discover serviceName (snd (Watch_go serviceName callback w))
      = (Ok services, w1)
      /\ output w' = output w ++ [callback_output Sync callback services].
Proof.
  intros serviceName callback w w' H.
  unfold Watch, bind in H. unfold Watch_go, modify in *. cbn [snd].
  destruct (Watch_initial_ok _ _ _ _ H) as (services & w1 & HD & _ & Ho).
  exists services, w1. split; [ exact HD | exact Ho ].
Qed.

Lemma Watch_delivers_initial_snapshot_witness :
  exists services w1 w',
    Discover "auth"
      (snd (Watch_go "auth" (UserCallback 0)
              (snd (Register "auth" "10.0.0.1:9000" "v1" empty_world))))
    = (Ok services, w1)
    /\ services = [mkServiceInfo "auth" "10.0.0.1:9000" "v1"]
    /\ output w' = [Called Sync 0 services].
Proof.
  destruct (Watch_delivers_initial_snapshot "auth" (UserCallback 0)
              (snd (Register "auth" "10.0.0.1:9000" "v1" empty_world))
              (snd (Watch "auth" (UserCallback 0)
                      (snd (Register "auth" "10.0.0.1:9000" "v1"
                              empty_world)))))
    as (services & w1 & HD & Ho).
  - vm_compute. reflexivity.
  - exists services, w1. eexists. split; [ exact HD | ].
    vm_compute in HD. inversion HD; subst. split; [ reflexivity | ].
    exact Ho.
Defined.

(** ** keepAlive *)

Lemma nth_error_replace_nth {A : Type} (l : list A) (i : nat) (x y : A) :
  nth_error l i = Some y -> nth_error (replace_nth i x l) i = Some x.
Proof.
  revert i. induction l as [ | a l IH ]; intros [ | i ] H; simpl in *;
    try discriminate; auto.
Qed.

(** C8. A [keepAlive] goroutine in its loop returns when it receives the
    nil response, and when the context is done; these are the only ways
    out of the loop. On the nil response it prints its notice and does
    nothing else: the store, the leases and the other goroutines are as
    before, so nothing is registered again. Once returned it never runs
    again. *)
Theorem keepAlive_loop_exits :
  forall (w : World) (i : nat) (leaseID : LeaseID) (key value : string)
         (keepAliveChan : list (option Z)),
    nth_error (goroutines w) i
    = Some (keepAlive leaseID key value (KaLoop keepAliveChan)) ->
    let returned := keepAlive leaseID key value KaDone in
    (hd_error keepAliveChan = Some None ->
     exists w',
       step i Recv w = Some w'
       /\ goroutines w' = replace_nth i returned (goroutines w)
       /\ kvs w' = kvs w /\ leases w' = leases w
       /\ nextLease w' = nextLease w /\ faults w' = faults w
       /\ output w'
          = output w
            ++ [Printed ("lease expired, try to re-register service "
                         ++ key ++ nl)]
       /\ forall c, step i c w' = None)
    /\ (done w = true ->
        exists w',
          step i CtxDone w = Some w'
          /\ goroutines w' = replace_nth i returned (goroutines w)
          /\ kvs w' = kvs w /\ leases w' = leases w
          /\ nextLease w' = nextLease w /\ faults w' = faults w
          /\ output w' = output w
          /\ forall c, step i c w' = None)
    /\ (forall c w',
          step i c w = Some w' ->
          nth_error (goroutines w') i = Some returned ->
          (c = Recv /\ hd_error keepAliveChan = Some None)
          \/ (c = CtxDone /\ done w = true)).
Proof.
  intros w i leaseID key value keepAliveChan Hi returned.
  assert (Hret : forall w1,
             goroutines w1 = replace_nth i returned (goroutines w) ->
             forall c, step i c w1 = None).
  { intros w1 Hg c. unfold step. rewrite Hg.
    rewrite (nth_error_replace_nth _ _ _ _ Hi). reflexivity. }
  split; [ | split ].
  - intros Hnil. destruct keepAliveChan as [ | [ t | ] rest ];
      try discriminate Hnil.
    unfold step. rewrite Hi. eexists. split; [ reflexivity | ].
    repeat split. apply Hret. reflexivity.
  - intros Hd. unfold step. rewrite Hi, Hd. eexists.
    split; [ reflexivity | ]. repeat split. apply Hret. reflexivity.
  - intros c w' Hs Hr. unfold step in Hs. rewrite Hi in Hs.
    destruct c.
    + destruct (done w); [ auto | discriminate Hs ].
    + destruct keepAliveChan as [ | [ t | ] rest ]; try discriminate Hs.
      * inversion Hs; subst. unfold set_goroutine, set_goroutines in Hr.
        simpl in Hr. rewrite (nth_error_replace_nth _ _ _ _ Hi) in Hr.
        discriminate Hr.
      * auto.
Qed.

Lemma keepAlive_loop_exits_witness :
  let w := mkWorld [] [(1, 10)] 2 [] 10 true
                   [keepAlive 1 "/services/auth/a" "{}" (KaLoop [None])] [] in
  (exists w', step 0 Recv w = Some w'
              /\ goroutines w' = [keepAlive 1 "/services/auth/a" "{}" KaDone]
              /\ kvs w' = [])
  /\ (exists w', step 0 CtxDone w = Some w' /\ output w' = []).
Proof.
  intros w.
  destruct (keepAlive_loop_exits w 0%nat 1 "/services/auth/a" "{}" [None]
              eq_refl) as (Hnil & Hdone & _).
  split.
  - destruct (Hnil eq_refl) as (w' & Hs & Hg & Hk & _).
    exists w'. repeat split; assumption.
  - destruct (Hdone eq_refl) as (w' & Hs & _ & _ & _ & _ & _ & Ho & _).
    exists w'. split; assumption.
Defined.

(** ** Discover: no check of a record against its key *)

Lemma decode_all_In (l : list KeyValue) (r : ServiceInfo) :
  In r (decode_all l []) ->
  exists kv, In kv l /\ json.Unmarshal (Value kv) = Ok r.
Proof.
  rewrite decode_all_spec. cbn [app]. intros H.
  apply in_map_iff in H. destruct H as (kv & Hd & Hin).
  apply filter_In in Hin. destruct Hin as (Hin & Hwf).
  exists kv. split; [ exact Hin | ].
  unfold decoded in Hd. unfold well_formed in Hwf.
  destruct (json.Unmarshal (Value kv)); [ now subst | discriminate ].
Qed.

(** C10. Every record [Discover] returns is the decoding of the payload
    of some entry under the prefix of the queried name, whatever the key
    of that entry and the queried name are; and there are store contents
    for which a returned record has another name than the queried one and
    another address than the one in its key. *)
Theorem Discover_no_cross_check :
  (forall (serviceName : string) (w : World) (services : list ServiceInfo)
          (r : ServiceInfo),
      fst (Discover serviceName w) = Ok services ->
      In r services ->
      exists kv,
        In kv (entries serviceName w)
        /\ json.Unmarshal (Value kv) = Ok r)
  /\ (exists (w : World) (serviceName address payload : string)
             (r : ServiceInfo),
         kvs w = [mkKeyValue (service_key serviceName address) payload 1]
         /\ fst (Discover serviceName w) = Ok [r]
         /\ Name r <> serviceName
         /\ Address r <> address).
Proof.
  split.
  - intros serviceName w services r HD Hin.
    unfold Discover, kv_Get_WithPrefix, bind, gets, ret in HD.
    destruct (call w) as [ [ [] | e ] w1 ] eqn:Hc; simpl in HD;
      [ | discriminate HD ].
    inversion HD; subst. apply decode_all_In in Hin.
    destruct Hin as (kv & Hin & Hkv). exists kv. split; [ | exact Hkv ].
    unfold entries. pose proof (call_frame w) as F. rewrite Hc in F.
    simpl in F. destruct F as (Hk & _). now rewrite <- Hk.
  - match eval vm_compute in (json.Marshal
                                (mkServiceInfo "billing" "10.9.9.9:1" "v7"))
    with Ok ?p =>
      exists (set_kvs [mkKeyValue (service_key "auth" "10.0.0.1:9000") p 1]
                      empty_world),
             "auth", "10.0.0.1:9000", p,
             (mkServiceInfo "billing" "10.9.9.9:1" "v7")
    end.
    repeat split; try (vm_compute; reflexivity); vm_compute; discriminate.
Qed.

Lemma Discover_no_cross_check_witness :
  let w :=
    set_kvs [mkKeyValue "/services/auth/10.0.0.1:9000" "{}" 1] empty_world in
  exists kv,
    In kv (entries "auth" w)
    /\ json.Unmarshal (Value kv) = Ok zeroServiceInfo.
Proof.
  intros w.
  apply (proj1 Discover_no_cross_check "auth" w [zeroServiceInfo]
               zeroServiceInfo).
  - vm_compute. reflexivity.
  - left. reflexivity.
Defined.

(** ** What an action can output *)

Lemma emits_same (P : Output -> Prop) (w w' : World) :
  output w' = output w -> emits P w w'.
Proof.
  intros H. exists []. rewrite app_nil_r. split; [ exact H | constructor ].
Qed.

Lemma emits_trans (P : Output -> Prop) (w1 w2 w3 : World) :
  emits P w1 w2 -> emits P w2 w3 -> emits P w1 w3.
Proof.
  intros (l1 & H1 & F1) (l2 & H2 & F2). exists (l1 ++ l2). split.
  - now rewrite H2, H1, app_assoc.
  - apply Forall_app. now split.
Qed.

Lemma emits_weaken (P Q : Output -> Prop) (w w' : World) :
  (forall o, P o -> Q o) -> emits P w w' -> emits Q w w'.
Proof.
  intros HPQ (l & H & F). exists l. split; [ exact H | ].
  eapply Forall_impl; eauto.
Qed.

Lemma commit_frame (ops : list Op) (w : World) :
  output (commit ops w) = output w /\ done (commit ops w) = done w
  /\ faults (commit ops w) = faults w.
Proof.
  unfold commit. destruct (fold_left apply_op ops (kvs w, [])) as [ l evs ].
  now repeat split.
Qed.

Lemma quiet_ret {A : Type} (a : A) : quiet (ret a).
Proof. intros w. now split. Qed.

Lemma quiet_lift {A : Type} (r : result A) : quiet (lift r).
Proof. intros w. now split. Qed.

Lemma quiet_gets {A : Type} (f : World -> A) : quiet (gets f).
Proof. intros w. now split. Qed.

Lemma quiet_modify (f : World -> World) :
  (forall w, output (f w) = output w /\ done (f w) = done w) ->
  quiet (modify f).
Proof. intros H w. apply H. Qed.

Lemma quiet_bind {A B : Type} (m : M A) (k : A -> M B) :
  quiet m -> (forall a, quiet (k a)) -> quiet (bind m k).
Proof.
  intros Hm Hk w. unfold bind. specialize (Hm w).
  destruct (m w) as [ [ a | e ] w1 ]; cbn [snd] in *; [ | exact Hm ].
  destruct (Hk a w1) as (Ho & Hd). destruct Hm as (Ho1 & Hd1).
  split; congruence.
Qed.

Lemma quiet_call : quiet call.
Proof.
  intros w. destruct (call_frame w) as (_ & _ & _ & Hd & _ & Ho & _).
  now split.
Qed.

Lemma quiet_request {A : Type} (effect : M A) :
  quiet effect -> quiet (request effect).
Proof.
  intros He w. unfold request. destruct (quiet_call w) as (Ho & Hd).
  destruct (He (snd (call w))) as (Ho1 & Hd1).
  destruct (call w) as [ [ [] | e ] w1 ]; cbn [snd] in *.
  - split; congruence.
  - destruct e; cbn [snd]; split; congruence.
Qed.

Lemma quiet_lease_KeepAlive (id : LeaseID) : quiet (lease_KeepAlive id).
Proof.
  intros w. unfold lease_KeepAlive.
  destruct (faults w) as [ | [ e | ] r ]; now split.
Qed.

Lemma quiet_client_Close (closed : bool) : quiet (client_Close closed).
Proof.
  intros w. unfold client_Close. destruct closed; [ now split | ].
  destruct (faults w) as [ | [ e | ] r ]; now split.
Qed.

Lemma quiet_commit (ops : list Op) : quiet (modify (commit ops)).
Proof.
  apply quiet_modify. intros w.
  destruct (commit_frame ops w) as (Ho & Hd & _). now split.
Qed.

Create HintDb quiet.

#[local] Hint Resolve quiet_ret quiet_lift quiet_gets quiet_call
  quiet_commit quiet_client_Close : quiet.

Ltac quiet :=
  repeat first
    [ apply quiet_bind; [ | intros ? ]
    | apply quiet_request
    | solve [ auto with quiet ]
    | apply quiet_modify; intros ?; now split ].

Lemma quiet_Register (serviceName address version : string) :
  quiet (Register serviceName address version).
Proof. unfold Register, lease_Grant, kv_Put. quiet. Qed.

Lemma quiet_Unregister (serviceName address : string) :
  quiet (Unregister serviceName address).
Proof. unfold Unregister, kv_Delete. quiet. Qed.

Lemma quiet_Discover (serviceName : string) : quiet (Discover serviceName).
Proof. unfold Discover, kv_Get_WithPrefix. quiet. Qed.

Lemma quiet_Watch_go (serviceName : string) (callback : Callback) :
  quiet (Watch_go serviceName callback).
Proof. unfold Watch_go. quiet. Qed.

(** Every action keeps a context that is done done. *)
Lemma Close_done (w : World) :
  done (snd (Close w)) = true /\ output (snd (Close w)) = output w.
Proof.
  unfold Close, bind, gets, modify.
  destruct (quiet_client_Close (done w) (set_done true w)) as (Ho & Hd).
  rewrite Ho, Hd. now split.
Qed.

Lemma Watch_initial_emits (serviceName : string) (callback : Callback)
      (w : World) :
  let w' := snd (Watch_initial serviceName callback w) in
  done w' = done w
  /\ emits (fun o => origin o = Some Sync) w w'
  /\ (done w = true -> output w' = output w).
Proof.
  unfold Watch_initial, bind, invoke, modify.
  pose proof (quiet_Discover serviceName w) as (Ho & Hd).
  pose proof (Discover_done serviceName w) as HD.
  destruct (Discover serviceName w) as [ [ services | e ] w1 ];
    cbn [snd] in *.
  - split; [ exact Hd | split ].
    + exists [callback_output Sync callback services]. cbn [output emit].
      rewrite Ho. split; [ reflexivity | ].
      repeat constructor. now destruct callback.
    + intros Hdone. specialize (HD Hdone). discriminate HD.
  - split; [ exact Hd | split ]; [ now apply emits_same | auto ].
Qed.

Lemma api_emits (a : Api) (w : World) :
  (done w = true -> done (api a w) = true)
  /\ emits (fun o => origin o = Some Sync) w (api a w)
  /\ (done w = true -> output (api a w) = output w).
Proof.
  destruct a; cbn [api etcdResolver_ResolveNow etcdResolver_Close];
    try (match goal with |- context [snd (?m w)] =>
           assert (Hq : quiet m)
             by first [ apply quiet_Register | apply quiet_Unregister
                      | apply quiet_Discover | apply quiet_Watch_go ];
           destruct (Hq w) as (Ho & Hd);
           split; [ congruence | split; [ now apply emits_same | auto ] ]
         end).
  - destruct (Watch_initial_emits serviceName callback w) as (Hd & He & Ho).
    split; [ congruence | split; assumption ].
  - destruct (Close_done w) as (Hd & Ho).
    split; [ auto | split; [ now apply emits_same | auto ] ].
  - split; [ auto | split; [ now apply emits_same | auto ] ].
  - split; [ auto | split; [ now apply emits_same | auto ] ].
Qed.

Lemma on_event_emits (i : nat) (serviceName : string) (callback : Callback)
      (event : Event) (w : World) :
  let w' := on_event i serviceName callback event w in
  done w' = done w
  /\ emits (fun o => origin o = None \/ origin o = Some (Async i)) w w'
  /\ (done w = true -> emits (fun o => origin o = None) w w').
Proof.
  unfold on_event, invoke, modify.
  set (line := Printed _). set (w1 := emit line w).
  pose proof (quiet_Discover serviceName w1) as (Ho & Hd).
  pose proof (Discover_done serviceName w1) as HD.
  destruct (Discover serviceName w1) as [ [ services | e ] w2 ];
    cbn [snd] in *.
  - split; [ exact Hd | split ].
    + exists [line; callback_output (Async i) callback services].
      cbn [output emit]. rewrite Ho. subst w1. cbn [output emit].
      rewrite <- app_assoc. split; [ reflexivity | ].
      apply Forall_cons; [ now left | ].
      apply Forall_cons; [ right; now destruct callback | apply Forall_nil ].
    + intros Hdone. specialize (HD Hdone). discriminate HD.
  - split; [ exact Hd | ].
    assert (He : forall P : Output -> Prop, P line -> emits P w w2).
    { intros P HP. exists [line]. rewrite Ho. subst w1.
      split; [ reflexivity | ].
      apply Forall_cons; [ exact HP | apply Forall_nil ]. }
    split; [ apply He; now left | intros _; now apply He ].
Qed.

Lemma step_emits (i : nat) (c : Choice) (w w' : World) :
  step i c w = Some w' ->
  done w' = done w
  /\ emits (fun o => origin o = None \/ origin o = Some (Async i)) w w'
  /\ (done w = true -> emits (fun o => origin o = None) w w').
Proof.
  unfold step. intros H.
  assert (Hsame : forall w1, output w1 = output w -> done w1 = done w ->
            done w1 = done w
            /\ emits (fun o => origin o = None \/ origin o = Some (Async i))
                     w w1
            /\ (done w = true -> emits (fun o => origin o = None) w w1)).
  { intros w1 Ho Hd. split; [ exact Hd | ].
    split; [ | intros _ ]; now apply emits_same. }
  assert (Hline : forall w1 line,
            output w1 = output w ++ [Printed line] -> done w1 = done w ->
            done w1 = done w
            /\ emits (fun o => origin o = None \/ origin o = Some (Async i))
                     w w1
            /\ (done w = true -> emits (fun o => origin o = None) w w1)).
  { intros w1 line Ho Hd. split; [ exact Hd | ].
    split; [ | intros _ ]; exists [Printed line];
      (split; [ exact Ho | ]);
      (apply Forall_cons; [ | apply Forall_nil ]); [ now left | reflexivity ]. }
  destruct (nth_error (goroutines w) i) as [ [ leaseID key value pc
                                             | serviceName callback pc ] | ];
    [ | | discriminate H ].
  - destruct pc as [ | keepAliveChan | ].
    + destruct (quiet_lease_KeepAlive leaseID w) as (Ho & Hd).
      destruct (lease_KeepAlive leaseID w) as [ [ [] | e ] w1 ];
        cbn [snd] in *;
        inversion H; subst; clear H.
      * apply Hsame; cbn [set_goroutine set_goroutines output done];
          assumption.
      * eapply Hline; cbn [set_goroutine set_goroutines output done emit];
          [ rewrite Ho; reflexivity | assumption ].
    + destruct c.
      * destruct (done w) eqn:Hd; inversion H; subst; clear H.
        apply Hsame; [ reflexivity | exact Hd ].
      * destruct keepAliveChan as [ | [ t | ] rest ]; inversion H; subst;
          clear H.
        -- apply Hsame; reflexivity.
        -- eapply Hline; reflexivity.
    + discriminate H.
  - destruct pc as [ | watchChan events | ].
    + inversion H; subst; clear H. apply Hsame; reflexivity.
    + destruct events as [ | event events ].
      * destruct c.
        -- destruct (done w) eqn:Hd; inversion H; subst; clear H.
           apply Hsame; [ reflexivity | exact Hd ].
        -- destruct watchChan as [ | batch rest ].
           ++ destruct (done w) eqn:Hd; inversion H; subst; clear H.
              apply Hsame; [ reflexivity | exact Hd ].
           ++ inversion H; subst; clear H. apply Hsame; reflexivity.
      * inversion H; subst; clear H.
        destruct (on_event_emits i serviceName callback event w)
          as (Hd & He & Hdone).
        split; [ exact Hd | split ].
        -- destruct He as (l & Ho & F). exists l. split; [ exact Ho | exact F ].
        -- intros Hw. destruct (Hdone Hw) as (l & Ho & F).
           exists l. split; [ exact Ho | exact F ].
    + discriminate H.
Qed.

Lemma respond_frame (i : nat) (resp : option Z) (w w' : World) :
  respond i resp w = Some w' -> output w' = output w /\ done w' = done w.
Proof.
  unfold respond. intros H.
  destruct (nth_error (goroutines w) i) as [ [ ? ? ? [ | ? | ] | ] | ];
    inversion H; subst. now split.
Qed.

(** What one action can output: lines, snapshots run by the caller of an
    operation, and snapshots run by the goroutine that takes the step.
    Once the context is done, only lines, and the context stays done. *)
Lemma exec_emits (a : Action) (w w' : World) :
  exec a w = Some w' ->
  (done w = true -> done w' = true)
  /\ emits (fun o => origin o = None \/ origin o = Some Sync
                     \/ exists i c, a = Step i c
                                    /\ origin o = Some (Async i)) w w'
  /\ (done w = true -> emits (fun o => origin o = None) w w').
Proof.
  destruct a as [ ops | i resp | i c | a ]; cbn [exec]; intros H.
  - inversion H; subst. destruct (commit_frame ops w) as (Ho & Hd & _).
    split; [ congruence | ]. split; [ | intros _ ]; now apply emits_same.
  - destruct (respond_frame _ _ _ _ H) as (Ho & Hd).
    split; [ congruence | ]. split; [ | intros _ ]; now apply emits_same.
  - destruct (step_emits _ _ _ _ H) as (Hd & He & Hdone).
    split; [ congruence | split; [ | exact Hdone ] ].
    eapply emits_weaken; [ | exact He ]. intros o [ Hn | Hs ]; [ now left | ].
    right; right. now exists i, c.
  - inversion H; subst. destruct (api_emits a w) as (Hd & He & Ho).
    split; [ exact Hd | split ].
    + eapply emits_weaken; [ | exact He ]. intros o Hs. now (right; left).
    + intros Hw. apply emits_same. now apply Ho.
Qed.

(** A schedule in which goroutine [i] takes no step outputs no snapshot
    of goroutine [i]. *)
Lemma run_emits_other (i : nat) (s : list Action) (w w' : World) :
  run s w = Some w' ->
  (forall c, ~ In (Step i c) s) ->
  emits (fun o => from_goroutine i o = false) w w'.
Proof.
  revert w. induction s as [ | a s IH ]; intros w H Hno; cbn [run] in H.
  - inversion H; subst. now apply emits_same.
  - destruct (exec a w) as [ w1 | ] eqn:E; [ | discriminate H ].
    eapply emits_trans.
    + destruct (exec_emits _ _ _ E) as (_ & He & _).
      eapply emits_weaken; [ | exact He ].
      intros o [ Hn | [ Hs | (j & c & Ha & Hj) ] ]; unfold from_goroutine;
        try (now rewrite Hn); try (now rewrite Hs).
      rewrite Hj. apply Nat.eqb_neq. intros ->. subst a.
      apply (Hno c). now left.
    + apply IH; [ exact H | ]. intros c Hin. apply (Hno c). now right.
Qed.

(** The output only grows. *)
Lemma run_extends (s : list Action) (w w' : World) :
  run s w = Some w' -> exists l, output w' = output w ++ l.
Proof.
  revert w. induction s as [ | a s IH ]; intros w H; cbn [run] in H.
  - inversion H; subst. exists []. now rewrite app_nil_r.
  - destruct (exec a w) as [ w1 | ] eqn:E; [ | discriminate H ].
    destruct (exec_emits _ _ _ E) as (_ & (l1 & Ho1 & _) & _).
    destruct (IH _ H) as (l2 & Ho2). exists (l1 ++ l2).
    now rewrite Ho2, Ho1, app_assoc.
Qed.

(** Once the context is done, no schedule delivers a snapshot. *)
Lemma run_done (s : list Action) (w w' : World) :
  done w = true ->
  run s w = Some w' ->
  done w' = true /\ deliveries (output w') = deliveries (output w).
Proof.
  revert w. induction s as [ | a s IH ]; intros w Hd H; cbn [run] in H.
  - inversion H; subst. now split.
  - destruct (exec a w) as [ w1 | ] eqn:E; [ | discriminate H ].
    destruct (exec_emits _ _ _ E) as (Hd1 & _ & He).
    destruct (IH w1 (Hd1 Hd) H) as (Hd' & Ho'). split; [ exact Hd' | ].
    rewrite Ho'. destruct (He Hd) as (l & Ho & F). rewrite Ho.
    unfold deliveries. rewrite filter_app.
    assert (Hl : filter is_delivery l = []).
    { clear Ho. induction F as [ | o l Hn F IHl ]; cbn [filter];
        [ reflexivity | ].
      unfold is_delivery at 1. now rewrite Hn. }
    rewrite Hl. apply app_nil_r.
Qed.

(** ** The watcher: one query and one delivery for every event *)

Lemma on_event_ok (i : nat) (serviceName : string) (callback : Callback)
      (event : Event) (w : World) :
  done w = false -> hd None (faults w) = None ->
  on_event i serviceName callback event w
  = emit (callback_output (Async i) callback
            (decode_all (entries serviceName w) []))
         (set_faults (tl (faults w)) (emit (Printed (changed_line event)) w)).
Proof.
  intros Hd Hf. unfold on_event.
  rewrite Discover_ok by assumption. reflexivity.
Qed.

Lemma watcher_ranges_over_events (events : list Event) :
  forall (w : World) (i : nat) (serviceName : string) (callback : Callback)
         (watchChan : list (list Event)),
    nth_error (goroutines w) i
    = Some (watcher serviceName callback (WLoop watchChan events)) ->
    done w = false ->
    no_fault (List.length events) (faults w) ->
    exists w',
      run (repeat (Step i Recv) (List.length events)) w = Some w'
      /\ nth_error (goroutines w') i
         = Some (watcher serviceName callback (WLoop watchChan []))
      /\ kvs w' = kvs w
      /\ output w'
         = output w
           ++ batch_output i callback
                (decode_all (entries serviceName w) []) events.
Proof.
  induction events as [ | event events IH ];
    intros w i serviceName callback watchChan Hi Hd Hf.
  - exists w. cbn. rewrite app_nil_r. auto.
  - cbn [List.length repeat run exec]. destruct Hf as (Hf & Hfs).
    unfold step at 1. rewrite Hi.
    rewrite on_event_ok by assumption.
    set (w1 := set_goroutine i _ _).
    destruct (IH w1 i serviceName callback watchChan)
      as (w' & Hr & Hi' & Hk & Ho).
    + subst w1. cbn [set_goroutine set_goroutines goroutines emit set_faults].
      eapply nth_error_replace_nth. exact Hi.
    + exact Hd.
    + exact Hfs.
    + exists w'. split; [ exact Hr | ]. split; [ exact Hi' | ].
      split; [ exact Hk | ]. rewrite Ho. subst w1.
      cbn [set_goroutine set_goroutines output emit set_faults batch_output
           flat_map].
      rewrite <- !app_assoc. reflexivity.
Qed.

Lemma deliveries_of_batch_output (i : nat) (callback : Callback)
      (services : list ServiceInfo) (batch : list Event) :
  List.length (deliveries_of i (batch_output i callback services batch))
  = List.length batch.
Proof.
  induction batch as [ | event batch IH ]; [ reflexivity | ].
  unfold deliveries_of, batch_output in *. cbn [flat_map app filter].
  assert (H : from_goroutine i (callback_output (Async i) callback services)
              = true).
  { unfold from_goroutine. destruct callback; cbn; apply Nat.eqb_refl. }
  rewrite H. cbn [from_goroutine origin List.length]. now rewrite IH.
Qed.

(** C1 (amended). When the goroutine of a watch takes a batch from its
    channel, it ranges over the events of the batch: for every event it
    prints a line, runs [Discover] and, the query succeeding, hands the
    snapshot to the callback. A batch of [n] events whose queries succeed
    gives [n] deliveries, and the goroutine is back at its [select]. *)
Theorem watcher_delivers_once_per_event :
  forall (w : World) (i : nat) (serviceName : string) (callback : Callback)
         (batch : list Event) (watchChan : list (list Event)),
    nth_error (goroutines w) i
    = Some (watcher serviceName callback (WLoop (batch :: watchChan) [])) ->
    done w = false ->
    no_fault (List.length batch) (faults w) ->
    exists w',
      run (repeat (Step i Recv) (S (List.length batch))) w = Some w'
      /\ nth_error (goroutines w') i
         = Some (watcher serviceName callback (WLoop watchChan []))
      /\ output w'
         = output w
           ++ batch_output i callback
                (decode_all (entries serviceName w) []) batch
      /\ List.length (deliveries_of i (output w'))
         = (List.length (deliveries_of i (output w)) + List.length batch)%nat.
Proof.
  intros w i serviceName callback batch watchChan Hi Hd Hf.
  cbn [repeat run exec]. unfold step at 1. rewrite Hi.
  set (w1 := set_goroutine i _ w).
  destruct (watcher_ranges_over_events batch w1 i serviceName callback
              watchChan) as (w' & Hr & Hi' & Hk & Ho).
  - subst w1. cbn [set_goroutine set_goroutines goroutines].
    eapply nth_error_replace_nth. exact Hi.
  - exact Hd.
  - exact Hf.
  - exists w'. split; [ exact Hr | ]. split; [ exact Hi' | ].
    assert (Ho' : output w'
                  = output w
                    ++ batch_output i callback
                         (decode_all (entries serviceName w) []) batch)
      by exact Ho.
    split; [ exact Ho' | ]. rewrite Ho'. unfold deliveries_of.
    rewrite filter_app, length_app. f_equal.
    apply deliveries_of_batch_output.
Qed.

Lemma watcher_delivers_once_per_event_witness :
  exists w',
    run [Step 0 Recv; Step 0 Recv; Step 0 Recv] two_event_world = Some w'
    /\ List.length (deliveries_of 0 (output w')) = 2%nat.
Proof.
  destruct (watcher_delivers_once_per_event two_event_world 0 "auth"
              (UserCallback 0)
              [mkEvent PUT (mkKeyValue "/services/auth/10.0.0.1:9000" "{}" 0);
               mkEvent PUT (mkKeyValue "/services/auth/10.0.0.2:9000" "{}" 0)]
              [])
    as (w' & Hr & _ & _ & Hn).
  - vm_compute. reflexivity.
  - reflexivity.
  - cbn. auto.
  - exists w'. split; [ exact Hr | exact Hn ].
Defined.

(** C1 as stated fails: a batch of two events gives two deliveries, not
    one. *)
Lemma watcher_not_once_per_batch :
  ~ (forall (w w' : World) (i : nat) (serviceName : string)
            (callback : Callback) (batch : list Event)
            (watchChan : list (list Event)),
        nth_error (goroutines w) i
        = Some (watcher serviceName callback
                        (WLoop (batch :: watchChan) [])) ->
        batch <> [] ->
        run (repeat (Step i Recv) (S (List.length batch))) w = Some w' ->
        List.length (deliveries_of i (output w'))
        = S (List.length (deliveries_of i (output w)))).
Proof.
  intros H.
  specialize (H two_event_world
                (world_after [Step 0 Recv; Step 0 Recv; Step 0 Recv]
                             two_event_world)
                0%nat "auth" (UserCallback 0)
                [mkEvent PUT (mkKeyValue "/services/auth/10.0.0.1:9000" "{}" 0);
                 mkEvent PUT (mkKeyValue "/services/auth/10.0.0.2:9000" "{}" 0)]
                []).
  vm_compute in H.
  specialize (H eq_refl ltac:(discriminate) eq_refl). discriminate H.
Qed.

(** ** Goroutines stay the goroutines they are *)

Lemma later_refl (g : Goroutine) : later g g.
Proof.
  destruct g as [ leaseID key value pc | serviceName callback pc ];
    split; auto.
Qed.

Lemma later_trans (g1 g2 g3 : Goroutine) :
  later g1 g2 -> later g2 g3 -> later g1 g3.
Proof.
  intros (H12 & R12) (H23 & R23). split.
  - destruct g1, g2, g3; try contradiction; intuition congruence.
  - intros H1. specialize (R12 H1). subst g2. auto.
Qed.

Lemma later_notify (evs : list Event) (g : Goroutine) :
  later g (notify evs g).
Proof.
  destruct g as [ leaseID key value pc | serviceName callback pc ];
    [ apply later_refl | ].
  destruct pc as [ | watchChan events | ]; try apply later_refl.
  cbn [notify]. destruct (filter _ evs); [ apply later_refl | ].
  split; [ now split | discriminate ].
Qed.

Lemma nth_error_replace_nth_other {A : Type} (l : list A) (i j : nat)
      (x : A) :
  i <> j -> nth_error (replace_nth j x l) i = nth_error l i.
Proof.
  revert i j. induction l as [ | y l IH ]; intros i j Hij;
    [ now destruct j | ].
  destruct j, i; cbn [replace_nth nth_error]; try reflexivity.
  - now elim Hij.
  - apply IH. congruence.
Qed.

(** Goroutine [j] moves on in a world whose goroutines are those of [w]. *)
Lemma set_goroutine_later (w w1 : World) (j : nat) (gj gj' : Goroutine) :
  goroutines w1 = goroutines w ->
  nth_error (goroutines w) j = Some gj ->
  later gj gj' ->
  forall i g,
    nth_error (goroutines w) i = Some g ->
    exists g', nth_error (goroutines (set_goroutine j gj' w1)) i = Some g'
               /\ later g g'.
Proof.
  intros Hg Hj Hl i g Hi.
  cbn [set_goroutine set_goroutines goroutines]. rewrite Hg.
  destruct (Nat.eq_dec i j) as [ -> | Hij ].
  - exists gj'. split; [ apply (nth_error_replace_nth _ _ _ _ Hj) | ].
    congruence.
  - exists g. rewrite (nth_error_replace_nth_other _ _ _ _ Hij).
    split; [ exact Hi | apply later_refl ].
Qed.

Lemma keeps_goroutines_same {A : Type} (m : M A) :
  (forall w, goroutines (snd (m w)) = goroutines w) -> keeps_goroutines m.
Proof.
  intros H w i g Hi. exists g. rewrite H.
  split; [ exact Hi | apply later_refl ].
Qed.

Lemma keeps_goroutines_bind {A B : Type} (m : M A) (k : A -> M B) :
  keeps_goroutines m -> (forall a, keeps_goroutines (k a)) ->
  keeps_goroutines (bind m k).
Proof.
  intros Hm Hk w i g Hi. unfold bind.
  destruct (Hm w i g Hi) as (g1 & H1 & L1).
  destruct (m w) as [ [ a | e ] w1 ]; cbn [snd] in *.
  - destruct (Hk a w1 i g1 H1) as (g2 & H2 & L2).
    exists g2. split; [ exact H2 | now apply (later_trans g g1 g2) ].
  - now exists g1.
Qed.

Lemma keeps_goroutines_call : keeps_goroutines call.
Proof.
  apply keeps_goroutines_same. intros w.
  now destruct (call_frame w) as (_ & _ & _ & _ & H & _).
Qed.

Lemma keeps_goroutines_request {A : Type} (effect : M A) :
  keeps_goroutines effect -> keeps_goroutines (request effect).
Proof.
  intros He w i g Hi. unfold request.
  destruct (keeps_goroutines_call w i g Hi) as (g1 & H1 & L1).
  destruct (call w) as [ [ [] | e ] w1 ]; cbn [snd] in *.
  - destruct (He w1 i g1 H1) as (g2 & H2 & L2).
    exists g2. split; [ exact H2 | now apply (later_trans g g1 g2) ].
  - destruct e; cbn [snd]; try (now exists g1).
    destruct (He w1 i g1 H1) as (g2 & H2 & L2).
    exists g2. split; [ exact H2 | now apply (later_trans g g1 g2) ].
Qed.

Lemma commit_later (ops : list Op) (w : World) (i : nat) (g : Goroutine) :
  nth_error (goroutines w) i = Some g ->
  exists g', nth_error (goroutines (commit ops w)) i = Some g'
             /\ later g g'.
Proof.
  intros Hi. unfold commit.
  destruct (fold_left apply_op ops (kvs w, [])) as [ l evs ].
  cbn [set_goroutines goroutines set_kvs]. exists (notify evs g).
  split; [ now rewrite nth_error_map, Hi | apply later_notify ].
Qed.

Lemma keeps_goroutines_commit (ops : list Op) :
  keeps_goroutines (modify (commit ops)).
Proof. intros w i g Hi. now apply commit_later. Qed.

Lemma keeps_goroutines_go (g0 : Goroutine) : keeps_goroutines (modify (go g0)).
Proof.
  intros w i g Hi. exists g. cbn [modify snd go set_goroutines goroutines].
  split; [ | apply later_refl ].
  rewrite nth_error_app1; [ exact Hi | ].
  apply nth_error_Some. congruence.
Qed.

Lemma keeps_goroutines_lease_KeepAlive (id : LeaseID) :
  keeps_goroutines (lease_KeepAlive id).
Proof.
  apply keeps_goroutines_same. intros w. unfold lease_KeepAlive.
  destruct (faults w) as [ | [ e | ] r ]; reflexivity.
Qed.

Lemma keeps_goroutines_client_Close (closed : bool) :
  keeps_goroutines (client_Close closed).
Proof.
  apply keeps_goroutines_same. intros w. unfold client_Close.
  destruct closed; [ reflexivity | ].
  destruct (faults w) as [ | [ e | ] r ]; reflexivity.
Qed.

Lemma keeps_goroutines_Discover (serviceName : string) :
  keeps_goroutines (Discover serviceName).
Proof.
  apply keeps_goroutines_same. intros w.
  now destruct (Discover_frame serviceName w) as (_ & _ & _ & _ & H & _).
Qed.

Lemma keeps_goroutines_invoke (by_ : Origin) (callback : Callback)
      (services : list ServiceInfo) :
  keeps_goroutines (invoke by_ callback services).
Proof. now apply keeps_goroutines_same. Qed.

Create HintDb goroutines.

#[local] Hint Resolve keeps_goroutines_call keeps_goroutines_commit
  keeps_goroutines_go keeps_goroutines_lease_KeepAlive
  keeps_goroutines_client_Close keeps_goroutines_Discover
  keeps_goroutines_invoke : goroutines.

Ltac keeps_goroutines :=
  repeat first
    [ apply keeps_goroutines_bind; [ | intros ? ]
    | apply keeps_goroutines_request
    | solve [ auto with goroutines ]
    | apply keeps_goroutines_same; intros ?; reflexivity ].

Lemma api_later (a : Api) (w : World) (i : nat) (g : Goroutine) :
  nth_error (goroutines w) i = Some g ->
  exists g', nth_error (goroutines (api a w)) i = Some g' /\ later g g'.
Proof.
  revert w i g.
  destruct a; cbn [api etcdResolver_ResolveNow etcdResolver_Close];
    try (intros w i g Hi; exists g; split; [ exact Hi | apply later_refl ]);
    match goal with
    | |- forall w i g, _ -> exists g', nth_error (goroutines (snd (?m w))) i
                                       = Some g' /\ _ =>
        change (keeps_goroutines m)
    end;
    unfold Register, Unregister, Watch_go, Watch_initial, Close,
      lease_Grant, kv_Put, kv_Delete;
    keeps_goroutines.
Qed.

Lemma on_event_goroutines (i : nat) (serviceName : string)
      (callback : Callback) (event : Event) (w : World) :
  goroutines (on_event i serviceName callback event w) = goroutines w.
Proof.
  unfold on_event, invoke, modify.
  pose proof (Discover_frame serviceName
                (emit (Printed (changed_line event)) w)) as F.
  destruct (Discover serviceName _) as [ [ services | e ] w1 ];
    cbn [snd] in *; now destruct F as (_ & _ & _ & _ & Hg & _).
Qed.

Lemma step_later (j : nat) (c : Choice) (w w' : World) (i : nat)
      (g : Goroutine) :
  step j c w = Some w' ->
  nth_error (goroutines w) i = Some g ->
  exists g', nth_error (goroutines w') i = Some g' /\ later g g'.
Proof.
  unfold step. intros H Hi.
  assert (Hsame : exists g', nth_error (goroutines w) i = Some g'
                             /\ later g g')
    by (exists g; split; [ exact Hi | apply later_refl ]).
  destruct (nth_error (goroutines w) j)
    as [ [ leaseID key value [ | keepAliveChan | ]
         | serviceName callback [ | watchChan [ | event events ] | ] ] | ]
         eqn:Hj;
    try discriminate H.
  - pose proof (keeps_goroutines_lease_KeepAlive leaseID) as K.
    assert (Hg : goroutines (snd (lease_KeepAlive leaseID w)) = goroutines w).
    { unfold lease_KeepAlive.
      destruct (faults w) as [ | [ e | ] r ]; reflexivity. }
    destruct (lease_KeepAlive leaseID w) as [ [ [] | e ] w1 ];
      cbn [snd] in Hg; inversion H; subst; clear H;
      eapply set_goroutine_later; try exact Hj; try exact Hi;
      try (split; [ now repeat split | discriminate ]); exact Hg.
  - destruct c.
    + destruct (done w); inversion H; subst; clear H.
      eapply set_goroutine_later; try exact Hj; try exact Hi;
        [ reflexivity | split; [ now repeat split | discriminate ] ].
    + destruct keepAliveChan as [ | [ t | ] rest ]; inversion H; subst;
        clear H;
        eapply set_goroutine_later; try exact Hj; try exact Hi;
        try reflexivity; split; try (now repeat split); discriminate.
  - inversion H; subst; clear H.
    eapply set_goroutine_later; try exact Hj; try exact Hi;
      [ reflexivity | split; [ now split | discriminate ] ].
  - destruct c.
    + destruct (done w); inversion H; subst; clear H.
      eapply set_goroutine_later; try exact Hj; try exact Hi;
        [ reflexivity | split; [ now split | discriminate ] ].
    + destruct watchChan; [ destruct (done w) | ]; inversion H; subst;
        clear H; try exact Hsame.
      eapply set_goroutine_later; try exact Hj; try exact Hi;
        [ reflexivity | split; [ now split | discriminate ] ].
  - inversion H; subst; clear H.
    eapply set_goroutine_later; try exact Hj; try exact Hi;
      [ apply on_event_goroutines | split; [ now split | discriminate ] ].
Qed.

Lemma exec_later (a : Action) (w w' : World) (i : nat) (g : Goroutine) :
  exec a w = Some w' ->
  nth_error (goroutines w) i = Some g ->
  exists g', nth_error (goroutines w') i = Some g' /\ later g g'.
Proof.
  destruct a as [ ops | j resp | j c | a ]; cbn [exec]; intros H Hi.
  - inversion H; subst. now apply commit_later.
  - unfold respond in H.
    destruct (nth_error (goroutines w) j)
      as [ [ leaseID key value [ | keepAliveChan | ] | ] | ] eqn:Hj;
      inversion H; subst; clear H.
    eapply set_goroutine_later; try exact Hj; try exact Hi;
      [ reflexivity | split; [ now repeat split | discriminate ] ].
  - now apply (step_later j c w w').
  - inversion H; subst. now apply api_later.
Qed.

Lemma run_later (s : list Action) (w w' : World) (i : nat) (g : Goroutine) :
  run s w = Some w' ->
  nth_error (goroutines w) i = Some g ->
  exists g', nth_error (goroutines w') i = Some g' /\ later g g'.
Proof.
  revert w g. induction s as [ | a s IH ]; intros w g H Hi; cbn [run] in H.
  - inversion H; subst. exists g. split; [ exact Hi | apply later_refl ].
  - destruct (exec a w) as [ w1 | ] eqn:E; [ | discriminate H ].
    destruct (exec_later _ _ _ _ _ E Hi) as (g1 & H1 & L1).
    destruct (IH _ _ H H1) as (g2 & H2 & L2).
    exists g2. split; [ exact H2 | now apply (later_trans g g1 g2) ].
Qed.

(** ** The query and the callback apart *)

(** [on_event] is its two halves run one after the other, and so is
    [Watch_initial]. *)
Lemma on_event_halves (i : nat) (serviceName : string) (callback : Callback)
      (event : Event) (w : World) :
  on_event i serviceName callback event w
  = match query_event serviceName event w with
    | (Ok services, w1) =>
        snd (deliver (mkPending (Async i) callback services) w1)
    | (Err _, w1) => w1
    end.
Proof. reflexivity. Qed.

Lemma Watch_initial_halves (serviceName : string) (callback : Callback)
      (w : World) :
  Watch_initial serviceName callback w
  = match Discover serviceName w with
    | (Ok services, w1) => deliver (mkPending Sync callback services) w1
    | (Err e, w1) => (Err e, w1)
    end.
Proof. reflexivity. Qed.

Lemma query_event_done (serviceName : string) (event : Event) (w : World) :
  done w = true ->
  query_event serviceName event w
  = (Err ContextCanceled, emit (Printed (changed_line event)) w).
Proof.
  intros Hd. unfold query_event, bind, modify. now rewrite Discover_done.
Qed.

Lemma Permutation_remove_nth {A : Type} (l : list A) (k : nat) (p : A) :
  nth_error l k = Some p -> Permutation (p :: remove_nth k l) l.
Proof.
  revert k. induction l as [ | x l IH ]; intros k H.
  - now destruct k.
  - destruct k as [ | k ]; cbn [nth_error remove_nth] in *.
    + inversion H; subst. apply Permutation_refl.
    + eapply perm_trans; [ apply perm_swap | ].
      apply perm_skip. now apply IH.
Qed.

Lemma deliveries_app (l1 l2 : list Output) :
  deliveries (l1 ++ l2) = deliveries l1 ++ deliveries l2.
Proof. apply filter_app. Qed.

Lemma deliveries_pending_output (p : Pending) :
  deliveries [pending_output p] = [pending_output p].
Proof.
  unfold pending_output, callback_output.
  now destruct (pending_callback p).
Qed.

Lemma fine_exec_Whole (a : Action) (f f' : Fine) :
  fine_exec (Whole a) f = Some f' ->
  exec a (world f) = Some (world f') /\ pending f' = pending f.
Proof.
  cbn [fine_exec]. intros H.
  assert (G : match exec a (world f) with
              | Some w => Some (mkFine w (pending f))
              | None => None
              end = Some f'
              -> exec a (world f) = Some (world f')
                 /\ pending f' = pending f).
  { destruct (exec a (world f)); intros E; inversion E; subst. now split. }
  destruct a as [ ops | j resp | j c | a ]; try (apply G; exact H).
  destruct (busy j (pending f)); [ discriminate H | ]. apply G. exact H.
Qed.

(** One action under a context that is done: the only snapshot it can
    deliver is one that was pending, and nothing becomes pending. *)
Lemma fine_exec_done (a : FineAction) (f f' : Fine) :
  done (world f) = true ->
  fine_exec a f = Some f' ->
  done (world f') = true
  /\ exists delivered,
       Permutation (delivered ++ pending f') (pending f)
       /\ deliveries (output (world f'))
          = deliveries (output (world f)) ++ map pending_output delivered.
Proof.
  intros Hd H. destruct a as [ a | i | serviceName callback | k ].
  - destruct (fine_exec_Whole _ _ _ H) as (E & Hp).
    destruct (run_done [a] (world f) (world f') Hd) as (Hd' & Ho).
    { cbn [run]. now rewrite E. }
    split; [ exact Hd' | ]. exists []. rewrite Hp. cbn [app map].
    split; [ apply Permutation_refl | now rewrite app_nil_r ].
  - cbn [fine_exec] in H. destruct (busy i (pending f)); [ discriminate H | ].
    destruct (nth_error (goroutines (world f)) i)
      as [ [ | serviceName callback [ | watchChan [ | event events ] | ] ] | ];
      try discriminate H.
    rewrite (query_event_done _ _ _ Hd) in H. inversion H; subst; clear H.
    cbn [world pending set_goroutine set_goroutines done output emit].
    split; [ exact Hd | ]. exists []. cbn [app map].
    split; [ apply Permutation_refl | ].
    rewrite deliveries_app. reflexivity.
  - cbn [fine_exec] in H. rewrite (Discover_done _ _ Hd) in H.
    inversion H; subst; clear H. cbn [world pending].
    split; [ exact Hd | ]. exists []. cbn [app map].
    split; [ apply Permutation_refl | now rewrite app_nil_r ].
  - cbn [fine_exec] in H.
    destruct (nth_error (pending f) k) as [ p | ] eqn:Hk;
      [ | discriminate H ].
    inversion H; subst; clear H.
    cbn [world pending deliver invoke modify snd done output emit].
    split; [ exact Hd | ]. exists [p]. cbn [app map].
    split; [ now apply Permutation_remove_nth | ].
    rewrite deliveries_app. fold (pending_output p).
    now rewrite deliveries_pending_output.
Qed.

Lemma fine_run_done (s : list FineAction) (f f' : Fine) :
  done (world f) = true ->
  fine_run s f = Some f' ->
  done (world f') = true
  /\ exists delivered,
       Permutation (delivered ++ pending f') (pending f)
       /\ deliveries (output (world f'))
          = deliveries (output (world f)) ++ map pending_output delivered.
Proof.
  revert f. induction s as [ | a s IH ]; intros f Hd H; cbn [fine_run] in H.
  - inversion H; subst. split; [ exact Hd | ]. exists []. cbn [app map].
    split; [ apply Permutation_refl | now rewrite app_nil_r ].
  - destruct (fine_exec a f) as [ f1 | ] eqn:E; [ | discriminate H ].
    destruct (fine_exec_done _ _ _ Hd E) as (Hd1 & d1 & P1 & O1).
    destruct (IH f1 Hd1 H) as (Hd' & d2 & P2 & O2).
    split; [ exact Hd' | ]. exists (d1 ++ d2). split.
    + rewrite <- app_assoc. eapply perm_trans; [ | exact P1 ].
      now apply Permutation_app_head.
    + now rewrite O2, O1, map_app, app_assoc.
Qed.

(** Every goroutine stays the goroutine it is under the finer schedules
    too. *)
Lemma fine_exec_later (a : FineAction) (f f' : Fine) (i : nat)
      (g : Goroutine) :
  fine_exec a f = Some f' ->
  nth_error (goroutines (world f)) i = Some g ->
  exists g', nth_error (goroutines (world f')) i = Some g' /\ later g g'.
Proof.
  intros H Hi. destruct a as [ a | j | serviceName callback | k ].
  - destruct (fine_exec_Whole _ _ _ H) as (E & _).
    now apply (exec_later a (world f) (world f')).
  - cbn [fine_exec] in H. destruct (busy j (pending f)); [ discriminate H | ].
    destruct (nth_error (goroutines (world f)) j)
      as [ [ | serviceName callback [ | watchChan [ | event events ] | ] ] | ]
           eqn:Hj;
      try discriminate H.
    assert (Hg : goroutines (snd (query_event serviceName event (world f)))
                 = goroutines (world f)).
    { unfold query_event, bind, modify.
      pose proof (Discover_frame serviceName
                    (emit (Printed (changed_line event)) (world f))) as F.
      destruct (Discover serviceName _) as [ [ services | e ] w1 ];
        cbn [snd] in *; now destruct F as (_ & _ & _ & _ & Hg & _). }
    destruct (query_event serviceName event (world f))
      as [ [ services | e ] w1 ]; cbn [snd] in Hg;
      inversion H; subst; clear H; cbn [world];
      eapply set_goroutine_later; try exact Hj; try exact Hi;
      try exact Hg; split; try (now split); discriminate.
  - cbn [fine_exec] in H.
    destruct (keeps_goroutines_Discover serviceName (world f) i g Hi)
      as (g' & Hi' & L).
    destruct (Discover serviceName (world f)) as [ [ services | e ] w1 ];
      cbn [snd] in Hi'; inversion H; subst; clear H; now exists g'.
  - cbn [fine_exec] in H.
    destruct (nth_error (pending f) k) as [ p | ]; [ | discriminate H ].
    inversion H; subst; clear H. exists g.
    split; [ exact Hi | apply later_refl ].
Qed.

Lemma fine_run_later (s : list FineAction) (f f' : Fine) (i : nat)
      (g : Goroutine) :
  fine_run s f = Some f' ->
  nth_error (goroutines (world f)) i = Some g ->
  exists g', nth_error (goroutines (world f')) i = Some g' /\ later g g'.
Proof.
  revert f g. induction s as [ | a s IH ]; intros f g H Hi;
    cbn [fine_run] in H.
  - inversion H; subst. exists g. split; [ exact Hi | apply later_refl ].
  - destruct (fine_exec a f) as [ f1 | ] eqn:E; [ | discriminate H ].
    destruct (fine_exec_later _ _ _ _ _ E Hi) as (g1 & H1 & L1).
    destruct (IH _ _ H H1) as (g2 & H2 & L2).
    exists g2. split; [ exact H2 | now apply (later_trans g g1 g2) ].
Qed.

Lemma fine_run_app (s1 s2 : list FineAction) (f f1 : Fine) :
  fine_run s1 f = Some f1 -> fine_run (s1 ++ s2) f = fine_run s2 f1.
Proof.
  revert f. induction s1 as [ | a s1 IH ]; intros f H;
    cbn [fine_run app] in *.
  - now inversion H.
  - destruct (fine_exec a f) as [ f' | ]; [ now apply IH | discriminate H ].
Qed.

(** The pending callbacks can all be run, one after the other. *)
Lemma deliver_all (l : list Pending) (w : World) :
  exists w',
    fine_run (repeat (Deliver 0) (List.length l)) (mkFine w l)
    = Some (mkFine w' [])
    /\ goroutines w' = goroutines w /\ done w' = done w.
Proof.
  revert w. induction l as [ | p l IH ]; intros w;
    cbn [List.length repeat fine_run].
  - now exists w.
  - cbn [fine_exec pending nth_error remove_nth world].
    destruct (IH (snd (deliver p w))) as (w' & Hr & Hg & Hd).
    exists w'. split; [ exact Hr | ]. now split.
Qed.

(** Under a context that is done, the goroutine of a watch ranges over
    the events it has left without a callback, back to its [select]. *)
Lemma watcher_drains (i : nat) (serviceName : string) (callback : Callback)
      (watchChan : list (list Event)) (l : list Pending)
      (events : list Event) :
  forall w,
    done w = true -> busy i l = false ->
    nth_error (goroutines w) i
    = Some (watcher serviceName callback (WLoop watchChan events)) ->
    exists w',
      fine_run (repeat (Query i) (List.length events)) (mkFine w l)
      = Some (mkFine w' l)
      /\ done w' = true
      /\ nth_error (goroutines w') i
         = Some (watcher serviceName callback (WLoop watchChan [])).
Proof.
  induction events as [ | event events IH ]; intros w Hd Hb Hi;
    cbn [List.length repeat fine_run].
  - now exists w.
  - cbn [fine_exec pending world]. rewrite Hb, Hi.
    rewrite (query_event_done _ _ _ Hd).
    apply IH; [ exact Hd | exact Hb | ].
    cbn [set_goroutine set_goroutines goroutines emit].
    apply (nth_error_replace_nth _ _ _ _ Hi).
Qed.

(** Once the context is done, the goroutine of a watch can run to its
    return. *)
Lemma watcher_returns (f : Fine) (i : nat) (serviceName : string)
      (callback : Callback) (pc : WatchPc) :
  done (world f) = true ->
  nth_error (goroutines (world f)) i
  = Some (watcher serviceName callback pc) ->
  exists s f',
    fine_run s f = Some f'
    /\ (forall a, In a s ->
                  (exists k, a = Deliver k) \/ a = Query i
                  \/ exists c, a = Whole (Step i c))
    /\ nth_error (goroutines (world f')) i
       = Some (watcher serviceName callback WDone).
Proof.
  destruct f as [ w l ]. cbn [world]. intros Hd Hi.
  destruct (deliver_all l w) as (w1 & R1 & Hg1 & Hd1).
  rewrite Hd in Hd1. rewrite <- Hg1 in Hi.
  assert (Hb : busy i [] = false) by reflexivity.
  assert (Hloop : forall w2 watchChan events,
             done w2 = true ->
             nth_error (goroutines w2) i
             = Some (watcher serviceName callback (WLoop watchChan events)) ->
             exists f',
               fine_run (repeat (Query i) (List.length events)
                         ++ [Whole (Step i CtxDone)]) (mkFine w2 [])
               = Some f'
               /\ nth_error (goroutines (world f')) i
                  = Some (watcher serviceName callback WDone)).
  { intros w2 watchChan events Hd2 Hi2.
    destruct (watcher_drains i serviceName callback watchChan [] events
                w2 Hd2 Hb Hi2) as (w3 & R3 & Hd3 & Hi3).
    rewrite (fine_run_app _ _ _ _ R3). cbn [fine_run fine_exec pending world].
    rewrite Hb. unfold step. rewrite Hi3, Hd3. eexists.
    split; [ reflexivity | ]. cbn [world set_goroutine set_goroutines
                                   goroutines].
    apply (nth_error_replace_nth _ _ _ _ Hi3). }
  destruct pc as [ | watchChan events | ].
  - destruct (Hloop (set_goroutine i (watcher serviceName callback
                                              (WLoop [] [])) w1) [] [])
      as (f' & R & Hi').
    + exact Hd1.
    + cbn [set_goroutine set_goroutines goroutines].
      apply (nth_error_replace_nth _ _ _ _ Hi).
    + exists (repeat (Deliver 0) (List.length l)
              ++ Whole (Step i Recv)
                 :: repeat (Query i) 0 ++ [Whole (Step i CtxDone)]), f'.
      split; [ | split; [ | exact Hi' ] ].
      * rewrite (fine_run_app _ _ _ _ R1).
        cbn [fine_run fine_exec pending world busy existsb].
        unfold step at 1. rewrite Hi. exact R.
      * intros a Ha. apply in_app_or in Ha. destruct Ha as [ Ha | Ha ].
        -- apply repeat_spec in Ha. left. now exists 0%nat.
        -- cbn in Ha. destruct Ha as [ <- | [ <- | [] ] ];
             right; right; eexists; reflexivity.
  - destruct (Hloop w1 watchChan events Hd1 Hi) as (f' & R & Hi').
    exists (repeat (Deliver 0) (List.length l)
            ++ repeat (Query i) (List.length events)
            ++ [Whole (Step i CtxDone)]), f'.
    split; [ | split; [ | exact Hi' ] ].
    + now rewrite (fine_run_app _ _ _ _ R1).
    + intros a Ha. apply in_app_or in Ha. destruct Ha as [ Ha | Ha ].
      * apply repeat_spec in Ha. left. now exists 0%nat.
      * apply in_app_or in Ha. destruct Ha as [ Ha | Ha ].
        -- apply repeat_spec in Ha. now (right; left).
        -- cbn in Ha. destruct Ha as [ <- | [] ].
           right; right; eexists; reflexivity.
  - exists (repeat (Deliver 0) (List.length l)), (mkFine w1 []).
    split; [ exact R1 | split; [ | exact Hi ] ].
    intros a Ha. apply repeat_spec in Ha. left. now exists 0%nat.
Qed.

(** ** The resolver *)


(** A pending callback is run also after [Close]: the update reaches the
    connection when the context is done already. *)
Example update_pending_at_Close :
  let handled :=
    [Whole (Commit [OpPut "/services/auth/10.0.0.1:9000" "{}" 0]);
     Whole (Step 0 Recv); Query 0] in
  exists f1 f2,
    fine_run handled (mkFine built_world []) = Some f1
    /\ pending f1
       = [mkPending (Async 0) (BuildCallback 7) [zeroServiceInfo]]
    /\ fine_run [Whole (App ApiClose); Deliver 0] f1 = Some f2
    /\ done (world f2) = true
    /\ output (world f2)
       = output (world f1) ++ [UpdateState (Async 0) 7 [EmptyString]].
Proof.
  intros handled. eexists. eexists.
  split; [ vm_compute; reflexivity | ].
  split; [ reflexivity | ].
  split; [ vm_compute; reflexivity | ].
  split; reflexivity.
Qed.



(** ** Watch: the order of the first snapshot and the later ones *)

Lemma deliveries_of_none (i : nat) (l : list Output) :
  Forall (fun o => from_goroutine i o = false) l -> deliveries_of i l = [].
Proof.
  induction 1 as [ | o l Ho F IH ]; [ reflexivity | ].
  unfold deliveries_of in *. cbn [filter]. now rewrite Ho.
Qed.




(** ** Watch: an error of the first Discover *)

Lemma prefix_service_key (serviceName address : string) :
  String.prefix (services_prefix serviceName)
                (service_key serviceName address) = true.
Proof.
  unfold services_prefix, service_key.
  rewrite <- (append_assoc serviceName "/" address).
  rewrite <- (append_assoc "/services/" (serviceName ++ "/") address).
  apply prefix_append.
Qed.

Lemma nth_error_new {A : Type} (l : list A) (x : A) :
  nth_error (l ++ [x]) (List.length l) = Some x.
Proof. induction l as [ | a l IH ]; [ reflexivity | exact IH ]. Qed.

(** C9. When the first [Discover] of [Watch] fails, [Watch] returns the
    error and the caller has not run the callback; the goroutine started
    before the query is there all the same. It has not been told of the
    failure: if the context is not done and the store answers again, a
    later change under the prefix makes it run the callback. *)
Theorem Watch_error_leaves_goroutine :
  forall (serviceName : string) (callback : Callback) (w w' : World)
         (e : error),
    Watch serviceName callback w = (Err e, w') ->
    let i := List.length (goroutines w) in
    output w' = output w
    /\ goroutines w' = goroutines w ++ [watcher serviceName callback WStart]
    /\ (done w' = false ->
        hd None (faults w') = None ->
        forall (address payload : string) (lease : LeaseID),
        exists w'',
          run [Step i Recv;
               Commit [OpPut (service_key serviceName address) payload lease];
               Step i Recv; Step i Recv] w' = Some w''
          /\ output w''
             = output w
               ++ [Printed (changed_line
                              (mkEvent PUT
                                 (mkKeyValue
                                    (service_key serviceName address)
                                    payload lease)));
                   callback_output (Async i) callback
                     (decode_all (entries serviceName w'') [])]).
Proof.
  intros serviceName callback w w' e H i.
  unfold Watch, bind in H. unfold Watch_go, modify in H.
  set (g := watcher serviceName callback WStart) in *.
  unfold Watch_initial, bind, invoke, modify in H.
  pose proof (Discover_frame serviceName (go g w)) as F.
  destruct (Discover serviceName (go g w)) as [ [ services | e' ] w1 ];
    [ discriminate H | ].
  inversion H; subst e' w1; clear H. cbn [snd] in F.
  destruct F as (Hk & _ & _ & Hd & Hg & Ho & _).
  cbn [go set_goroutines goroutines output kvs done] in Hk, Hd, Hg, Ho.
  split; [ exact Ho | ]. split; [ exact Hg | ].
  intros Hnd Hnf address payload lease.
  set (key := service_key serviceName address).
  set (ev := mkEvent PUT (mkKeyValue key payload lease)).
  assert (Hi : nth_error (goroutines w') i = Some g).
  { rewrite Hg. apply nth_error_new. }
  cbn [run exec]. unfold step at 1. rewrite Hi. subst g. cbv beta iota.
  set (w2 := set_goroutine i _ w').
  set (w3 := commit [OpPut key payload lease] w2).
  assert (Hi3 : nth_error (goroutines w3) i
                = Some (watcher serviceName callback (WLoop [[ev]] []))).
  { subst w3. unfold commit. cbn [fold_left apply_op].
    cbn [set_goroutines goroutines set_kvs]. rewrite nth_error_map.
    subst w2. cbn [set_goroutine set_goroutines goroutines].
    rewrite (nth_error_replace_nth _ _ _ _ Hi). cbn [option_map notify].
    cbn [app filter]. unfold under at 1. cbn [Kv Key ev].
    subst key. rewrite prefix_service_key. reflexivity. }
  destruct (commit_frame [OpPut key payload lease] w2) as (Ho3 & Hd3 & Hf3).
  fold w3 in Ho3, Hd3, Hf3.
  unfold step at 1. rewrite Hi3.
  set (w4 := set_goroutine i _ w3).
  destruct (watcher_ranges_over_events [ev] w4 i serviceName callback [])
    as (w'' & Hr & _ & Hk'' & Ho'').
  - subst w4. cbn [set_goroutine set_goroutines goroutines].
    apply (nth_error_replace_nth _ _ _ _ Hi3).
  - subst w4. cbn [set_goroutine set_goroutines done]. rewrite Hd3.
    exact Hnd.
  - subst w4. cbn [set_goroutine set_goroutines faults List.length no_fault].
    rewrite Hf3. split; [ exact Hnf | exact I ].
  - exists w''. cbn [List.length repeat] in Hr. split; [ exact Hr | ].
    rewrite Ho''. subst w4.
    cbn [set_goroutine set_goroutines output]. rewrite Ho3. subst w2.
    cbn [set_goroutine set_goroutines output]. rewrite Ho.
    cbn [batch_output flat_map app]. unfold entries. rewrite Hk''.
    reflexivity.
Qed.

Lemma Watch_error_leaves_goroutine_witness :
  let w := set_faults [Some (StoreError "etcdserver: request timed out")]
                      empty_world in
  let w' := snd (Watch "auth" (UserCallback 0) w) in
  output w' = []
  /\ goroutines w' = [watcher "auth" (UserCallback 0) WStart]
  /\ exists w'',
       run [Step 0 Recv;
            Commit [OpPut (service_key "auth" "10.0.0.1:9000") "{}" 0];
            Step 0 Recv; Step 0 Recv] w' = Some w''
       /\ In (Called (Async 0) 0 [zeroServiceInfo]) (output w'').
Proof.
  intros w w'.
  destruct (Watch_error_leaves_goroutine "auth" (UserCallback 0) w w'
              (StoreError "etcdserver: request timed out") eq_refl)
    as (Ho & Hg & H).
  split; [ exact Ho | ]. split; [ exact Hg | ].
  destruct (H eq_refl eq_refl "10.0.0.1:9000" "{}" 0) as (w'' & Hr & Ho'').
  exists w''. split; [ exact Hr | ].
  rewrite Ho''. right. left.
  vm_compute in Hr. inversion Hr; subst w''. vm_compute. reflexivity.
Defined.

(* ================================================================== *)
(** * Further properties *)

(** ** The codec on arbitrary bytes *)

Lemma bad_is_error (d : Z * nat) :
  utf8.bad d = true -> d = (utf8.RuneError, 1%nat).
Proof.
  destruct d as [ c size ]. unfold utf8.bad. cbn [fst snd]. intros H.
  apply andb_true_iff in H. destruct H as (Hc & Hs).
  apply Z.eqb_eq in Hc. apply Nat.eqb_eq in Hs. now subst.
Qed.

(** The four bytes the encoder looks at decide like the whole string. *)
Lemma DecodeRune_take4_any (s : string) :
  s <> EmptyString ->
  utf8.DecodeRuneInString (take utf8.UTFMax s) = utf8.DecodeRuneInString s.
Proof.
  intros Hs.
  destruct (utf8.bad (utf8.DecodeRuneInString s)) eqn:Hb;
    [ | now apply DecodeRune_take4 ].
  destruct (utf8.bad (utf8.DecodeRuneInString (take utf8.UTFMax s))) eqn:Hb4.
  - now rewrite (bad_is_error _ Hb), (bad_is_error _ Hb4).
  - destruct (utf8.DecodeRuneInString (take utf8.UTFMax s))
      as [ c size ] eqn:E.
    assert (Hs4 : take utf8.UTFMax s <> EmptyString)
      by (destruct s; [ now elim Hs | discriminate ]).
    pose proof (DecodeRune_inv _ _ _ Hs4 E Hb4) as Hr.
    apply (proj2 (rune_at_take4 s c size)) in Hr.
    apply DecodeRune_intro in Hr. rewrite Hr in Hb. unfold utf8.bad in *.
    cbn [fst snd] in *. congruence.
Qed.

Lemma unquote_replacement (tail : string) (f : nat) :
  json.unquote (S f) (String bslash "ufffd" ++ tail)
  = json.cons_out (utf8.AppendRune utf8.RuneError) (json.unquote f tail).
Proof. reflexivity. Qed.

Lemma unquote_escape_any (m : nat) :
  forall (s rest : string) (fuel : nat),
    (String.length s <= m)%nat ->
    (String.length (json.escape m s) < fuel)%nat ->
    json.unquote fuel (json.escape m s ++ String dquote rest)
    = Some (coerce m s, rest).
Proof.
  induction m as [ | m IH ]; intros s rest fuel Hlen Hf.
  - destruct s; [ | cbn in Hlen; lia ].
    destruct fuel; [ lia | reflexivity ].
  - destruct s as [ | b t ].
    { destruct fuel; [ lia | reflexivity ]. }
    cbn [coerce json.escape] in *.
    assert (Hne : String b t <> EmptyString) by discriminate.
    rewrite (DecodeRune_take4_any _ Hne) in *.
    destruct (byteZ b <? utf8.RuneSelf) eqn:Hb.
    + rewrite (DecodeRune_ascii b t Hb).
      assert (Hnb : utf8.bad (byteZ b, 1%nat) = false).
      { unfold utf8.bad. cbn [fst snd]. apply andb_false_iff. left.
        apply Z.eqb_neq. apply Z.ltb_lt in Hb.
        unfold utf8.RuneSelf, utf8.RuneError in *. lia. }
      rewrite Hnb. cbn [snd skip take append].
      cbn [String.length] in Hlen.
      destruct (json.htmlSafeSet b) eqn:Hs.
      * cbn [String.length] in Hf. destruct fuel as [ | f ]; [ lia | ].
        cbn [append]. rewrite (unquote_safe b _ f Hb Hs).
        rewrite (IH t rest f) by lia. reflexivity.
      * rewrite length_append in Hf.
        pose proof (length_escape_byte b) as Hle.
        destruct fuel as [ | f ]; [ lia | ].
        rewrite append_assoc.
        rewrite (unquote_escape_byte b _ f Hb Hs).
        rewrite (IH t rest f) by lia. reflexivity.
    + destruct (utf8.bad (utf8.DecodeRuneInString (String b t))) eqn:Hbad.
      * rewrite (bad_is_error _ Hbad) in *. cbn [snd skip] in *.
        rewrite length_append in Hf. cbn [String.length] in *.
        destruct fuel as [ | f ]; [ lia | ].
        rewrite append_assoc, unquote_replacement.
        rewrite (IH t rest f) by lia. reflexivity.
      * destruct (utf8.DecodeRuneInString (String b t))
          as [ c size ] eqn:Hd.
        cbn [fst snd] in *.
        pose proof (DecodeRune_inv _ _ _ Hne Hd Hbad) as Hr.
        pose proof (rune_at_AppendRune _ _ _ Hr) as Happ.
        destruct Hr as (Hh & Hsz).
        pose proof (head_rune_size _ _ _ _ _ _ Hh) as Hsize.
        assert (Hlen' : (String.length (skip size (String b t)) <= m)%nat)
          by (rewrite length_skip; cbn [String.length] in *; lia).
        destruct ((c =? 0x2028) || (c =? 0x2029)) eqn:Hsep.
        -- assert (Hc : c = 0x2028 \/ c = 0x2029).
           { apply orb_true_iff in Hsep. destruct Hsep as [ E | E ];
               apply Z.eqb_eq in E; auto. }
           rewrite !length_append in Hf. cbn [String.length] in Hf.
           destruct fuel as [ | f ]; [ lia | ].
           rewrite !append_assoc.
           rewrite (unquote_separator c _ f Hc).
           rewrite (IH _ rest f) by lia.
           rewrite cons_out_some, Happ. reflexivity.
        -- rewrite length_append, length_take in Hf by exact Hsz.
           destruct fuel as [ | f ]; [ lia | ].
           rewrite append_assoc.
           set (x := (json.escape m (skip size (String b t))
                      ++ String dquote rest)%string).
           assert (Hr' : rune_at (take size (String b t) ++ x) c size)
             by (apply rune_at_prefix; now split).
           apply DecodeRune_intro in Hr'.
           destruct size as [ | k ]; [ lia | ].
           cbn [take append] in *.
           rewrite (unquote_multibyte b _ f Hb). rewrite Hr'.
           cbn [fst snd].
           change (String b (take k t ++ x))
             with (take (S k) (String b t) ++ x)%string.
           rewrite skip_take_append by exact Hsz. subst x.
           rewrite (IH _ rest f) by lia.
           rewrite cons_out_some, Happ. reflexivity.
Qed.

Lemma coerce_valid (m : nat) :
  forall s, utf8.valid m s = true -> (String.length s <= m)%nat ->
            coerce m s = s.
Proof.
  induction m as [ | m IH ]; intros s Hv Hlen.
  - destruct s; [ reflexivity | cbn in Hlen; lia ].
  - destruct s as [ | b t ]; [ reflexivity | ].
    cbn [coerce utf8.valid] in *.
    destruct (utf8.bad (utf8.DecodeRuneInString (String b t))) eqn:Hbad;
      [ discriminate Hv | ].
    destruct (utf8.DecodeRuneInString (String b t)) as [ c size ] eqn:Hd.
    cbn [snd] in *.
    assert (Hne : String b t <> EmptyString) by discriminate.
    destruct (DecodeRune_inv _ _ _ Hne Hd Hbad) as (Hh & Hsz).
    pose proof (head_rune_size _ _ _ _ _ _ Hh) as Hsize.
    rewrite IH; [ apply take_skip | exact Hv | ].
    rewrite length_skip. cbn [String.length] in *. lia.
Qed.

Lemma value_appendString_any (f : nat) (depth : Z) (s rest : string) :
  json.value (S f) depth (json.appendString s ++ rest)
  = Some (json.Str (coerced s), rest).
Proof.
  rewrite appendString_shape, value_string.
  rewrite unquote_escape_any; [ reflexivity | lia | ].
  rewrite length_append. lia.
Qed.

Lemma members_more_any (f : nat) (depth : Z) (tag s more : string) :
  utf8.ValidString tag = true ->
  json.escape (String.length tag) tag = tag ->
  json.members (S (S f)) depth
    (String dquote
       (tag ++ String dquote (String ":"
          (json.appendString s ++ String "," (String dquote more)))))
  = match json.members (S f) depth (String dquote more) with
    | Some (ms, r) => Some ((tag, json.Str (coerced s)) :: ms, r)
    | None => None
    end.
Proof.
  intros Ht He. rewrite members_key.
  rewrite <- He at 1 2.
  rewrite unquote_escape;
    [ | lia | exact Ht | rewrite length_append; lia ].
  change (json.skipws (String ":" ?x)) with (String ":" x).
  cbv beta iota.
  change (Ascii.eqb ":" ":") with true. cbv beta iota.
  rewrite appendString_shape.
  change (json.skipws (String dquote ?x)) with (String dquote x).
  rewrite <- appendString_shape.
  rewrite (value_appendString_any f depth s
             (String "," (String dquote more))).
  reflexivity.
Qed.

Lemma members_last_any (f : nat) (depth : Z) (tag s rest : string) :
  utf8.ValidString tag = true ->
  json.escape (String.length tag) tag = tag ->
  json.members (S (S f)) depth
    (String dquote
       (tag ++ String dquote (String ":"
          (json.appendString s ++ String "}" rest))))
  = Some ([(tag, json.Str (coerced s))], rest).
Proof.
  intros Ht He. rewrite members_key.
  rewrite <- He at 1 2.
  rewrite unquote_escape;
    [ | lia | exact Ht | rewrite length_append; lia ].
  change (json.skipws (String ":" ?x)) with (String ":" x).
  cbv beta iota.
  change (Ascii.eqb ":" ":") with true. cbv beta iota.
  rewrite appendString_shape.
  change (json.skipws (String dquote ?x)) with (String dquote x).
  rewrite <- appendString_shape.
  rewrite (value_appendString_any f depth s (String "}" rest)).
  reflexivity.
Qed.

Lemma Unmarshal_payload (serviceName address version : string) :
  json.Marshal (mkServiceInfo serviceName address version)
  = Ok (payload serviceName address version)
  /\ json.Unmarshal (payload serviceName address version)
     = Ok (mkServiceInfo (coerced serviceName) (coerced address)
                         (coerced version)).
Proof.
  split; [ reflexivity | ].
  unfold payload. rewrite Marshal_shape. cbn [Name Address Version].
  unfold json.Unmarshal. rewrite parse_object.
  set (fuel := String.length _).
  assert (Hfuel : exists f, fuel = S (S f)).
  { subst fuel. rewrite length_append. cbn [String.length Nat.add].
    eexists. reflexivity. }
  destruct Hfuel as (f & ->).
  rewrite (members_more_any (S (S f)) 1 "name" serviceName)
    by reflexivity.
  rewrite (members_more_any (S f) 1 "address" address) by reflexivity.
  rewrite (members_last_any f 1 "version" version) by reflexivity.
  reflexivity.
Qed.

Lemma coerced_valid (s : string) :
  utf8.ValidString s = true -> coerced s = s.
Proof. intros H. apply coerce_valid; [ exact H | lia ]. Qed.

(** X1. [Marshal] never fails on a [ServiceInfo], whatever bytes its
    strings hold, and its payload always decodes: to the record in which
    every byte that starts no valid UTF-8 sequence is replaced by U+FFFD,
    which is the record itself when the three strings are valid UTF-8. *)
Theorem Marshal_Unmarshal_any_bytes :
  forall (serviceName address version : string),
    exists data,
      json.Marshal (mkServiceInfo serviceName address version) = Ok data
      /\ json.Unmarshal data
         = Ok (mkServiceInfo (coerced serviceName) (coerced address)
                             (coerced version))
      /\ (utf8.ValidString serviceName = true ->
          coerced serviceName = serviceName)
      /\ (utf8.ValidString address = true -> coerced address = address)
      /\ (utf8.ValidString version = true -> coerced version = version).
Proof.
  intros serviceName address version.
  destruct (Unmarshal_payload serviceName address version) as (HM & HU).
  exists (payload serviceName address version).
  repeat split; try assumption; apply coerced_valid.
Qed.

Lemma Marshal_Unmarshal_any_bytes_witness :
  exists data,
    json.Marshal (mkServiceInfo (of_bytes [0xFF; 0x61]) "a" "v") = Ok data
    /\ json.Unmarshal data
       = Ok (mkServiceInfo (of_bytes [0xEF; 0xBF; 0xBD; 0x61]) "a" "v").
Proof.
  destruct (Marshal_Unmarshal_any_bytes (of_bytes [0xFF; 0x61]) "a" "v")
    as (data & HM & HU & _).
  exists data. split; [ exact HM | exact HU ].
Defined.

(** ** The store contents under Register and Unregister *)

Lemma In_insert_kv (kv x : KeyValue) (l : list KeyValue) :
  In x (insert_kv kv l) <-> x = kv \/ In x l.
Proof.
  induction l as [ | y l IH ]; cbn [insert_kv].
  - cbn. intuition.
  - destruct (String.ltb (Key kv) (Key y)); cbn [In]; [ intuition | ].
    rewrite IH. intuition.
Qed.

Lemma In_delete_kv (key : string) (x : KeyValue) (l : list KeyValue) :
  In x (delete_kv key l) <-> In x l /\ Key x <> key.
Proof.
  unfold delete_kv. rewrite filter_In. rewrite negb_true_iff.
  now rewrite String.eqb_neq.
Qed.

Lemma filter_insert_kv_only (p : KeyValue -> bool) (kv : KeyValue)
      (l : list KeyValue) :
  filter p l = [] -> p kv = true -> filter p (insert_kv kv l) = [kv].
Proof.
  intros Hl Hkv. induction l as [ | y l IH ]; cbn [insert_kv filter].
  - now rewrite Hkv.
  - cbn [filter] in Hl. destruct (p y) eqn:Hy; [ discriminate Hl | ].
    destruct (String.ltb (Key kv) (Key y)); cbn [filter].
    + now rewrite Hkv, Hy, Hl.
    + rewrite Hy. now apply IH.
Qed.

Lemma filter_delete_kv (p : KeyValue -> bool) (key : string)
      (l : list KeyValue) :
  filter p (delete_kv key l) = delete_kv key (filter p l).
Proof.
  unfold delete_kv. induction l as [ | y l IH ]; cbn [filter];
    [ reflexivity | ].
  destruct (negb (Key y =? key)%string) eqn:Hk, (p y) eqn:Hp; cbn [filter];
    rewrite ?Hk, ?Hp, IH; reflexivity.
Qed.

Lemma delete_kv_key (key : string) (l : list KeyValue) :
  filter (fun x => (Key x =? key)%string) (delete_kv key l) = [].
Proof.
  unfold delete_kv. induction l as [ | y l IH ]; cbn [filter];
    [ reflexivity | ].
  destruct (Key y =? key)%string eqn:Hk; cbn [negb filter];
    rewrite ?Hk; exact IH.
Qed.

Lemma delete_insert_kv (kv : KeyValue) (l : list KeyValue) :
  delete_kv (Key kv) (insert_kv kv l) = delete_kv (Key kv) l.
Proof.
  unfold delete_kv. induction l as [ | y l IH ]; cbn [insert_kv filter].
  - now rewrite String.eqb_refl.
  - destruct (String.ltb (Key kv) (Key y)); cbn [filter].
    + now rewrite String.eqb_refl.
    + now rewrite IH.
Qed.

Lemma delete_kv_twice (key : string) (l : list KeyValue) :
  delete_kv key (delete_kv key l) = delete_kv key l.
Proof.
  unfold delete_kv. induction l as [ | y l IH ]; cbn [filter];
    [ reflexivity | ].
  destruct (negb (Key y =? key)%string) eqn:Hk; cbn [filter];
    rewrite ?Hk, IH; reflexivity.
Qed.

Lemma delete_kv_absent (key : string) (l : list KeyValue) :
  has_key key l = false -> delete_kv key l = l.
Proof.
  unfold has_key, delete_kv. induction l as [ | y l IH ];
    cbn [existsb filter]; [ reflexivity | ].
  intros H. apply orb_false_iff in H. destruct H as (Hy & Hl).
  rewrite Hy. cbn [negb]. now rewrite IH.
Qed.

Lemma no_fault_hd (n : nat) (l : list (option error)) :
  no_fault (S n) l -> hd None l = None.
Proof. now intros (H & _). Qed.

Lemma no_fault_tl (n : nat) (l : list (option error)) :
  no_fault (S n) l -> no_fault n (tl l).
Proof. now intros (_ & H). Qed.

(** What [Register] does when its two calls succeed. *)
Lemma Register_ok (serviceName address version : string) (w : World) :
  done w = false ->
  no_fault 2 (faults w) ->
  let key := service_key serviceName address in
  let kv := mkKeyValue key (payload serviceName address version)
                       (nextLease w) in
  exists w',
    Register serviceName address version w = (Ok tt, w')
    /\ kvs w' = insert_kv kv (delete_kv key (kvs w))
    /\ leases w' = leases w ++ [(nextLease w, ttl w)]
    /\ nextLease w' = nextLease w + 1
    /\ faults w' = tl (tl (faults w))
    /\ goroutines w'
       = map (notify [mkEvent PUT kv]) (goroutines w)
         ++ [keepAlive (nextLease w) key
                       (payload serviceName address version) KaStart]
    /\ output w' = output w /\ done w' = false /\ ttl w' = ttl w.
Proof.
  intros Hd Hf key kv.
  unfold Register, lease_Grant, kv_Put, request, bind, lift, gets, modify,
    ret.
  destruct (Unmarshal_payload serviceName address version) as (HM & _).
  rewrite HM.
  rewrite (call_ok w Hd (no_fault_hd _ _ Hf)).
  rewrite call_ok;
    [ | exact Hd | exact (no_fault_hd _ _ (no_fault_tl _ _ Hf)) ].
  eexists. split; [ reflexivity | ].
  unfold commit. cbn [fold_left apply_op]. cbn. rewrite Hd.
  repeat split.
Qed.

Lemma decode_all_contains (l : list KeyValue) (kv : KeyValue)
      (r : ServiceInfo) :
  In kv l -> json.Unmarshal (Value kv) = Ok r -> In r (decode_all l []).
Proof.
  intros Hin Hr. rewrite decode_all_spec. cbn [app].
  apply in_map_iff. exists kv. split.
  - unfold decoded. now rewrite Hr.
  - apply filter_In. split; [ exact Hin | ].
    unfold well_formed. now rewrite Hr.
Qed.

(** X2. When its two store calls succeed, [Register] returns nil having
    had one lease granted, left exactly one entry under the key, holding
    the payload and the id of that lease, kept every entry under another
    key, and started one [keepAlive] goroutine for the lease; it prints
    nothing. *)
Theorem Register_success :
  forall (serviceName address version : string) (w : World),
    done w = false ->
    no_fault 2 (faults w) ->
    let key := service_key serviceName address in
    let kv := mkKeyValue key (payload serviceName address version)
                         (nextLease w) in
    exists w',
      Register serviceName address version w = (Ok tt, w')
      /\ filter (fun x => (Key x =? key)%string) (kvs w') = [kv]
      /\ (forall x, Key x <> key -> (In x (kvs w') <-> In x (kvs w)))
      /\ map fst (leases w') = map fst (leases w) ++ [nextLease w]
      /\ List.length (goroutines w') = S (List.length (goroutines w))
      /\ nth_error (goroutines w') (List.length (goroutines w))
         = Some (keepAlive (nextLease w) key
                           (payload serviceName address version) KaStart)
      /\ output w' = output w.
Proof.
  intros serviceName address version w Hd Hf key kv.
  destruct (Register_ok serviceName address version w Hd Hf)
    as (w' & HR & Hk & Hl & _ & _ & Hg & Ho & _).
  fold key in HR, Hk, Hg. fold kv in Hk, Hg.
  exists w'. split; [ exact HR | ]. rewrite Hk, Hg. repeat split.
  - apply filter_insert_kv_only; [ apply delete_kv_key | ].
    apply String.eqb_refl.
  - intros Hin. apply In_insert_kv in Hin. destruct Hin as [ -> | Hin ].
    + now elim H.
    + now apply In_delete_kv in Hin.
  - intros Hin. apply In_insert_kv. right. apply In_delete_kv. now split.
  - rewrite Hl, map_app. reflexivity.
  - rewrite length_app, length_map. cbn. lia.
  - rewrite <- (length_map (notify [mkEvent PUT kv]) (goroutines w)).
    apply nth_error_new.
  - exact Ho.
Qed.

Lemma Register_success_witness :
  exists w',
    Register "auth" "10.0.0.1:9000" "v1" empty_world = (Ok tt, w')
    /\ map fst (leases w') = [1]
    /\ List.length (goroutines w') = 1%nat.
Proof.
  destruct (Register_success "auth" "10.0.0.1:9000" "v1" empty_world
              eq_refl (conj eq_refl (conj eq_refl I)))
    as (w' & HR & _ & _ & Hl & Hn & _).
  exists w'. repeat split; assumption.
Defined.

(** [Discover] of [queried] after [Register] of a record whose key lies
    under the prefix of [queried]. *)
Lemma Register_then_Discover_under
      (queried serviceName address version : string) (w : World) :
  String.prefix (services_prefix queried)
                (service_key serviceName address) = true ->
  done w = false ->
  no_fault 3 (faults w) ->
  exists w' w'' services,
    Register serviceName address version w = (Ok tt, w')
    /\ Discover queried w' = (Ok services, w'')
    /\ In (mkServiceInfo (coerced serviceName) (coerced address)
                         (coerced version)) services
    /\ (entries queried w = [] ->
        services = [mkServiceInfo (coerced serviceName) (coerced address)
                                  (coerced version)]).
Proof.
  intros Hp Hd Hf.
  assert (Hf2 : no_fault 2 (faults w))
    by (destruct Hf as (H1 & H2 & _); now repeat split).
  destruct (Register_ok serviceName address version w Hd Hf2)
    as (w' & HR & Hk & _ & _ & Hfw & _ & _ & Hd' & _).
  destruct (Unmarshal_payload serviceName address version) as (_ & HU).
  set (kv := mkKeyValue (service_key serviceName address)
                        (payload serviceName address version)
                        (nextLease w)) in *.
  assert (Hf3 : hd None (faults w') = None).
  { rewrite Hfw. destruct Hf as (_ & _ & H3 & _). exact H3. }
  exists w', (set_faults (tl (faults w')) w'),
         (decode_all (entries queried w') []).
  split; [ exact HR | ]. split; [ now apply Discover_ok | ].
  unfold entries. rewrite Hk. split.
  - apply (decode_all_contains _ kv); [ | exact HU ].
    apply filter_In. split; [ | exact Hp ].
    apply In_insert_kv. now left.
  - intros Hnone. rewrite filter_insert_kv_only.
    + cbn [decode_all]. cbn [Value kv]. now rewrite HU.
    + rewrite filter_delete_kv. unfold entries in Hnone.
      now rewrite Hnone.
    + exact Hp.
Qed.

(** X3. After a successful [Register(name, address, version)] with
    strings of valid UTF-8, a [Discover(name)] that succeeds returns a
    list containing that record; when the store held nothing under the
    prefix of the name before, it returns exactly that record. *)
Theorem Register_then_Discover :
  forall (serviceName address version : string) (w : World),
    utf8.ValidString serviceName = true ->
    utf8.ValidString address = true ->
    utf8.ValidString version = true ->
    done w = false ->
    no_fault 3 (faults w) ->
    exists w' w'' services,
      Register serviceName address version w = (Ok tt, w')
      /\ Discover serviceName w' = (Ok services, w'')
      /\ In (mkServiceInfo serviceName address version) services
      /\ (entries serviceName w = [] ->
          services = [mkServiceInfo serviceName address version]).
Proof.
  intros serviceName address version w Hn Ha Hv Hd Hf.
  destruct (Register_then_Discover_under serviceName serviceName address
              version w (prefix_service_key serviceName address) Hd Hf)
    as (w' & w'' & services & HR & HD & Hin & Hone).
  rewrite (coerced_valid _ Hn), (coerced_valid _ Ha), (coerced_valid _ Hv)
    in Hin, Hone.
  exists w', w'', services. repeat split; assumption.
Qed.

Lemma Register_then_Discover_witness :
  exists w' w'',
    Register "auth" "10.0.0.1:9000" "v1" empty_world = (Ok tt, w')
    /\ Discover "auth" w'
       = (Ok [mkServiceInfo "auth" "10.0.0.1:9000" "v1"], w'').
Proof.
  destruct (Register_then_Discover "auth" "10.0.0.1:9000" "v1" empty_world
              eq_refl eq_refl eq_refl eq_refl
              (conj eq_refl (conj eq_refl (conj eq_refl I))))
    as (w' & w'' & services & HR & HD & _ & Hone).
  exists w', w''. split; [ exact HR | ].
  rewrite <- (Hone eq_refl). exact HD.
Defined.

Lemma prefix_sub_service_key (serviceName sub address : string) :
  String.prefix (services_prefix serviceName)
                (service_key (serviceName ++ "/" ++ sub) address) = true.
Proof.
  unfold services_prefix, service_key.
  rewrite !append_assoc.
  rewrite <- (append_assoc serviceName "/" (sub ++ "/" ++ address)).
  rewrite <- (append_assoc "/services/" (serviceName ++ "/")
                (sub ++ "/" ++ address)).
  apply prefix_append.
Qed.

(** X4. Service names are not kept apart when one contains a slash: an
    instance registered under [name/sub] lies under the prefix of [name],
    and [Discover(name)] returns it, as a record whose name is
    [name/sub]. *)
Theorem Discover_returns_sub_services :
  forall (serviceName sub address version : string) (w : World),
    utf8.ValidString (serviceName ++ "/" ++ sub) = true ->
    utf8.ValidString address = true ->
    utf8.ValidString version = true ->
    done w = false ->
    no_fault 3 (faults w) ->
    exists w' w'' services,
      Register (serviceName ++ "/" ++ sub) address version w = (Ok tt, w')
      /\ Discover serviceName w' = (Ok services, w'')
      /\ In (mkServiceInfo (serviceName ++ "/" ++ sub) address version)
            services.
Proof.
  intros serviceName sub address version w Hn Ha Hv Hd Hf.
  destruct (Register_then_Discover_under serviceName
              (serviceName ++ "/" ++ sub) address version w
              (prefix_sub_service_key serviceName sub address) Hd Hf)
    as (w' & w'' & services & HR & HD & Hin & _).
  rewrite (coerced_valid _ Hn), (coerced_valid _ Ha), (coerced_valid _ Hv)
    in Hin.
  exists w', w'', services. repeat split; assumption.
Qed.

Lemma Discover_returns_sub_services_witness :
  exists w' w'',
    Register "auth/admin" "10.0.0.1:9000" "v1" empty_world = (Ok tt, w')
    /\ Discover "auth" w'
       = (Ok [mkServiceInfo "auth/admin" "10.0.0.1:9000" "v1"], w'').
Proof.
  destruct (Discover_returns_sub_services "auth" "admin" "10.0.0.1:9000"
              "v1" empty_world eq_refl eq_refl eq_refl eq_refl
              (conj eq_refl (conj eq_refl (conj eq_refl I))))
    as (w' & w'' & services & HR & HD & _).
  exists w', w''. split; [ exact HR | ].
  rewrite HD. vm_compute in HR. inversion HR; subst w'.
  vm_compute in HD. inversion HD; subst. reflexivity.
Defined.

Lemma notify_keepAlive (evs : list Event) (leaseID : LeaseID)
      (key value : string) (pc : KeepAlivePc) :
  notify evs (keepAlive leaseID key value pc)
  = keepAlive leaseID key value pc.
Proof. reflexivity. Qed.

(** X5. Registering the same name and address again overwrites the entry
    and ties it to the new lease; the lease of the first registration
    stays granted and its [keepAlive] goroutine stays, beside the new
    one. *)
Theorem Register_twice :
  forall (serviceName address v1 v2 : string) (w : World),
    done w = false ->
    no_fault 4 (faults w) ->
    let key := service_key serviceName address in
    let n := List.length (goroutines w) in
    exists w1 w2,
      Register serviceName address v1 w = (Ok tt, w1)
      /\ Register serviceName address v2 w1 = (Ok tt, w2)
      /\ filter (fun x => (Key x =? key)%string) (kvs w2)
         = [mkKeyValue key (payload serviceName address v2)
                       (nextLease w + 1)]
      /\ leases w2
         = leases w ++ [(nextLease w, ttl w); (nextLease w + 1, ttl w)]
      /\ nth_error (goroutines w2) n
         = Some (keepAlive (nextLease w) key
                           (payload serviceName address v1) KaStart)
      /\ nth_error (goroutines w2) (S n)
         = Some (keepAlive (nextLease w + 1) key
                           (payload serviceName address v2) KaStart).
Proof.
  intros serviceName address v1 v2 w Hd Hf key n.
  assert (Hf2 : no_fault 2 (faults w))
    by (destruct Hf as (H1 & H2 & _); now repeat split).
  destruct (Register_ok serviceName address v1 w Hd Hf2)
    as (w1 & HR1 & Hk1 & Hl1 & Hn1 & Hf1 & Hg1 & _ & Hd1 & Ht1).
  assert (Hf2' : no_fault 2 (faults w1)).
  { rewrite Hf1. destruct Hf as (_ & _ & H3 & H4 & _). now repeat split. }
  destruct (Register_ok serviceName address v2 w1 Hd1 Hf2')
    as (w2 & HR2 & Hk2 & Hl2 & _ & _ & Hg2 & _).
  exists w1, w2. split; [ exact HR1 | ]. split; [ exact HR2 | ].
  fold key in Hk1, Hg1, Hk2, Hg2. rewrite Hn1 in *. rewrite Ht1 in *.
  split; [ | split; [ | split ] ].
  - rewrite Hk2. apply filter_insert_kv_only; [ apply delete_kv_key | ].
    apply String.eqb_refl.
  - rewrite Hl2, Hl1, <- app_assoc. reflexivity.
  - rewrite Hg2, Hg1, map_app. cbn [map]. rewrite notify_keepAlive.
    rewrite nth_error_app1.
    + match goal with
      | |- nth_error (?l ++ _) _ = _ =>
          replace n with (List.length l)
            by (subst n; now rewrite !length_map)
      end.
      apply nth_error_new.
    + rewrite length_app, !length_map. cbn. subst n. lia.
  - rewrite Hg2.
    replace (S n)
      with (List.length
              (map (notify [mkEvent PUT
                              (mkKeyValue key
                                 (payload serviceName address v2)
                                 (nextLease w + 1))]) (goroutines w1))).
    + apply nth_error_new.
    + rewrite length_map, Hg1, length_app, length_map. cbn. subst n. lia.
Qed.

Lemma Register_twice_witness :
  exists w1 w2,
    Register "auth" "10.0.0.1:9000" "v1" empty_world = (Ok tt, w1)
    /\ Register "auth" "10.0.0.1:9000" "v2" w1 = (Ok tt, w2)
    /\ leases w2 = [(1, 10); (2, 10)]
    /\ List.length (kvs w2) = 1%nat.
Proof.
  destruct (Register_twice "auth" "10.0.0.1:9000" "v1" "v2" empty_world
              eq_refl
              (conj eq_refl (conj eq_refl (conj eq_refl (conj eq_refl I)))))
    as (w1 & w2 & HR1 & HR2 & _ & Hl & _).
  exists w1, w2. split; [ exact HR1 | ]. split; [ exact HR2 | ].
  split; [ exact Hl | ].
  vm_compute in HR1. inversion HR1; subst w1.
  vm_compute in HR2. inversion HR2; subst w2. reflexivity.
Defined.

Lemma map_notify_keepAlive (evs : list Event) (gs : list Goroutine)
      (i : nat) (leaseID : LeaseID) (key value : string)
      (pc : KeepAlivePc) :
  nth_error gs i = Some (keepAlive leaseID key value pc) ->
  nth_error (map (notify evs) gs) i
  = Some (keepAlive leaseID key value pc).
Proof. intros H. rewrite nth_error_map, H. reflexivity. Qed.

(** What [Unregister] does when its call succeeds. *)
Lemma Unregister_ok (serviceName address : string) (w : World) :
  done w = false ->
  hd None (faults w) = None ->
  exists w' evs,
    Unregister serviceName address w = (Ok tt, w')
    /\ kvs w' = delete_kv (service_key serviceName address) (kvs w)
    /\ goroutines w' = map (notify evs) (goroutines w)
    /\ (has_key (service_key serviceName address) (kvs w) = false ->
        evs = [])
    /\ leases w' = leases w /\ nextLease w' = nextLease w
    /\ faults w' = tl (faults w)
    /\ output w' = output w /\ done w' = false /\ ttl w' = ttl w.
Proof.
  intros Hd Hf. unfold Unregister, kv_Delete, request, bind, modify.
  rewrite (call_ok w Hd Hf). unfold commit. cbn [fold_left apply_op].
  cbn [kvs set_faults].
  destruct (has_key (service_key serviceName address) (kvs w)) eqn:Hk.
  - eexists. eexists. split; [ reflexivity | ]. cbn. rewrite Hd.
    repeat split. discriminate.
  - eexists. exists []. split; [ reflexivity | ].
    cbn [kvs set_kvs set_goroutines set_faults goroutines leases nextLease
         faults output done ttl].
    rewrite Hd, (delete_kv_absent _ _ Hk). repeat split.
Qed.

(** X6. An [Unregister] whose call succeeds removes the entry under the
    key of the name and address and no other entry, and prints nothing.
    When there is no such entry it is no error: the store is as before
    and no watch is told of anything. *)
Theorem Unregister_removes_key :
  forall (serviceName address : string) (w : World),
    done w = false ->
    hd None (faults w) = None ->
    let key := service_key serviceName address in
    exists w',
      Unregister serviceName address w = (Ok tt, w')
      /\ (forall x, In x (kvs w') <-> In x (kvs w) /\ Key x <> key)
      /\ output w' = output w
      /\ (has_key key (kvs w) = false ->
          kvs w' = kvs w /\ goroutines w' = goroutines w).
Proof.
  intros serviceName address w Hd Hf key.
  destruct (Unregister_ok serviceName address w Hd Hf)
    as (w' & evs & HU & Hk & Hg & Hev & _ & _ & _ & Ho & _).
  exists w'. split; [ exact HU | ]. split; [ | split; [ exact Ho | ] ].
  - intros x. rewrite Hk. apply In_delete_kv.
  - intros Habs. rewrite Hk, Hg, (Hev Habs). split.
    + now apply delete_kv_absent.
    + apply map_notify_nil.
Qed.

Lemma Unregister_removes_key_witness :
  exists w',
    Unregister "auth" "10.0.0.1:9000" empty_world = (Ok tt, w')
    /\ kvs w' = [] /\ goroutines w' = [].
Proof.
  destruct (Unregister_removes_key "auth" "10.0.0.1:9000" empty_world
              eq_refl eq_refl) as (w' & HU & _ & _ & Habs).
  exists w'. split; [ exact HU | ]. exact (Habs eq_refl).
Defined.

(** X7. [Unregister] deletes the key and nothing else: after a
    [Register] and an [Unregister] of the same name and address the
    entry is gone, but the lease granted by [Register] is still granted
    and the [keepAlive] goroutine it started has not been stopped. *)
Theorem Unregister_keeps_lease_and_keepAlive :
  forall (serviceName address version : string) (w : World),
    done w = false ->
    no_fault 3 (faults w) ->
    let key := service_key serviceName address in
    exists w1 w2,
      Register serviceName address version w = (Ok tt, w1)
      /\ Unregister serviceName address w1 = (Ok tt, w2)
      /\ has_key key (kvs w2) = false
      /\ In (nextLease w, ttl w) (leases w2)
      /\ nth_error (goroutines w2) (List.length (goroutines w))
         = Some (keepAlive (nextLease w) key
                           (payload serviceName address version) KaStart).
Proof.
  intros serviceName address version w Hd Hf key.
  assert (Hf2 : no_fault 2 (faults w))
    by (destruct Hf as (H1 & H2 & _); now repeat split).
  destruct (Register_ok serviceName address version w Hd Hf2)
    as (w1 & HR & Hk1 & Hl1 & _ & Hf1 & Hg1 & _ & Hd1 & _).
  assert (Hf3 : hd None (faults w1) = None).
  { rewrite Hf1. destruct Hf as (_ & _ & H3 & _). exact H3. }
  destruct (Unregister_ok serviceName address w1 Hd1 Hf3)
    as (w2 & evs & HU & Hk2 & Hg2 & _ & Hl2 & _).
  exists w1, w2. split; [ exact HR | ]. split; [ exact HU | ].
  split; [ | split ].
  - rewrite Hk2. unfold has_key.
    destruct (existsb _ _) eqn:E; [ | reflexivity ].
    apply existsb_exists in E. destruct E as (x & Hin & Hx).
    apply In_delete_kv in Hin. apply String.eqb_eq in Hx.
    now destruct Hin.
  - rewrite Hl2, Hl1. apply in_or_app. right. now left.
  - rewrite Hg2. apply map_notify_keepAlive. rewrite Hg1.
    rewrite <- (length_map
                  (notify [mkEvent PUT
                             (mkKeyValue (service_key serviceName address)
                                (payload serviceName address version)
                                (nextLease w))]) (goroutines w)).
    apply nth_error_new.
Qed.

Lemma Unregister_keeps_lease_and_keepAlive_witness :
  exists w1 w2,
    Register "auth" "10.0.0.1:9000" "v1" empty_world = (Ok tt, w1)
    /\ Unregister "auth" "10.0.0.1:9000" w1 = (Ok tt, w2)
    /\ kvs w2 = [] /\ leases w2 = [(1, 10)]
    /\ List.length (goroutines w2) = 1%nat.
Proof.
  destruct (Unregister_keeps_lease_and_keepAlive "auth" "10.0.0.1:9000"
              "v1" empty_world eq_refl
              (conj eq_refl (conj eq_refl (conj eq_refl I))))
    as (w1 & w2 & HR & HU & _).
  exists w1, w2. split; [ exact HR | ]. split; [ exact HU | ].
  vm_compute in HR. inversion HR; subst w1.
  vm_compute in HU. inversion HU; subst w2. repeat split.
Defined.

(** X8. After a [Register] and an [Unregister] of the same name and
    address, [Discover] of the name returns what the store held under
    the prefix before the two calls, without the entry of that key; when
    it held nothing there, the empty list. *)
Theorem Register_Unregister_Discover :
  forall (serviceName address version : string) (w : World),
    done w = false ->
    no_fault 4 (faults w) ->
    let key := service_key serviceName address in
    exists w1 w2 w3 services,
      Register serviceName address version w = (Ok tt, w1)
      /\ Unregister serviceName address w1 = (Ok tt, w2)
      /\ Discover serviceName w2 = (Ok services, w3)
      /\ services
         = map decoded
               (filter well_formed (delete_kv key (entries serviceName w)))
      /\ (entries serviceName w = [] -> services = []).
Proof.
  intros serviceName address version w Hd Hf key.
  assert (Hf2 : no_fault 2 (faults w))
    by (destruct Hf as (H1 & H2 & _); now repeat split).
  destruct (Register_ok serviceName address version w Hd Hf2)
    as (w1 & HR & Hk1 & _ & _ & Hf1 & _ & _ & Hd1 & _).
  assert (Hf3 : hd None (faults w1) = None).
  { rewrite Hf1. destruct Hf as (_ & _ & H3 & _). exact H3. }
  destruct (Unregister_ok serviceName address w1 Hd1 Hf3)
    as (w2 & evs & HU & Hk2 & _ & _ & _ & _ & Hf2' & _ & Hd2 & _).
  assert (Hf4 : hd None (faults w2) = None).
  { rewrite Hf2', Hf1. destruct Hf as (_ & _ & _ & H4 & _). exact H4. }
  assert (He : entries serviceName w2
               = delete_kv key (entries serviceName w)).
  { unfold entries. rewrite Hk2, Hk1.
    change (service_key serviceName address)
      with (Key (mkKeyValue key (payload serviceName address version)
                            (nextLease w))) at 1.
    rewrite delete_insert_kv. cbn [Key]. rewrite delete_kv_twice.
    apply filter_delete_kv. }
  exists w1, w2, (set_faults (tl (faults w2)) w2),
         (decode_all (entries serviceName w2) []).
  split; [ exact HR | ]. split; [ exact HU | ].
  split; [ now apply Discover_ok | ].
  rewrite decode_all_spec, He. cbn [app]. split; [ reflexivity | ].
  intros Hnone. now rewrite Hnone.
Qed.

Lemma Register_Unregister_Discover_witness :
  exists w1 w2 w3,
    Register "auth" "10.0.0.1:9000" "v1" empty_world = (Ok tt, w1)
    /\ Unregister "auth" "10.0.0.1:9000" w1 = (Ok tt, w2)
    /\ Discover "auth" w2 = (Ok [], w3).
Proof.
  destruct (Register_Unregister_Discover "auth" "10.0.0.1:9000" "v1"
              empty_world eq_refl
              (conj eq_refl (conj eq_refl (conj eq_refl (conj eq_refl I)))))
    as (w1 & w2 & w3 & services & HR & HU & HD & _ & Hnone).
  exists w1, w2, w3. split; [ exact HR | ]. split; [ exact HU | ].
  rewrite <- (Hnone eq_refl). exact HD.
Defined.

(** ** Discover and Close at the edges *)

(** X9. [Discover] only reads. With nothing under the prefix of the name
    it returns the empty list and no error; when the read fails it
    returns the error of the read; and in every case the store, the
    goroutines and the output are as before. *)
Theorem Discover_edges :
  forall (serviceName : string) (w : World),
    done w = false ->
    (hd None (faults w) = None -> entries serviceName w = [] ->
     fst (Discover serviceName w) = Ok [])
    /\ (forall e, hd None (faults w) = Some e ->
                  fst (Discover serviceName w) = Err e)
    /\ kvs (snd (Discover serviceName w)) = kvs w
    /\ goroutines (snd (Discover serviceName w)) = goroutines w
    /\ output (snd (Discover serviceName w)) = output w.
Proof.
  intros serviceName w Hd. split; [ | split ].
  - intros Hf Hnone. rewrite (Discover_ok _ _ Hd Hf). cbn [fst].
    now rewrite Hnone.
  - intros e He. unfold Discover, kv_Get_WithPrefix, bind, call.
    rewrite Hd. destruct (faults w) as [ | [ e' | ] rest ];
      cbn in He; try discriminate He. now inversion He.
  - destruct (Discover_frame serviceName w)
      as (Hk & _ & _ & _ & Hg & Ho & _). now repeat split.
Qed.

Lemma Discover_edges_witness :
  fst (Discover "auth" empty_world) = Ok []
  /\ fst (Discover "auth"
            (set_faults [Some (StoreError "etcdserver: timeout")]
                        empty_world))
     = Err (StoreError "etcdserver: timeout").
Proof.
  split.
  - apply (proj1 (Discover_edges "auth" empty_world eq_refl));
      reflexivity.
  - apply (proj1 (proj2 (Discover_edges "auth"
                           (set_faults
                              [Some (StoreError "etcdserver: timeout")]
                              empty_world) eq_refl))).
    reflexivity.
Defined.

(** X10. After [Close] of the registry every operation fails with the
    error of the cancelled context and leaves the world as it is:
    [Register] grants no lease and writes no key, [Unregister] deletes
    nothing, [Discover] reads nothing. [Watch] fails too, but it has
    started its goroutine before it finds out. *)
Theorem operations_after_Close :
  forall (w w1 : World) (err : result unit),
    Close w = (err, w1) ->
    forall (serviceName address version : string) (callback : Callback),
      Register serviceName address version w1 = (Err ContextCanceled, w1)
      /\ Unregister serviceName address w1 = (Err ContextCanceled, w1)
      /\ Discover serviceName w1 = (Err ContextCanceled, w1)
      /\ Watch serviceName callback w1
         = (Err ContextCanceled,
            go (watcher serviceName callback WStart) w1).
Proof.
  intros w w1 err HC serviceName address version callback.
  destruct (Close_done w) as (Hd & _). rewrite HC in Hd. cbn [snd] in Hd.
  assert (Hcall : forall w2, done w2 = true ->
                             call w2 = (Err ContextCanceled, w2))
    by (intros w2 H2; now apply call_done).
  repeat split.
  - unfold Register, lease_Grant, request, bind, lift, gets.
    destruct (Unmarshal_payload serviceName address version) as (HM & _).
    rewrite HM. now rewrite (Hcall w1 Hd).
  - unfold Unregister, kv_Delete, request. now rewrite (Hcall w1 Hd).
  - now apply Discover_done.
  - unfold Watch, Watch_go, Watch_initial, bind, modify.
    now rewrite Discover_done.
Qed.

Lemma operations_after_Close_witness :
  let w1 := snd (Close empty_world) in
  Register "auth" "10.0.0.1:9000" "v1" w1 = (Err ContextCanceled, w1)
  /\ goroutines (snd (Watch "auth" (UserCallback 0) w1))
     = [watcher "auth" (UserCallback 0) WStart].
Proof.
  intros w1.
  destruct (operations_after_Close empty_world w1 (Ok tt) eq_refl
              "auth" "10.0.0.1:9000" "v1" (UserCallback 0))
    as (HR & _ & _ & HW).
  split; [ exact HR | ]. rewrite HW. reflexivity.
Defined.

(** ** Build *)

(** X11. [Build] always returns a resolver for the connection and always
    starts the goroutine of its watch, which is there when [Build]
    returns, whatever ran between the [go] statement and the first
    [Discover]. When [Build] returns no error, the last thing it did was
    to hand the connection the addresses of the records that [Discover]
    returned for the endpoint, in that order; when it returns an error,
    [Build] itself has handed the connection nothing. What ran in between
    only added to the output: the goroutine may have handed the
    connection updates of its own before [Build] returns. *)
Theorem Build_publishes_addresses :
  forall (endpoint : string) (cc_ : nat) (w w2 w' : World)
         (s : list Action) (err : result unit),
    run s (snd (Watch_go endpoint (BuildCallback cc_) w)) = Some w2 ->
    Watch_initial endpoint (BuildCallback cc_) w2 = (err, w') ->
    fst (fst (Build endpoint cc_ w)) = mk_etcdResolver cc_
    /\ (s = [] -> Build endpoint cc_ w = (mk_etcdResolver cc_, err, w'))
    /\ (exists pc,
          nth_error (goroutines w') (List.length (goroutines w))
          = Some (watcher endpoint (BuildCallback cc_) pc))
    /\ (exists l, output w2 = output w ++ l)
    /\ (err = Ok tt ->
        exists services w3,
          Discover endpoint w2 = (Ok services, w3)
          /\ output w'
             = output w2 ++ [UpdateState Sync cc_ (map Address services)])
    /\ (forall e, err = Err e -> output w' = output w2).
Proof.
  intros endpoint cc_ w w2 w' s err Hr HW.
  split; [ unfold Build; now destruct (Watch _ _ w) | ].
  split.
  { intros ->. cbn [run] in Hr. inversion Hr; subst w2; clear Hr.
    unfold Build, Watch, bind. unfold Watch_go at 1. unfold modify.
    unfold Watch_go, modify in HW. cbn [snd] in HW. now rewrite HW. }
  assert (Hg : exists pc,
             nth_error (goroutines w2) (List.length (goroutines w))
             = Some (watcher endpoint (BuildCallback cc_) pc)).
  { destruct (run_later s _ w2 (List.length (goroutines w))
                (watcher endpoint (BuildCallback cc_) WStart) Hr)
      as (g & Hg & L & _).
    - unfold Watch_go, modify. cbn [snd go set_goroutines goroutines].
      apply nth_error_new.
    - destruct g as [ | serviceName callback pc ]; [ contradiction | ].
      destruct L as (<- & <-). now exists pc. }
  assert (Ho : exists l, output w2 = output w ++ l).
  { destruct (run_extends _ _ _ Hr) as (l & Hl). now exists l. }
  unfold Watch_initial, bind, invoke, modify in HW.
  pose proof (Discover_frame endpoint w2) as F.
  destruct (Discover endpoint w2) as [ [ services | e ] w3 ] eqn:HD;
    inversion HW; subst; clear HW; cbn [snd] in F;
    destruct F as (_ & _ & _ & _ & Fg & Fo & _).
  - split; [ cbn [goroutines emit]; now rewrite Fg | ].
    split; [ exact Ho | ]. split.
    + intros _. exists services, w3. split; [ reflexivity | ].
      cbn [output emit callback_output]. now rewrite Fo.
    + intros e He. discriminate He.
  - split; [ now rewrite Fg | ]. split; [ exact Ho | ]. split.
    + intros He. discriminate He.
    + intros e' _. exact Fo.
Qed.

Lemma Build_publishes_addresses_witness :
  exists w2 w',
    run early_event (snd (Watch_go "auth" (BuildCallback 7) empty_world))
    = Some w2
    /\ Watch_initial "auth" (BuildCallback 7) w2 = (Ok tt, w')
    /\ deliveries (output w')
       = [UpdateState (Async 0) 7 [EmptyString];
          UpdateState Sync 7 [EmptyString]].
Proof.
  set (w2 := world_after early_event
               (snd (Watch_go "auth" (BuildCallback 7) empty_world))).
  set (w' := snd (Watch_initial "auth" (BuildCallback 7) w2)).
  exists w2, w'.
  assert (Hr : run early_event
                 (snd (Watch_go "auth" (BuildCallback 7) empty_world))
               = Some w2) by (vm_compute; reflexivity).
  assert (HW : Watch_initial "auth" (BuildCallback 7) w2 = (Ok tt, w'))
    by (vm_compute; reflexivity).
  split; [ exact Hr | ]. split; [ exact HW | ].
  destruct (Build_publishes_addresses "auth" 7 empty_world w2 w'
              early_event (Ok tt) Hr HW) as (_ & _ & _ & _ & Hok & _).
  destruct (Hok eq_refl) as (services & w3 & HD & Ho).
  rewrite Ho. vm_compute in HD. inversion HD; subst. reflexivity.
Defined.

(** X12. A resolver built after a successful [Register] of a name with
    an address of valid UTF-8 hands the connection a list of addresses
    that contains that address. *)
Theorem Register_then_Build :
  forall (serviceName address version : string) (cc_ : nat) (w : World),
    utf8.ValidString address = true ->
    done w = false ->
    no_fault 3 (faults w) ->
    exists w1 w2 addrs,
      Register serviceName address version w = (Ok tt, w1)
      /\ Build serviceName cc_ w1 = (mk_etcdResolver cc_, Ok tt, w2)
      /\ output w2 = output w ++ [UpdateState Sync cc_ addrs]
      /\ In address addrs.
Proof.
  intros serviceName address version cc_ w Ha Hd Hf.
  assert (Hf2 : no_fault 2 (faults w))
    by (destruct Hf as (H1 & H2 & _); now repeat split).
  destruct (Register_ok serviceName address version w Hd Hf2)
    as (w1 & HR & Hk & _ & _ & Hfw & _ & Ho1 & Hd1 & _).
  destruct (Unmarshal_payload serviceName address version) as (_ & HU).
  set (kv := mkKeyValue (service_key serviceName address)
                        (payload serviceName address version)
                        (nextLease w)) in *.
  set (w0 := go (watcher serviceName (BuildCallback cc_) WStart) w1).
  assert (Hf3 : hd None (faults w0) = None).
  { subst w0. cbn [go set_goroutines faults]. rewrite Hfw.
    destruct Hf as (_ & _ & H3 & _). exact H3. }
  assert (Hd0 : done w0 = false) by exact Hd1.
  exists w1.
  exists (emit (UpdateState Sync cc_
                  (map Address (decode_all (entries serviceName w0) [])))
               (set_faults (tl (faults w0)) w0)).
  exists (map Address (decode_all (entries serviceName w0) [])).
  split; [ exact HR | ]. split; [ | split ].
  - unfold Build, Watch, bind. unfold Watch_go, modify. fold w0.
    unfold Watch_initial, bind, invoke, modify.
    rewrite (Discover_ok serviceName w0 Hd0 Hf3). reflexivity.
  - cbn [output emit set_faults]. subst w0.
    cbn [go set_goroutines output]. now rewrite Ho1.
  - apply in_map_iff.
    exists (mkServiceInfo (coerced serviceName) (coerced address)
                          (coerced version)).
    split; [ cbn [Address]; now apply coerced_valid | ].
    apply (decode_all_contains _ kv); [ | exact HU ].
    unfold entries. subst w0. cbn [go set_goroutines kvs]. rewrite Hk.
    apply filter_In. split; [ apply In_insert_kv; now left | ].
    apply prefix_service_key.
Qed.

Lemma Register_then_Build_witness :
  exists w1 w2,
    Register "auth" "10.0.0.1:9000" "v1" empty_world = (Ok tt, w1)
    /\ Build "auth" 7 w1 = (mk_etcdResolver 7, Ok tt, w2)
    /\ output w2 = [UpdateState Sync 7 ["10.0.0.1:9000"]].
Proof.
  destruct (Register_then_Build "auth" "10.0.0.1:9000" "v1" 7 empty_world
              eq_refl eq_refl (conj eq_refl (conj eq_refl (conj eq_refl I))))
    as (w1 & w2 & addrs & HR & HB & Ho & _).
  exists w1, w2. split; [ exact HR | ]. split; [ exact HB | ].
  vm_compute in HR. inversion HR; subst w1.
  vm_compute in HB. inversion HB; subst w2. reflexivity.
Defined.

(** ** The watcher: from a store change to the callback *)

Lemma notify_watcher_under (ev : Event) (serviceName : string)
      (callback : Callback) (watchChan : list (list Event))
      (events : list Event) :
  under (services_prefix serviceName) ev = true ->
  notify [ev] (watcher serviceName callback (WLoop watchChan events))
  = watcher serviceName callback (WLoop (watchChan ++ [[ev]]) events).
Proof. intros H. cbn [notify filter]. now rewrite H. Qed.

Lemma replace_nth_same {A : Type} (l : list A) (i : nat) (x : A) :
  nth_error l i = Some x -> replace_nth i x l = l.
Proof.
  revert i. induction l as [ | a l IH ]; intros [ | i ] H; cbn in *;
    try discriminate; [ now inversion H | now rewrite IH ].
Qed.

Lemma replace_nth_twice {A : Type} (l : list A) (i : nat) (x y : A) :
  replace_nth i y (replace_nth i x l) = replace_nth i y l.
Proof.
  revert i. induction l as [ | a l IH ]; intros [ | i ]; cbn;
    try reflexivity. now rewrite IH.
Qed.

(** The events of a batch one after the other, with the calls left. *)
Lemma watcher_ranges_over_events_calls (events : list Event) :
  forall (w : World) (i : nat) (serviceName : string) (callback : Callback)
         (watchChan : list (list Event)),
    nth_error (goroutines w) i
    = Some (watcher serviceName callback (WLoop watchChan events)) ->
    done w = false ->
    no_fault (List.length events) (faults w) ->
    exists w',
      run (repeat (Step i Recv) (List.length events)) w = Some w'
      /\ goroutines w'
         = replace_nth i (watcher serviceName callback (WLoop watchChan []))
                       (goroutines w)
      /\ kvs w' = kvs w /\ done w' = false
      /\ faults w' = skipn (List.length events) (faults w)
      /\ output w'
         = output w
           ++ batch_output i callback
                (decode_all (entries serviceName w) []) events.
Proof.
  induction events as [ | event events IH ];
    intros w i serviceName callback watchChan Hi Hd Hf.
  - exists w. cbn [List.length repeat run skipn batch_output flat_map].
    rewrite app_nil_r, (replace_nth_same _ _ _ Hi). repeat split; auto.
  - cbn [List.length repeat run exec]. destruct Hf as (Hf & Hfs).
    unfold step at 1. rewrite Hi.
    rewrite on_event_ok by assumption.
    set (w1 := set_goroutine i _ _).
    destruct (IH w1 i serviceName callback watchChan)
      as (w' & Hr & Hg' & Hk & Hd' & Hf' & Ho).
    + subst w1. cbn [set_goroutine set_goroutines goroutines emit set_faults].
      eapply nth_error_replace_nth. exact Hi.
    + exact Hd.
    + exact Hfs.
    + exists w'. split; [ exact Hr | ]. split; [ | split; [ exact Hk | ] ].
      * rewrite Hg'. subst w1.
        cbn [set_goroutine set_goroutines goroutines emit set_faults].
        apply replace_nth_twice.
      * split; [ exact Hd' | ]. split.
        -- rewrite Hf'. subst w1.
           cbn [set_goroutine set_goroutines faults emit set_faults].
           destruct (faults w); cbn [tl skipn];
             [ now rewrite skipn_nil | reflexivity ].
        -- rewrite Ho. subst w1.
           cbn [set_goroutine set_goroutines output emit set_faults
                batch_output flat_map].
           rewrite <- !app_assoc. reflexivity.
Qed.

(** X13. A [Register] reaches an open watch on the same name: with the
    goroutine of the watch waiting at its [select], a successful
    [Register] of valid UTF-8 strings puts one batch on its channel, and
    when the goroutine has taken the batch and handled its event it has
    printed the change and run the callback with a snapshot that
    contains the new record. *)
Theorem Register_reaches_watcher :
  forall (serviceName address version : string) (callback : Callback)
         (i : nat) (w : World),
    nth_error (goroutines w) i
    = Some (watcher serviceName callback (WLoop [] [])) ->
    utf8.ValidString serviceName = true ->
    utf8.ValidString address = true ->
    utf8.ValidString version = true ->
    done w = false ->
    no_fault 3 (faults w) ->
    let kv := mkKeyValue (service_key serviceName address)
                         (payload serviceName address version)
                         (nextLease w) in
    exists w1 w2 services,
      Register serviceName address version w = (Ok tt, w1)
      /\ run [Step i Recv; Step i Recv] w1 = Some w2
      /\ output w2
         = output w
           ++ [Printed (changed_line (mkEvent PUT kv));
               callback_output (Async i) callback services]
      /\ In (mkServiceInfo serviceName address version) services.
Proof.
  intros serviceName address version callback i w Hi Hn Ha Hv Hd Hf kv.
  assert (Hf2 : no_fault 2 (faults w))
    by (destruct Hf as (H1 & H2 & _); now repeat split).
  destruct (Register_ok serviceName address version w Hd Hf2)
    as (w1 & HR & Hk & _ & _ & Hfw & Hg & Ho1 & Hd1 & _).
  fold kv in Hk, Hg.
  destruct (Unmarshal_payload serviceName address version) as (_ & HU).
  rewrite (coerced_valid _ Hn), (coerced_valid _ Ha), (coerced_valid _ Hv)
    in HU.
  assert (Hi1 : nth_error (goroutines w1) i
                = Some (watcher serviceName callback (WLoop [[mkEvent PUT kv]]
                                                            []))).
  { rewrite Hg. rewrite nth_error_app1.
    - rewrite nth_error_map, Hi. cbn [option_map].
      rewrite notify_watcher_under; [ reflexivity | ].
      apply prefix_service_key.
    - rewrite length_map. apply nth_error_Some. now rewrite Hi. }
  set (w1' := set_goroutine i
                (watcher serviceName callback (WLoop [] [mkEvent PUT kv]))
                w1).
  destruct (watcher_ranges_over_events_calls [mkEvent PUT kv] w1' i
              serviceName callback [])
    as (w2 & Hr & _ & Hk2 & _ & _ & Ho2).
  - subst w1'. cbn [set_goroutine set_goroutines goroutines].
    apply (nth_error_replace_nth _ _ _ _ Hi1).
  - exact Hd1.
  - cbn [List.length no_fault]. subst w1'.
    cbn [set_goroutine set_goroutines faults]. rewrite Hfw.
    destruct Hf as (_ & _ & H3 & _). now split.
  - exists w1, w2, (decode_all (entries serviceName w1') []).
    split; [ exact HR | ]. split; [ | split ].
    + cbn [run exec]. unfold step at 1. rewrite Hi1. exact Hr.
    + rewrite Ho2. subst w1'. cbn [set_goroutine set_goroutines output].
      rewrite Ho1. reflexivity.
    + apply (decode_all_contains _ kv); [ | exact HU ].
      unfold entries. subst w1'. cbn [set_goroutine set_goroutines kvs].
      rewrite Hk. apply filter_In.
      split; [ apply In_insert_kv; now left | ].
      apply prefix_service_key.
Qed.

Lemma Register_reaches_watcher_witness :
  let w := world_after [Step 0 Recv]
             (snd (Watch "auth" (UserCallback 0) empty_world)) in
  exists w1 w2,
    Register "auth" "10.0.0.1:9000" "v1" w = (Ok tt, w1)
    /\ run [Step 0 Recv; Step 0 Recv] w1 = Some w2
    /\ In (Called (Async 0) 0 [mkServiceInfo "auth" "10.0.0.1:9000" "v1"])
          (output w2).
Proof.
  intros w.
  destruct (Register_reaches_watcher "auth" "10.0.0.1:9000" "v1"
              (UserCallback 0) 0 w eq_refl eq_refl eq_refl eq_refl eq_refl
              (conj eq_refl (conj eq_refl (conj eq_refl I))))
    as (w1 & w2 & services & HR & Hr & Ho & _).
  exists w1, w2. split; [ exact HR | ]. split; [ exact Hr | ].
  vm_compute in HR. inversion HR; subst w1.
  vm_compute in Hr. inversion Hr; subst w2.
  vm_compute. right. right. now left.
Defined.

(** ** The watcher: failed queries, several batches, a cancelled context *)

Lemma on_event_err (i : nat) (serviceName : string) (callback : Callback)
      (event : Event) (w : World) (e : error) :
  done w = false -> hd None (faults w) = Some e ->
  on_event i serviceName callback event w
  = set_faults (tl (faults w)) (emit (Printed (changed_line event)) w).
Proof.
  intros Hd Hf. unfold on_event, Discover, kv_Get_WithPrefix, bind, call.
  cbn [done emit faults]. rewrite Hd.
  destruct (faults w) as [ | [ e' | ] rest ]; cbn in Hf;
    try discriminate Hf. reflexivity.
Qed.

Lemma on_event_done (i : nat) (serviceName : string) (callback : Callback)
      (event : Event) (w : World) :
  done w = true ->
  on_event i serviceName callback event w
  = emit (Printed (changed_line event)) w.
Proof.
  intros Hd. unfold on_event. now rewrite Discover_done.
Qed.

(** X14. A query that fails while the watcher handles an event is
    swallowed: whatever the store answers, the goroutine prints one line
    for every event of the batch, delivers one snapshot for every event
    whose [Discover] succeeds and none for the others, and is back at
    its [select] with the store untouched. *)
Theorem watcher_swallows_failed_queries :
  forall (events : list Event) (w : World) (i : nat)
         (serviceName : string) (callback : Callback)
         (watchChan : list (list Event)),
    nth_error (goroutines w) i
    = Some (watcher serviceName callback (WLoop watchChan events)) ->
    done w = false ->
    exists w' l,
      run (repeat (Step i Recv) (List.length events)) w = Some w'
      /\ nth_error (goroutines w') i
         = Some (watcher serviceName callback (WLoop watchChan []))
      /\ kvs w' = kvs w
      /\ output w' = output w ++ l
      /\ printed l = map changed_line events
      /\ List.length (deliveries l)
         = successes (List.length events) (faults w).
Proof.
  induction events as [ | event events IH ];
    intros w i serviceName callback watchChan Hi Hd.
  - exists w, []. cbn [List.length repeat run]. rewrite app_nil_r.
    repeat split; auto.
  - cbn [List.length repeat run exec]. unfold step at 1. rewrite Hi.
    set (w0 := on_event i serviceName callback event w).
    assert (H0 : exists l0,
               output w0 = output w ++ Printed (changed_line event) :: l0
               /\ printed l0 = []
               /\ kvs w0 = kvs w /\ done w0 = false
               /\ goroutines w0 = goroutines w
               /\ faults w0 = tl (faults w)
               /\ successes (S (List.length events)) (faults w)
                  = (List.length (deliveries l0)
                     + successes (List.length events) (faults w0))%nat).
    { subst w0. destruct (hd None (faults w)) as [ e | ] eqn:Hf.
      - rewrite (on_event_err _ _ _ _ _ e Hd Hf). exists [].
        cbn [output emit set_faults kvs done goroutines faults].
        repeat split; auto.
        destruct (faults w) as [ | [ e' | ] rest ]; cbn in Hf;
          try discriminate Hf. reflexivity.
      - rewrite (on_event_ok _ _ _ _ _ Hd Hf).
        exists [callback_output (Async i) callback
                  (decode_all (entries serviceName w) [])].
        cbn [output emit set_faults kvs done goroutines faults].
        rewrite <- app_assoc. repeat split; auto.
        + now destruct callback.
        + assert (Hdel : List.length
                           (deliveries
                              [callback_output (Async i) callback
                                 (decode_all (entries serviceName w) [])])
                         = 1%nat) by now destruct callback.
          rewrite Hdel.
          destruct (faults w) as [ | [ e' | ] rest ]; cbn in Hf;
            try discriminate Hf; cbn [successes tl Nat.add];
            [ | reflexivity ].
          f_equal. clear. induction (List.length events); reflexivity. }
    destruct H0 as (l0 & Ho0 & Hp0 & Hk0 & Hd0 & Hg0 & Hf0 & Hs0).
    set (w1 := set_goroutine i
                 (watcher serviceName callback (WLoop watchChan events)) w0).
    destruct (IH w1 i serviceName callback watchChan)
      as (w' & l & Hr & Hi' & Hk & Ho & Hp & Hn).
    + subst w1. cbn [set_goroutine set_goroutines goroutines].
      rewrite Hg0. eapply nth_error_replace_nth. exact Hi.
    + exact Hd0.
    + exists w', (Printed (changed_line event) :: l0 ++ l).
      split; [ exact Hr | ]. split; [ exact Hi' | ].
      split; [ now rewrite Hk | ]. split; [ | split ].
      * rewrite Ho. subst w1. cbn [set_goroutine set_goroutines output].
        rewrite Ho0, <- app_assoc. reflexivity.
      * cbn [printed map]. f_equal.
        assert (Happ : forall a b, printed a = [] -> printed (a ++ b)
                                                      = printed b).
        { intros a b. induction a as [ | [ line | ? ? ? | ? ? ? ] a IHa ];
            cbn [printed app]; intros Ha; try discriminate Ha; auto. }
        now rewrite Happ.
      * unfold deliveries in *. cbn [filter is_delivery origin].
        rewrite filter_app, length_app, Hs0, Hn. subst w1.
        cbn [set_goroutine set_goroutines faults]. reflexivity.
Qed.

Lemma watcher_swallows_failed_queries_witness :
  exists w',
    run [Step 0 Recv; Step 0 Recv]
        (set_faults [Some (StoreError "etcdserver: timeout")]
                    (world_after [Step 0 Recv] two_event_world))
    = Some w'
    /\ List.length (deliveries_of 0 (output w')) = 1%nat.
Proof.
  destruct (watcher_swallows_failed_queries
              [mkEvent PUT (mkKeyValue "/services/auth/10.0.0.1:9000" "{}" 0);
               mkEvent PUT (mkKeyValue "/services/auth/10.0.0.2:9000" "{}" 0)]
              (set_faults [Some (StoreError "etcdserver: timeout")]
                          (world_after [Step 0 Recv] two_event_world))
              0 "auth" (UserCallback 0) [] eq_refl eq_refl)
    as (w' & l & Hr & _).
  exists w'. split; [ exact Hr | ].
  vm_compute in Hr. inversion Hr; subst w'. reflexivity.
Defined.

Lemma run_append (s1 s2 : list Action) (w w1 : World) :
  run s1 w = Some w1 -> run (s1 ++ s2) w = run s2 w1.
Proof.
  revert w. induction s1 as [ | a s1 IH ]; intros w H; cbn [run app] in *.
  - now inversion H.
  - destruct (exec a w); [ now apply IH | discriminate H ].
Qed.

Lemma no_fault_add (a b : nat) (l : list (option error)) :
  no_fault (a + b) l -> no_fault a l /\ no_fault b (skipn a l).
Proof.
  revert l. induction a as [ | a IH ]; intros l H; cbn [Nat.add] in H.
  - split; [ exact I | exact H ].
  - destruct H as (Hh & Ht). destruct (IH _ Ht) as (Ha & Hb).
    split; [ now split | ].
    destruct l; cbn [skipn tl] in *; [ now rewrite skipn_nil in Hb | exact Hb ].
Qed.

(** X15. The watcher handles the batches on its channel in the order in
    which they were put there, and within a batch the events in their
    order: with the queries succeeding, what it prints and delivers for
    a channel of batches is what it prints and delivers for the first
    batch, then for the second, and so on, and the channel is empty at
    the end. *)
Theorem watcher_handles_batches_in_order :
  forall (watchChan : list (list Event)) (w : World) (i : nat)
         (serviceName : string) (callback : Callback),
    nth_error (goroutines w) i
    = Some (watcher serviceName callback (WLoop watchChan [])) ->
    done w = false ->
    no_fault (List.length (List.concat watchChan)) (faults w) ->
    exists w',
      run (flat_map (fun batch =>
                       repeat (Step i Recv) (S (List.length batch)))
                    watchChan) w = Some w'
      /\ nth_error (goroutines w') i
         = Some (watcher serviceName callback (WLoop [] []))
      /\ output w'
         = output w
           ++ flat_map (batch_output i callback
                          (decode_all (entries serviceName w) []))
                       watchChan.
Proof.
  induction watchChan as [ | batch watchChan IH ];
    intros w i serviceName callback Hi Hd Hf.
  - exists w. cbn. rewrite app_nil_r. auto.
  - cbn [flat_map List.concat] in *. rewrite length_app in Hf.
    destruct (no_fault_add _ _ _ Hf) as (Hf1 & Hf2).
    set (w0 := set_goroutine i
                 (watcher serviceName callback (WLoop watchChan batch)) w).
    destruct (watcher_ranges_over_events_calls batch w0 i serviceName
                callback watchChan)
      as (w1 & Hr1 & Hg1 & Hk1 & Hd1 & Hfw1 & Ho1).
    + subst w0. cbn [set_goroutine set_goroutines goroutines].
      apply (nth_error_replace_nth _ _ _ _ Hi).
    + exact Hd.
    + exact Hf1.
    + assert (Hi1 : nth_error (goroutines w1) i
                    = Some (watcher serviceName callback
                                    (WLoop watchChan []))).
      { rewrite Hg1. subst w0. cbn [set_goroutine set_goroutines goroutines].
        rewrite replace_nth_twice.
        apply (nth_error_replace_nth _ _ _ _ Hi). }
      destruct (IH w1 i serviceName callback Hi1 Hd1)
        as (w' & Hr & Hi' & Ho).
      { rewrite Hfw1. exact Hf2. }
      exists w'. split; [ | split; [ exact Hi' | ] ].
      * change (repeat (Step i Recv) (S (List.length batch)))
          with (Step i Recv :: repeat (Step i Recv) (List.length batch)).
        cbn [app run exec]. unfold step at 1. rewrite Hi. fold w0.
        rewrite (run_append _ _ _ _ Hr1). exact Hr.
      * rewrite Ho, Ho1. unfold entries. rewrite Hk1. subst w0.
        cbn [set_goroutine set_goroutines output kvs].
        rewrite <- app_assoc. reflexivity.
Qed.

Lemma watcher_handles_batches_in_order_witness :
  let e1 := mkEvent PUT (mkKeyValue "/services/auth/a" "{}" 0) in
  let e2 := mkEvent DELETE (mkKeyValue "/services/auth/a" EmptyString 0) in
  let w := mkWorld [] [] 1 [] 10 false
                   [watcher "auth" (UserCallback 0) (WLoop [[e1]; [e2]] [])]
                   [] in
  exists w',
    run (repeat (Step 0 Recv) 4) w = Some w'
    /\ output w'
       = [Printed (changed_line e1); Called (Async 0) 0 [];
          Printed (changed_line e2); Called (Async 0) 0 []].
Proof.
  intros e1 e2 w.
  destruct (watcher_handles_batches_in_order [[e1]; [e2]] w 0 "auth"
              (UserCallback 0) eq_refl eq_refl
              (conj eq_refl (conj eq_refl I)))
    as (w' & Hr & _ & Ho).
  exists w'. split; [ exact Hr | exact Ho ].
Defined.

(** X16. The watcher looks at the context only at its [select]: when
    the context is cancelled while it ranges over a batch, it still goes
    through the events left, printing a line for each and delivering
    nothing, and only then can it take the cancellation and return;
    after that it never runs again. *)
Theorem watcher_finishes_batch_after_Close :
  forall (events : list Event) (w : World) (i : nat)
         (serviceName : string) (callback : Callback)
         (watchChan : list (list Event)),
    nth_error (goroutines w) i
    = Some (watcher serviceName callback (WLoop watchChan events)) ->
    done w = true ->
    (events <> [] -> step i CtxDone w = step i Recv w)
    /\ exists w',
         run (repeat (Step i Recv) (List.length events) ++ [Step i CtxDone])
             w = Some w'
         /\ nth_error (goroutines w') i
            = Some (watcher serviceName callback WDone)
         /\ output w'
            = output w
              ++ map (fun event => Printed (changed_line event)) events
         /\ kvs w' = kvs w
         /\ forall c, step i c w' = None.
Proof.
  induction events as [ | event events IH ];
    intros w i serviceName callback watchChan Hi Hd.
  - split; [ now intros H | ].
    cbn [List.length repeat app run exec]. unfold step at 1.
    rewrite Hi, Hd. eexists. split; [ reflexivity | ].
    assert (Hi' : nth_error (goroutines
                               (set_goroutine i
                                  (watcher serviceName callback WDone) w)) i
                  = Some (watcher serviceName callback WDone))
      by (cbn [set_goroutine set_goroutines goroutines];
          apply (nth_error_replace_nth _ _ _ _ Hi)).
    split; [ exact Hi' | ]. cbn [map]. rewrite app_nil_r.
    repeat split. intros c. unfold step. now rewrite Hi'.
  - split; [ intros _; unfold step; now rewrite Hi | ].
    cbn [List.length repeat app run exec]. unfold step at 1. rewrite Hi.
    rewrite (on_event_done _ _ _ _ _ Hd).
    set (w1 := set_goroutine i _ _).
    destruct (IH w1 i serviceName callback watchChan)
      as (_ & w' & Hr & Hi' & Ho & Hk & Hret).
    + subst w1. cbn [set_goroutine set_goroutines goroutines emit].
      apply (nth_error_replace_nth _ _ _ _ Hi).
    + exact Hd.
    + exists w'. split; [ exact Hr | ]. split; [ exact Hi' | ].
      split; [ | split; [ exact Hk | exact Hret ] ].
      rewrite Ho. subst w1. cbn [set_goroutine set_goroutines output emit map].
      rewrite <- app_assoc. reflexivity.
Qed.

Lemma watcher_finishes_batch_after_Close_witness :
  let w := snd (Close (world_after [Step 0 Recv] two_event_world)) in
  exists w',
    run [Step 0 Recv; Step 0 Recv; Step 0 CtxDone] w = Some w'
    /\ nth_error (goroutines w') 0
       = Some (watcher "auth" (UserCallback 0) WDone)
    /\ deliveries_of 0 (output w') = [].
Proof.
  intros w.
  destruct (watcher_finishes_batch_after_Close
              [mkEvent PUT (mkKeyValue "/services/auth/10.0.0.1:9000" "{}" 0);
               mkEvent PUT (mkKeyValue "/services/auth/10.0.0.2:9000" "{}" 0)]
              w 0 "auth" (UserCallback 0) [] eq_refl eq_refl)
    as (_ & w' & Hr & Hi & Ho & _).
  exists w'. split; [ exact Hr | ]. split; [ exact Hi | ].
  rewrite Ho. reflexivity.
Defined.

(** ** keepAlive: renewals, and a stream that does not open *)

(** X17. A renewal of the lease changes nothing in the process: for
    every response that is not nil the [keepAlive] goroutine takes it
    from its channel and goes on waiting; after any number of them it is
    in its loop with the responses left, and the store, the leases, the
    calls left and the output are as before. *)
Theorem keepAlive_ignores_renewals :
  forall (ttls : list Z) (rest : list (option Z)) (w : World) (i : nat)
         (leaseID : LeaseID) (key value : string),
    nth_error (goroutines w) i
    = Some (keepAlive leaseID key value (KaLoop (map Some ttls ++ rest))) ->
    run (repeat (Step i Recv) (List.length ttls)) w
    = Some (set_goroutine i (keepAlive leaseID key value (KaLoop rest)) w).
Proof.
  induction ttls as [ | t ttls IH ];
    intros rest w i leaseID key value Hi; cbn [map app] in Hi.
  - cbn [List.length repeat run]. unfold set_goroutine.
    rewrite (replace_nth_same _ _ _ Hi). now destruct w.
  - cbn [List.length repeat run exec]. unfold step at 1. rewrite Hi.
    rewrite (IH rest _ i leaseID key value).
    + unfold set_goroutine, set_goroutines. cbn [goroutines kvs leases
        nextLease faults ttl done output]. now rewrite replace_nth_twice.
    + cbn [set_goroutine set_goroutines goroutines].
      apply (nth_error_replace_nth _ _ _ _ Hi).
Qed.

Lemma keepAlive_ignores_renewals_witness :
  let w := mkWorld [] [(1, 10)] 2 [] 10 false
             [keepAlive 1 "/services/auth/a" "{}"
                        (KaLoop [Some 10; Some 10; None])] [] in
  run [Step 0 Recv; Step 0 Recv] w
  = Some (mkWorld [] [(1, 10)] 2 [] 10 false
            [keepAlive 1 "/services/auth/a" "{}" (KaLoop [None])] []).
Proof.
  intros w.
  exact (keepAlive_ignores_renewals [10; 10] [None] w 0 1
           "/services/auth/a" "{}" eq_refl).
Defined.

(** X18. [Register] does not wait for the renewal stream: when it has
    returned nil and the call that opens the stream then fails, the
    [keepAlive] goroutine prints the error and returns for good, and the
    entry stays in the store under its lease, which nothing renews. *)
Theorem keepAlive_open_failure_after_Register :
  forall (serviceName address version : string) (w : World) (e : error),
    done w = false ->
    no_fault 2 (faults w) ->
    hd None (tl (tl (faults w))) = Some e ->
    let key := service_key serviceName address in
    let i := List.length (goroutines w) in
    exists w1 w2,
      Register serviceName address version w = (Ok tt, w1)
      /\ (forall c, step i c w1 = Some w2)
      /\ nth_error (goroutines w2) i
         = Some (keepAlive (nextLease w) key
                           (payload serviceName address version) KaDone)
      /\ output w2
         = output w ++ [Printed ("keep alive error: " ++ Error e ++ nl)]
      /\ filter (fun x => (Key x =? key)%string) (kvs w2)
         = [mkKeyValue key (payload serviceName address version)
                       (nextLease w)]
      /\ In (nextLease w, ttl w) (leases w2)
      /\ forall c, step i c w2 = None.
Proof.
  intros serviceName address version w e Hd Hf He key i.
  destruct (Register_ok serviceName address version w Hd Hf)
    as (w1 & HR & Hk & Hl & _ & Hfw & Hg & Ho & Hd1 & _).
  fold key in Hk, Hg.
  set (kv := mkKeyValue key (payload serviceName address version)
                        (nextLease w)) in *.
  set (ka := keepAlive (nextLease w) key
                       (payload serviceName address version)) in *.
  assert (Hi : nth_error (goroutines w1) i = Some (ka KaStart)).
  { rewrite Hg. subst i.
    rewrite <- (length_map (notify [mkEvent PUT kv]) (goroutines w)).
    apply nth_error_new. }
  assert (Hcall : lease_KeepAlive (nextLease w) w1
                  = (Err e, set_faults (tl (faults w1)) w1)).
  { unfold lease_KeepAlive. rewrite Hfw in *.
    destruct (tl (tl (faults w))) as [ | [ e' | ] rest ]; cbn in He;
      try discriminate He. now inversion He. }
  set (w2 := set_goroutine i (ka KaDone)
               (emit (Printed ("keep alive error: " ++ Error e ++ nl))
                     (set_faults (tl (faults w1)) w1))).
  assert (Hi2 : nth_error (goroutines w2) i = Some (ka KaDone)).
  { subst w2. cbn [set_goroutine set_goroutines goroutines emit set_faults].
    apply (nth_error_replace_nth _ _ _ _ Hi). }
  exists w1, w2. split; [ exact HR | ]. split; [ | split; [ exact Hi2 | ] ].
  - intros c. unfold step. rewrite Hi. subst ka. cbv beta iota.
    rewrite Hcall. reflexivity.
  - subst w2.
    cbn [set_goroutine set_goroutines output emit set_faults kvs leases].
    rewrite Ho, Hk, Hl. repeat split.
    + apply filter_insert_kv_only; [ apply delete_kv_key | ].
      apply String.eqb_refl.
    + apply in_or_app. right. now left.
    + intros c. unfold step. rewrite Hi2. reflexivity.
Qed.

Lemma keepAlive_open_failure_after_Register_witness :
  let w := set_faults [None; None; Some (StoreError "lease not found")]
                      empty_world in
  exists w1 w2,
    Register "auth" "10.0.0.1:9000" "v1" w = (Ok tt, w1)
    /\ step 0 Recv w1 = Some w2
    /\ output w2 = [Printed ("keep alive error: lease not found" ++ nl)]
    /\ List.length (kvs w2) = 1%nat.
Proof.
  intros w.
  destruct (keepAlive_open_failure_after_Register "auth" "10.0.0.1:9000"
              "v1" w (StoreError "lease not found") eq_refl
              (conj eq_refl (conj eq_refl I)) eq_refl)
    as (w1 & w2 & HR & Hs & _ & Ho & _).
  exists w1, w2. split; [ exact HR | ]. split; [ exact (Hs Recv) | ].
  split; [ exact Ho | ].
  specialize (Hs Recv).
  vm_compute in HR. inversion HR; subst w1.
  vm_compute in Hs. inversion Hs; subst w2. reflexivity.
Defined.

(** ** The TTL of the registry *)

Lemma keeps_ttl_ret {A : Type} (a : A) : keeps_ttl (ret a).
Proof. intros w. reflexivity. Qed.

Lemma keeps_ttl_lift {A : Type} (r : result A) : keeps_ttl (lift r).
Proof. intros w. reflexivity. Qed.

Lemma keeps_ttl_gets {A : Type} (f : World -> A) : keeps_ttl (gets f).
Proof. intros w. reflexivity. Qed.

Lemma keeps_ttl_modify (f : World -> World) :
  (forall w, ttl (f w) = ttl w) -> keeps_ttl (modify f).
Proof. intros H w. apply H. Qed.

Lemma keeps_ttl_bind {A B : Type} (m : M A) (k : A -> M B) :
  keeps_ttl m -> (forall a, keeps_ttl (k a)) -> keeps_ttl (bind m k).
Proof.
  intros Hm Hk w. unfold bind. specialize (Hm w).
  destruct (m w) as [ [ a | e ] w1 ]; cbn [snd] in *; [ | exact Hm ].
  now rewrite (Hk a w1).
Qed.

Lemma keeps_ttl_call : keeps_ttl call.
Proof.
  intros w. now destruct (call_frame w) as (_ & _ & _ & _ & _ & _ & H).
Qed.

Lemma keeps_ttl_request {A : Type} (effect : M A) :
  keeps_ttl effect -> keeps_ttl (request effect).
Proof.
  intros He w. unfold request. pose proof (keeps_ttl_call w) as Ht.
  pose proof (He (snd (call w))) as Ht1.
  destruct (call w) as [ [ [] | e ] w1 ]; cbn [snd] in *.
  - congruence.
  - destruct e; cbn [snd]; congruence.
Qed.

Lemma keeps_ttl_lease_KeepAlive (id : LeaseID) :
  keeps_ttl (lease_KeepAlive id).
Proof.
  intros w. unfold lease_KeepAlive.
  destruct (faults w) as [ | [ e | ] r ]; reflexivity.
Qed.

Lemma keeps_ttl_client_Close (closed : bool) :
  keeps_ttl (client_Close closed).
Proof.
  intros w. unfold client_Close. destruct closed; [ reflexivity | ].
  destruct (faults w) as [ | [ e | ] r ]; reflexivity.
Qed.

Lemma commit_ttl (ops : list Op) (w : World) : ttl (commit ops w) = ttl w.
Proof.
  unfold commit. now destruct (fold_left apply_op ops (kvs w, [])).
Qed.

Create HintDb ttl.

#[local] Hint Resolve keeps_ttl_ret keeps_ttl_lift keeps_ttl_gets
  keeps_ttl_call keeps_ttl_client_Close : ttl.

Ltac keeps_ttl :=
  repeat first
    [ apply keeps_ttl_bind; [ | intros ? ]
    | apply keeps_ttl_request
    | solve [ auto with ttl ]
    | apply keeps_ttl_modify; intros ?;
      first [ reflexivity | apply commit_ttl ] ].

Lemma api_ttl (a : Api) (w : World) : ttl (api a w) = ttl w.
Proof.
  destruct a; cbn [api etcdResolver_ResolveNow etcdResolver_Close];
    try reflexivity;
    match goal with
    | |- ttl (snd (?m w)) = _ =>
        assert (H : keeps_ttl m); [ | exact (H w) ]
    end;
    unfold Register, Unregister, Discover, Watch_go, Watch_initial, Close,
      lease_Grant, kv_Put, kv_Delete, kv_Get_WithPrefix, invoke;
    keeps_ttl.
Qed.

Lemma step_ttl (i : nat) (c : Choice) (w w' : World) :
  step i c w = Some w' -> ttl w' = ttl w.
Proof.
  unfold step. intros H.
  destruct (nth_error (goroutines w) i)
    as [ [ leaseID key value [ | keepAliveChan | ]
         | serviceName callback [ | watchChan [ | event events ] | ] ] | ];
    try discriminate H.
  - pose proof (keeps_ttl_lease_KeepAlive leaseID w) as Ht.
    destruct (lease_KeepAlive leaseID w) as [ [ [] | e ] w1 ];
      inversion H; subst; exact Ht.
  - destruct c.
    + destruct (done w); inversion H; subst; reflexivity.
    + destruct keepAliveChan as [ | [ t | ] rest ]; inversion H; subst;
        reflexivity.
  - inversion H; subst; reflexivity.
  - destruct c.
    + destruct (done w); inversion H; subst; reflexivity.
    + destruct watchChan; [ destruct (done w) | ]; inversion H; subst;
        reflexivity.
  - inversion H; subst. cbn [set_goroutine set_goroutines ttl].
    unfold on_event, invoke, modify.
    pose proof (Discover_frame serviceName
                  (emit (Printed (changed_line event)) w)) as F.
    destruct (Discover serviceName _) as [ [ services | e ] w1 ];
      cbn [snd] in *; destruct F as (_ & _ & _ & _ & _ & _ & Ht);
      exact Ht.
Qed.

Lemma run_ttl (s : list Action) (w w' : World) :
  run s w = Some w' -> ttl w' = ttl w.
Proof.
  revert w. induction s as [ | a s IH ]; intros w H; cbn [run] in H.
  - now inversion H.
  - destruct (exec a w) as [ w1 | ] eqn:E; [ | discriminate H ].
    rewrite (IH _ H). destruct a as [ ops | i resp | i c | a ];
      cbn [exec] in E.
    + inversion E; subst. apply commit_ttl.
    + unfold respond in E.
      destruct (nth_error (goroutines w) i) as [ [ ? ? ? [ | ? | ] | ] | ];
        inversion E; subst; reflexivity.
    + now apply step_ttl in E.
    + inversion E; subst. apply api_ttl.
Qed.

(** X19. A registry made by [NewEtcdRegistry] starts with a live
    context and no goroutine, on the store as it is; when the client
    cannot be created there is no registry. The TTL given at creation is
    never changed: whatever happens afterwards, it is the TTL the registry
    holds, and the TTL every [Register] passes to [Grant]. *)
Theorem NewEtcdRegistry_ttl :
  forall (ttl_ : Z) (store w0 w : World) (s : list Action),
    NewEtcdRegistry None ttl_ store = Ok w0 ->
    run s w0 = Some w ->
    (forall e, NewEtcdRegistry (Some e) ttl_ store = Err e)
    /\ done w0 = false /\ goroutines w0 = [] /\ kvs w0 = kvs store
    /\ ttl w = ttl_
    /\ forall (serviceName address version : string),
         Register serviceName address version w
         = (value <- lift (json.Marshal
                             (mkServiceInfo serviceName address version)) ;;
            grantResp <- lease_Grant ttl_ ;;
            _ <- kv_Put (service_key serviceName address) value grantResp ;;
            modify (go (keepAlive grantResp
                                  (service_key serviceName address) value
                                  KaStart))) w.
Proof.
  intros ttl_ store w0 w s HN Hr.
  unfold NewEtcdRegistry in HN. inversion HN; subst w0; clear HN.
  split; [ reflexivity | ]. repeat split.
  - now rewrite (run_ttl _ _ _ Hr).
  - intros serviceName address version.
    unfold Register, bind, lift, gets.
    destruct (json.Marshal (mkServiceInfo serviceName address version))
      as [ value | e ]; [ | reflexivity ].
    now rewrite (run_ttl _ _ _ Hr).
Qed.

Lemma NewEtcdRegistry_ttl_witness :
  exists w0 w,
    NewEtcdRegistry None 30 empty_world = Ok w0
    /\ run [App (ApiRegister "auth" "10.0.0.1:9000" "v1"); Step 0 Recv] w0
       = Some w
    /\ ttl w = 30.
Proof.
  set (w0 := mkWorld [] [] 1 [] 30 false [] []).
  set (w := world_after
              [App (ApiRegister "auth" "10.0.0.1:9000" "v1"); Step 0 Recv]
              w0).
  destruct (NewEtcdRegistry_ttl 30 empty_world w0 w
              [App (ApiRegister "auth" "10.0.0.1:9000" "v1"); Step 0 Recv]
              eq_refl eq_refl)
    as (_ & _ & _ & _ & Ht & _).
  exists w0, w. repeat split; assumption.
Defined.

(** ** The watcher: changes made before its watch is open *)

Lemma notify_WStart (evs : list Event) (serviceName : string)
      (callback : Callback) :
  notify evs (watcher serviceName callback WStart)
  = watcher serviceName callback WStart.
Proof. reflexivity. Qed.

(** X20. The goroutine of [Watch] opens its watch on the store only
    when it first runs. A transaction committed before that, even after
    [Watch] has returned, puts nothing on its channel: once the watch is
    open the goroutine waits at its [select] with an empty channel, it
    has printed and delivered nothing, and the change is in the store
    without the callback having been told. *)
Theorem changes_before_watch_opens_are_missed :
  forall (ops : list Op) (w : World) (i : nat) (serviceName : string)
         (callback : Callback),
    nth_error (goroutines w) i = Some (watcher serviceName callback WStart) ->
    done w = false ->
    exists w',
      run [Commit ops; Step i Recv] w = Some w'
      /\ nth_error (goroutines w') i
         = Some (watcher serviceName callback (WLoop [] []))
      /\ kvs w' = kvs (commit ops w)
      /\ output w' = output w
      /\ forall c, step i c w' = None.
Proof.
  intros ops w i serviceName callback Hi Hd.
  destruct (commit_frame ops w) as (Ho & Hdc & _).
  assert (Hic : nth_error (goroutines (commit ops w)) i
                = Some (watcher serviceName callback WStart)).
  { unfold commit. destruct (fold_left apply_op ops (kvs w, [])) as [ l evs ].
    cbn [set_goroutines goroutines]. rewrite nth_error_map, Hi.
    reflexivity. }
  cbn [run exec]. unfold step at 1. rewrite Hic.
  set (w' := set_goroutine i _ _).
  assert (Hi' : nth_error (goroutines w') i
                = Some (watcher serviceName callback (WLoop [] []))).
  { subst w'. cbn [set_goroutine set_goroutines goroutines].
    apply (nth_error_replace_nth _ _ _ _ Hic). }
  exists w'. split; [ reflexivity | ]. split; [ exact Hi' | ].
  split; [ reflexivity | ]. split; [ exact Ho | ].
  intros c. unfold step. rewrite Hi'.
  assert (Hd' : done w' = false) by (subst w'; cbn; congruence).
  rewrite Hd'. now destruct c.
Qed.

Lemma changes_before_watch_opens_are_missed_witness :
  let w := snd (Watch "auth" (UserCallback 0) empty_world) in
  exists w',
    run [Commit [OpPut "/services/auth/10.0.0.1:9000" "{}" 0]; Step 0 Recv]
        w = Some w'
    /\ List.length (kvs w') = 1%nat
    /\ output w' = [Called Sync 0 []]
    /\ step 0 Recv w' = None.
Proof.
  intros w.
  destruct (changes_before_watch_opens_are_missed
              [OpPut "/services/auth/10.0.0.1:9000" "{}" 0] w 0 "auth"
              (UserCallback 0) eq_refl eq_refl)
    as (w' & Hr & _ & Hk & Ho & Hs).
  exists w'. split; [ exact Hr | ]. rewrite Hk, Ho.
  split; [ reflexivity | ]. split; [ reflexivity | apply Hs ].
Defined.
